(** * Range search: the orchestrator of [range_search_impl.hpp]

    A shallow embedding of [mlpack::range::RangeSearch]: its two
    constructors, its destructor and its three [Search] overloads, with the
    caller's output buffers, the temporary buffers reached through
    [neighborPtr] and [distancePtr], and the heap of tree objects made explicit.

    The tree type, the metric and the rule object are template parameters or
    included headers of the C++ file; they appear here as type classes and
    as definitions that follow the written description of the library.
    The calls of [Timer] and the member [ToString] are left out: they touch
    neither the buffers nor the trees. *)

From stdpp Require Import base option list gmap.
From Stdlib Require Import ZArith Lia.

Set Default Proof Using "Type*".

(** ** Data *)

(** [arma::mat] seen as its sequence of columns; a column is a point. *)
Abbreviation Mat Point := (list Point) (only parsing).

(** [std::vector<std::vector<size_t>>] and [std::vector<std::vector<double>>]. *)
Abbreviation NeighborBuf := (list (list nat)) (only parsing).
Abbreviation DistanceBuf Dist := (list (list Dist)) (only parsing).

(** Addresses of objects created with [new]. *)
Abbreviation addr := nat (only parsing).

(** [double] with its comparison [<=]. *)
Class Scalar (Dist : Type) := { Dleb : Dist → Dist → bool }.

(** [a < b] on a totally ordered scalar. *)
Definition Dltb {Dist} `{!Scalar Dist} (a b : Dist) : bool := negb (Dleb b a).

(** [MetricType]: the only member used is [Evaluate]. *)
Class MetricType (Point Dist : Type) := { Evaluate : Point → Point → Dist }.

(** Modelled from the spec: [math::Range], the closed interval [lo, hi]
    with its membership test (section 3, Range). *)
Record Range (Dist : Type) := { lo : Dist; hi : Dist }.
Arguments lo {Dist} _.
Arguments hi {Dist} _.

Definition Contains {Dist} `{!Scalar Dist} (range : Range Dist) (d : Dist) : bool :=
  Dleb (lo range) d && Dleb d (hi range).

(** Modelled from the spec: a tree node holds a bounding region, a
    contiguous sub-range [begin, begin + count) of the tree's point set and
    zero or two children; only leaves are visited for base cases
    (section 3, Tree Node, and section 6). *)
Inductive Node (Bound : Type) : Type :=
| Leaf (bound : Bound) (begin count : nat)
| Inner (bound : Bound) (begin count : nat) (child0 child1 : Node Bound).
Arguments Leaf {Bound} _ _ _.
Arguments Inner {Bound} _ _ _ _ _.

Definition NodeBound {Bound} (n : Node Bound) : Bound :=
  match n with Leaf b _ _ => b | Inner b _ _ _ _ => b end.

(** The tree object: its root and the point set it exposes through
    [Dataset()]. *)
Record Tree (Point Bound : Type) := { root : Node Bound; Dataset : Mat Point }.
Arguments root {Point Bound} _.
Arguments Dataset {Point Bound} _.

(** What [new TreeType(dataset, oldFromNew)] leaves behind: the tree, the
    filled [oldFromNew], and the contents of the matrix that was passed by
    non-const reference. *)
Record Built (Point Bound : Type) := {
  built_tree : Tree Point Bound;
  built_oldFromNew : list nat;
  built_dataset : Mat Point
}.
Arguments built_tree {Point Bound} _.
Arguments built_oldFromNew {Point Bound} _.
Arguments built_dataset {Point Bound} _.

(** The [TreeType] template parameter, as far as [RangeSearch] uses it:
    the [TreeTraits<Tree>::RearrangesDataset] trait, the two constructors
    chosen by [BuildTree], and the distance bounds of a node. *)
Class TreeType (Point Dist : Type) := {
  Bound : Type;
  RearrangesDataset : bool;
  TreeCtorMapping : Mat Point → Built Point Bound;
  TreeCtor : Mat Point → Tree Point Bound;
  MinDistancePoint : Bound → Point → Dist;
  MaxDistancePoint : Bound → Point → Dist;
  MinDistanceNode : Bound → Bound → Dist;
  MaxDistanceNode : Bound → Bound → Dist
}.

(** The data members of [RangeSearch]; [metric] is the [MetricType]
    instance.  [referenceSet] is a const reference in the source: it is bound
    either to the caller's matrix or to the tree's dataset, neither of which
    is written after construction. *)
Record RangeSearch (Point : Type) := {
  oldFromNewReferences : list nat;
  referenceTree : option addr;
  referenceSet : Mat Point;
  treeOwner : bool;
  naive : bool;
  singleMode : bool
}.
Arguments oldFromNewReferences {Point} _.
Arguments referenceTree {Point} _.
Arguments referenceSet {Point} _.
Arguments treeOwner {Point} _.
Arguments naive {Point} _.
Arguments singleMode {Point} _.

(** ** Memory, outcomes and the monad of member functions *)

(** The memory a call can touch: the trees created with [new], the caller's
    two output buffers, and the two temporary buffers that [neighborPtr] and
    [distancePtr] may point to ([None]: not allocated). *)
Record Mem (Point Dist Bound : Type) := {
  trees : gmap addr (Tree Point Bound);
  neighbors : NeighborBuf;
  distances : DistanceBuf Dist;
  tmpNeighbors : option NeighborBuf;
  tmpDistances : option (DistanceBuf Dist)
}.
Arguments trees {Point Dist Bound} _.
Arguments neighbors {Point Dist Bound} _.
Arguments distances {Point Dist Bound} _.
Arguments tmpNeighbors {Point Dist Bound} _.
Arguments tmpDistances {Point Dist Bound} _.

(** Where [neighborPtr] or [distancePtr] points: at the caller's buffer or
    at the vector obtained from [new]. *)
Inductive BufPtr := CallerBuf | TempBuf.

(** Behaviour the C++ standard leaves undefined. *)
Inductive UB :=
| InvalidDelete     (* delete of an object that was not created with new *)
| DanglingPointer   (* use of a null or deleted pointer *)
| OutOfBounds.      (* operator[] or column access past the end *)

(** [std::invalid_argument]. *)
Inductive Exn := invalid_argument.

(** How a call ends, with the memory at that point. *)
Inductive Outcome (S A : Type) : Type :=
| Returned (a : A) (s : S)
| Throws (e : Exn) (s : S)
| Undefined (u : UB) (s : S).
Arguments Returned {S A} _ _.
Arguments Throws {S A} _ _.
Arguments Undefined {S A} _ _.

Definition M (S A : Type) : Type := S → Outcome S A.

Global Instance M_ret {S} : MRet (M S) := λ A (a : A) s, Returned a s.

Global Instance M_bind {S} : MBind (M S) := λ A B (f : A → M S B) (c : M S A) s,
  match c s with
  | Returned a s' => f a s'
  | Throws e s' => Throws e s'
  | Undefined u s' => Undefined u s'
  end.

Definition throw {S A} (e : Exn) : M S A := λ s, Throws e s.
Definition undefined {S A} (u : UB) : M S A := λ s, Undefined u s.
Definition gets {S A} (f : S → A) : M S A := λ s, Returned (f s) s.
Definition modify {S} (f : S → S) : M S unit := λ s, Returned tt (f s).

(** [v[i]]. *)
Definition vget {S A} (v : list A) (i : nat) : M S A :=
  match v !! i with Some x => mret x | None => undefined OutOfBounds end.

(** [for (size_t i = ...; ...; ++i) body], over the indices in [l]. *)
Fixpoint for_ {S} (l : list nat) (body : nat → M S unit) : M S unit :=
  match l with
  | [] => mret tt
  | i :: l' => body i ;; for_ l' body
  end.

Section Model.
Context {Point Dist : Type}.
Context `{!Scalar Dist, !MetricType Point Dist, !TreeType Point Dist}.

Abbreviation Mem' := (Mem Point Dist Bound).
Abbreviation OutBufs := (NeighborBuf * DistanceBuf Dist)%type.

Definition set_trees (f : gmap addr (Tree Point Bound) → gmap addr (Tree Point Bound))
  (m : Mem') : Mem' :=
  {| trees := f (trees m); neighbors := neighbors m; distances := distances m;
     tmpNeighbors := tmpNeighbors m; tmpDistances := tmpDistances m |}.
Definition set_neighbors (v : NeighborBuf) (m : Mem') : Mem' :=
  {| trees := trees m; neighbors := v; distances := distances m;
     tmpNeighbors := tmpNeighbors m; tmpDistances := tmpDistances m |}.
Definition set_distances (v : DistanceBuf Dist) (m : Mem') : Mem' :=
  {| trees := trees m; neighbors := neighbors m; distances := v;
     tmpNeighbors := tmpNeighbors m; tmpDistances := tmpDistances m |}.
Definition set_tmpNeighbors (v : option NeighborBuf) (m : Mem') : Mem' :=
  {| trees := trees m; neighbors := neighbors m; distances := distances m;
     tmpNeighbors := v; tmpDistances := tmpDistances m |}.
Definition set_tmpDistances (v : option (DistanceBuf Dist)) (m : Mem') : Mem' :=
  {| trees := trees m; neighbors := neighbors m; distances := distances m;
     tmpNeighbors := tmpNeighbors m; tmpDistances := v |}.

(** *** Trees on the heap *)

(** [new TreeType(...)]: the object gets an address not in use. *)
Definition new_tree (t : Tree Point Bound) : M Mem' addr := λ m,
  let a := fresh (dom (trees m)) in
  Returned a (set_trees (insert a t) m).

(** Dereferencing a tree pointer. *)
Definition deref_tree (p : option addr) : M Mem' (Tree Point Bound) := λ m,
  match p ≫= (trees m !!.) with
  | Some t => Returned t m
  | None => Undefined DanglingPointer m
  end.

(** [delete p] for a non-null tree pointer. *)
Definition delete_tree (a : addr) : M Mem' unit := λ m,
  match trees m !! a with
  | Some _ => Returned tt (set_trees (delete a) m)
  | None => Undefined InvalidDelete m
  end.

(** *** The two buffer pointers *)

(** [new std::vector<std::vector<size_t>>]. *)
Definition new_neighbors : M Mem' BufPtr :=
  modify (set_tmpNeighbors (Some [])) ;; mret TempBuf.
(** [new std::vector<std::vector<double>>]. *)
Definition new_distances : M Mem' BufPtr :=
  modify (set_tmpDistances (Some [])) ;; mret TempBuf.

(** [neighborPtr], dereferenced and read. *)
Definition derefN (p : BufPtr) : M Mem' NeighborBuf := λ m,
  match p with
  | CallerBuf => Returned (neighbors m) m
  | TempBuf =>
      match tmpNeighbors m with
      | Some v => Returned v m
      | None => Undefined DanglingPointer m
      end
  end.
(** [distancePtr], dereferenced and read. *)
Definition derefD (p : BufPtr) : M Mem' (DistanceBuf Dist) := λ m,
  match p with
  | CallerBuf => Returned (distances m) m
  | TempBuf =>
      match tmpDistances m with
      | Some v => Returned v m
      | None => Undefined DanglingPointer m
      end
  end.

(** [neighborPtr], dereferenced and written as a whole. *)
Definition assignN (p : BufPtr) (v : NeighborBuf) : M Mem' unit :=
  _ ← derefN p;
  match p with
  | CallerBuf => modify (set_neighbors v)
  | TempBuf => modify (set_tmpNeighbors (Some v))
  end.
(** [distancePtr], dereferenced and written as a whole. *)
Definition assignD (p : BufPtr) (v : DistanceBuf Dist) : M Mem' unit :=
  _ ← derefD p;
  match p with
  | CallerBuf => modify (set_distances v)
  | TempBuf => modify (set_tmpDistances (Some v))
  end.

(** [delete neighborPtr]: defined only for the vector obtained from [new]. *)
Definition deleteN (p : BufPtr) : M Mem' unit :=
  match p with
  | CallerBuf => undefined InvalidDelete
  | TempBuf => _ ← derefN TempBuf; modify (set_tmpNeighbors None)
  end.
(** [delete distancePtr]. *)
Definition deleteD (p : BufPtr) : M Mem' unit :=
  match p with
  | CallerBuf => undefined InvalidDelete
  | TempBuf => _ ← derefD TempBuf; modify (set_tmpDistances None)
  end.

(** [p->clear(); p->resize(n)]: [n] empty inner vectors. *)
Definition clear_resizeN (p : BufPtr) (n : nat) : M Mem' unit :=
  assignN p [] ;; assignN p (replicate n []).
Definition clear_resizeD (p : BufPtr) (n : nat) : M Mem' unit :=
  assignD p [] ;; assignD p (replicate n []).

(** [distances[q] = col]. *)
Definition store_distances (q : nat) (col : list Dist) : M Mem' unit :=
  ds ← gets distances;
  _ ← vget ds q;
  modify (set_distances (<[q := col]> ds)).
(** [neighbors[q] = row]. *)
Definition store_neighbors (q : nat) (row : list nat) : M Mem' unit :=
  ns ← gets neighbors;
  _ ← vget ns q;
  modify (set_neighbors (<[q := row]> ns)).
(** [neighbors[q].resize(sz)]. *)
Definition resize_neighbors (q sz : nat) : M Mem' unit :=
  ns ← gets neighbors;
  row ← vget ns q;
  modify (set_neighbors (<[q := resize sz 0 row]> ns)).
(** [neighbors[q][j] = v]. *)
Definition store_neighbor (q j v : nat) : M Mem' unit :=
  ns ← gets neighbors;
  row ← vget ns q;
  _ ← vget row j;
  modify (set_neighbors (<[q := <[j := v]> row]> ns)).
(** [distances[q].size()] and [neighbors[q].size()]. *)
Definition size_distances (q : nat) : M Mem' nat :=
  ds ← gets distances; col ← vget ds q; mret (length col).
Definition size_neighbors (q : nat) : M Mem' nat :=
  ns ← gets neighbors; row ← vget ns q; mret (length row).

(** *** The rule object *)

(** Modelled from the spec: the [RangeSearchRules] object is built from the
    reference set, the query set, the range, references to the two output
    buffers, the metric and the self-exclusion flag (section 4.2). *)
Record Rules := {
  r_referenceSet : Mat Point;
  r_querySet : Mat Point;
  r_range : Range Dist;
  r_sameSet : bool
}.

(** Modelled from the spec: [RangeSearchRules::BaseCase].  It computes the
    distance; with self-exclusion active and equal indices it skips;
    otherwise a distance within the range appends the reference index and
    the distance to the query's two result vectors (section 4.2, Rule, base
    case). *)
Definition BaseCase (rules : Rules) (queryIndex referenceIndex : nat)
  (out : OutBufs) : option OutBufs :=
  q ← r_querySet rules !! queryIndex;
  p ← r_referenceSet rules !! referenceIndex;
  let distance := Evaluate q p in
  if r_sameSet rules && bool_decide (queryIndex = referenceIndex) then Some out
  else if Contains (r_range rules) distance then
    ns ← out.1 !! queryIndex;
    ds ← out.2 !! queryIndex;
    Some (<[queryIndex := ns ++ [referenceIndex]]> out.1,
          <[queryIndex := ds ++ [distance]]> out.2)
  else Some out.

(** Modelled from the spec: node pruning.  A node (or node pair) whose
    distance range lies entirely outside the search range, [max < lo] or
    [min > hi], is pruned (section 4.2, Rule, node pruning). *)
Definition Prune (range : Range Dist) (minD maxD : Dist) : bool :=
  Dltb maxD (lo range) || Dltb (hi range) minD.

(** Base cases in sequence. *)
Fixpoint BaseCases (rules : Rules) (pairs : list (nat * nat)) (out : OutBufs)
  : option OutBufs :=
  match pairs with
  | [] => Some out
  | (i, j) :: pairs' => out' ← BaseCase rules i j out; BaseCases rules pairs' out'
  end.

(** The points a leaf holds. *)
Definition LeafPoints (begin count : nat) : list nat := seq begin count.

(** Modelled from the spec: the single-tree traverser.  From the given node
    it prunes, or visits the points of a leaf as base cases, or recurses
    into both children (section 4.2, Single-tree). *)
Fixpoint SingleTraverse (rules : Rules) (queryIndex : nat) (node : Node Bound)
  (out : OutBufs) : option OutBufs :=
  q ← r_querySet rules !! queryIndex;
  if Prune (r_range rules) (MinDistancePoint (NodeBound node) q)
           (MaxDistancePoint (NodeBound node) q)
  then Some out
  else match node with
       | Leaf _ begin count =>
           BaseCases rules ((λ j, (queryIndex, j)) <$> LeafPoints begin count) out
       | Inner _ _ _ c0 c1 =>
           out' ← SingleTraverse rules queryIndex c0 out;
           SingleTraverse rules queryIndex c1 out'
       end.

(** Modelled from the spec: the dual-tree traverser.  At a pair of nodes it
    prunes, or evaluates the points of two leaves as base cases, or recurses
    into the children of whichever node has some (section 4.2, Dual-tree). *)
Fixpoint DualTraverse (rules : Rules) (queryNode : Node Bound)
  : Node Bound → OutBufs → option OutBufs :=
  fix against (referenceNode : Node Bound) (out : OutBufs) : option OutBufs :=
    if Prune (r_range rules)
             (MinDistanceNode (NodeBound queryNode) (NodeBound referenceNode))
             (MaxDistanceNode (NodeBound queryNode) (NodeBound referenceNode))
    then Some out
    else match queryNode, referenceNode with
         | Leaf _ qb qc, Leaf _ rb rc =>
             BaseCases rules
               (i ← LeafPoints qb qc; (λ j, (i, j)) <$> LeafPoints rb rc) out
         | Leaf _ _ _, Inner _ _ _ r0 r1 =>
             out' ← against r0 out; against r1 out'
         | Inner _ _ _ q0 q1, Leaf _ _ _ =>
             out' ← DualTraverse rules q0 referenceNode out;
             DualTraverse rules q1 referenceNode out'
         | Inner _ _ _ q0 q1, Inner _ _ _ r0 r1 =>
             out1 ← DualTraverse rules q0 r0 out;
             out2 ← DualTraverse rules q0 r1 out1;
             out3 ← DualTraverse rules q1 r0 out2;
             DualTraverse rules q1 r1 out3
         end.

(** A member call on the rule object or on a traverser built from it: it
    works on the buffers its two references are bound to. *)
Definition with_rules (neighborPtr distancePtr : BufPtr)
  (call : OutBufs → option OutBufs) : M Mem' unit :=
  ns ← derefN neighborPtr;
  ds ← derefD distancePtr;
  match call (ns, ds) with
  | Some out => assignN neighborPtr out.1 ;; assignD distancePtr out.2
  | None => undefined OutOfBounds
  end.

(** ** The orchestrator *)

(** [BuildTree<Tree>]: the overload is chosen by the trait.  The mapping
    constructor receives the matrix by non-const reference and fills
    [oldFromNew]; the other one receives it by const reference and leaves
    [oldFromNew] alone.  The result is the new tree's address, [oldFromNew]
    and the matrix after the call. *)
Definition BuildTree (dataset : Mat Point) (oldFromNew : list nat)
  : M Mem' (addr * list nat * Mat Point) :=
  if RearrangesDataset then
    let b := TreeCtorMapping dataset in
    a ← new_tree (built_tree b);
    mret (a, built_oldFromNew b, built_dataset b)
  else
    a ← new_tree (TreeCtor dataset);
    mret (a, oldFromNew, dataset).

(** [RangeSearch(referenceSetIn, naive, singleMode, metric)].  Returns the
    object and the caller's matrix as the call leaves it. *)
Definition RangeSearch_raw (referenceSetIn : Mat Point) (naive singleMode : bool)
  : M Mem' (RangeSearch Point * Mat Point) :=
  '(referenceTree, oldFromNewReferences, referenceSetIn) ←
    (if naive then mret (None, [], referenceSetIn)
     else '(a, oldFromNew, dataset) ← BuildTree referenceSetIn [];
          mret (Some a, oldFromNew, dataset));
  referenceSet ←
    (if naive then mret referenceSetIn
     else t ← deref_tree referenceTree; mret (Dataset t));
  mret ({| oldFromNewReferences := oldFromNewReferences;
           referenceTree := referenceTree;
           referenceSet := referenceSet;
           treeOwner := negb naive;
           naive := naive;
           singleMode := negb naive && singleMode |},
        referenceSetIn).

(** [RangeSearch(referenceTree, singleMode, metric)]. *)
Definition RangeSearch_tree (referenceTree : option addr) (singleMode : bool)
  : M Mem' (RangeSearch Point) :=
  t ← deref_tree referenceTree;
  mret {| oldFromNewReferences := [];
          referenceTree := referenceTree;
          referenceSet := Dataset t;
          treeOwner := false;
          naive := false;
          singleMode := singleMode |}.

(** [~RangeSearch()]. *)
Definition RangeSearch_dtor (rs : RangeSearch Point) : M Mem' unit :=
  if treeOwner rs then
    match referenceTree rs with
    | Some a => delete_tree a
    | None => mret tt
    end
  else mret tt.

(** The brute-force loops: [rules.BaseCase(i, j)] for every pair. *)
Definition naive_loops (neighborPtr distancePtr : BufPtr) (rules : Rules)
  (queries references : nat) : M Mem' unit :=
  for_ (seq 0 queries) (λ i,
    for_ (seq 0 references) (λ j,
      with_rules neighborPtr distancePtr (BaseCase rules i j))).

(** The single-tree loop: [traverser.Traverse(i, *referenceTree)] for every
    query point. *)
Definition single_loop (neighborPtr distancePtr : BufPtr) (rules : Rules)
  (referenceTree : option addr) (queries : nat) : M Mem' unit :=
  for_ (seq 0 queries) (λ i,
    t ← deref_tree referenceTree;
    with_rules neighborPtr distancePtr (SingleTraverse rules i (root t))).

(** [neighbors[q][j] = oldFromNew[neighborPtr->at(i)[j]]] for [j < sz]. *)
Definition map_neighbors (neighborPtr : BufPtr) (oldFromNew : list nat)
  (q i sz : nat) : M Mem' unit :=
  for_ (seq 0 sz) (λ j,
    tmp ← derefN neighborPtr;
    row ← vget tmp i;
    r ← vget row j;
    v ← vget oldFromNew r;
    store_neighbor q j v).

(** "We must map both query and reference indices": the caller's buffers
    are cleared and resized, every column of the temporaries is moved to
    its mapped position, and both temporaries are deleted. *)
Definition remap_both (neighborPtr distancePtr : BufPtr)
  (oldFromNewQueries oldFromNewReferences : list nat) (n_cols : nat) : M Mem' unit :=
  clear_resizeN CallerBuf n_cols ;;
  clear_resizeD CallerBuf n_cols ;;
  sz ← gets (λ m, length (distances m));
  for_ (seq 0 sz) (λ i,
    queryMapping ← vget oldFromNewQueries i;
    tmp ← derefD distancePtr;
    col ← vget tmp i;
    store_distances queryMapping col ;;
    k ← size_distances queryMapping;
    resize_neighbors queryMapping k ;;
    map_neighbors neighborPtr oldFromNewReferences queryMapping i k) ;;
  deleteN neighborPtr ;;
  deleteD distancePtr.

(** "We must map query indices only". *)
Definition remap_queries (neighborPtr distancePtr : BufPtr)
  (oldFromNewQueries : list nat) (n_cols : nat) : M Mem' unit :=
  clear_resizeN CallerBuf n_cols ;;
  clear_resizeD CallerBuf n_cols ;;
  sz ← gets (λ m, length (distances m));
  for_ (seq 0 sz) (λ i,
    queryMapping ← vget oldFromNewQueries i;
    tmp ← derefD distancePtr;
    col ← vget tmp i;
    store_distances queryMapping col ;;
    tmp' ← derefN neighborPtr;
    row ← vget tmp' i;
    store_neighbors queryMapping row) ;;
  deleteN neighborPtr ;;
  deleteD distancePtr.

(** "We must map reference indices only". *)
Definition remap_references (neighborPtr : BufPtr)
  (oldFromNewReferences : list nat) (n_cols : nat) : M Mem' unit :=
  clear_resizeN CallerBuf n_cols ;;
  sz ← gets (λ m, length (neighbors m));
  for_ (seq 0 sz) (λ i,
    tmp ← derefN neighborPtr;
    row ← vget tmp i;
    resize_neighbors i (length row) ;;
    k ← size_neighbors i;
    map_neighbors neighborPtr oldFromNewReferences i i k) ;;
  deleteN neighborPtr.

(** [Search(querySet, range, neighbors, distances)].  Returns the caller's
    query matrix as the call leaves it. *)
Definition Search (rs : RangeSearch Point) (querySet : Mat Point)
  (range : Range Dist) : M Mem' (Mat Point) :=
  let oldFromNewQueries : list nat := [] in
  distancePtr ←
    (if RearrangesDataset && (negb (singleMode rs) && negb (naive rs))
     then new_distances else mret CallerBuf);
  neighborPtr ←
    (if RearrangesDataset && treeOwner rs
     then new_neighbors else mret CallerBuf);
  clear_resizeN neighborPtr (length querySet) ;;
  clear_resizeD distancePtr (length querySet) ;;
  '(oldFromNewQueries, querySet) ←
    (if naive rs then
       let rules := {| r_referenceSet := referenceSet rs; r_querySet := querySet;
                       r_range := range; r_sameSet := false |} in
       naive_loops neighborPtr distancePtr rules
         (length querySet) (length (referenceSet rs)) ;;
       mret (oldFromNewQueries, querySet)
     else if singleMode rs then
       let rules := {| r_referenceSet := referenceSet rs; r_querySet := querySet;
                       r_range := range; r_sameSet := false |} in
       single_loop neighborPtr distancePtr rules (referenceTree rs)
         (length querySet) ;;
       mret (oldFromNewQueries, querySet)
     else
       '(queryTree, oldFromNewQueries, querySet) ←
         BuildTree querySet oldFromNewQueries;
       qt ← deref_tree (Some queryTree);
       let rules := {| r_referenceSet := referenceSet rs; r_querySet := Dataset qt;
                       r_range := range; r_sameSet := false |} in
       rt ← deref_tree (referenceTree rs);
       with_rules neighborPtr distancePtr (DualTraverse rules (root qt) (root rt)) ;;
       delete_tree queryTree ;;
       mret (oldFromNewQueries, querySet)) ;
  (if RearrangesDataset then
     if negb (singleMode rs) && negb (naive rs) && treeOwner rs then
       remap_both neighborPtr distancePtr
         oldFromNewQueries (oldFromNewReferences rs) (length querySet)
     else if negb (singleMode rs) && negb (naive rs) then
       remap_queries neighborPtr distancePtr oldFromNewQueries (length querySet)
     else if treeOwner rs then
       remap_references neighborPtr (oldFromNewReferences rs) (length querySet)
     else mret tt
   else mret tt) ;;
  mret querySet.

(** [Search(queryTree, range, neighbors, distances)]. *)
Definition Search_tree (rs : RangeSearch Point) (queryTree : option addr)
  (range : Range Dist) : M Mem' unit :=
  qt ← deref_tree queryTree;
  let querySet := Dataset qt in
  if singleMode rs || naive rs then throw invalid_argument
  else
    neighborPtr ←
      (if treeOwner rs && RearrangesDataset then new_neighbors else mret CallerBuf);
    clear_resizeN neighborPtr (length querySet) ;;
    clear_resizeD CallerBuf (length querySet) ;;
    let rules := {| r_referenceSet := referenceSet rs; r_querySet := Dataset qt;
                    r_range := range; r_sameSet := false |} in
    rt ← deref_tree (referenceTree rs);
    with_rules neighborPtr CallerBuf (DualTraverse rules (root qt) (root rt)) ;;
    if treeOwner rs && RearrangesDataset then
      remap_references neighborPtr (oldFromNewReferences rs) (length querySet)
    else mret tt.

(** [Search(range, neighbors, distances)]: the reference set is the query
    set. *)
Definition Search_self (rs : RangeSearch Point) (range : Range Dist) : M Mem' unit :=
  '(neighborPtr, distancePtr) ←
    (if RearrangesDataset && treeOwner rs then
       distancePtr ← new_distances;
       neighborPtr ← new_neighbors;
       mret (neighborPtr, distancePtr)
     else mret (CallerBuf, CallerBuf));
  clear_resizeN neighborPtr (length (referenceSet rs)) ;;
  clear_resizeD distancePtr (length (referenceSet rs)) ;;
  let rules := {| r_referenceSet := referenceSet rs; r_querySet := referenceSet rs;
                  r_range := range; r_sameSet := true |} in
  (if naive rs then
     naive_loops neighborPtr distancePtr rules
       (length (referenceSet rs)) (length (referenceSet rs))
   else if singleMode rs then
     single_loop neighborPtr distancePtr rules (referenceTree rs)
       (length (referenceSet rs))
   else
     rt ← deref_tree (referenceTree rs);
     with_rules neighborPtr distancePtr (DualTraverse rules (root rt) (root rt))) ;;
  if treeOwner rs && RearrangesDataset then
    remap_both neighborPtr distancePtr
      (oldFromNewReferences rs) (oldFromNewReferences rs) (length (referenceSet rs))
  else mret tt.

End Model.

(** ** A concrete instance: points on the integer line

    Points and distances are integers, the metric is [|a - b|], a bounding
    region is an interval.  One tree type sorts a copy of the points when it
    is built and records the permutation, one sorts the very matrix it is
    given, and one builds over the points as they are. *)
Module Line.

Global Instance scalar : Scalar Z := {| Dleb := Z.leb |}.
Global Instance metric : MetricType Z Z := {| Evaluate a b := Z.abs (a - b) |}.

(** Insertion of an indexed point into a list sorted by coordinate. *)
Fixpoint insert_sorted (x : nat * Z) (l : list (nat * Z)) : list (nat * Z) :=
  match l with
  | [] => [x]
  | y :: l' => if (x.2 <=? y.2)%Z then x :: l else y :: insert_sorted x l'
  end.

Definition sort_indexed (data : list Z) : list (nat * Z) :=
  foldr insert_sorted [] (zip (seq 0 (length data)) data).

(** The interval spanned by the points [begin, begin + count). *)
Definition span (data : list Z) (begin count : nat) : Z * Z :=
  match take count (drop begin data) with
  | [] => (0, 0)%Z
  | x :: l => (foldr Z.min x l, foldr Z.max x l)
  end.

(** Halve the range until at most [leafSize] points remain. *)
Fixpoint split (fuel : nat) (data : list Z) (begin count : nat) : Node (Z * Z) :=
  match fuel with
  | 0 => Leaf (span data begin count) begin count
  | S fuel' =>
      if count <=? 1 then Leaf (span data begin count) begin count
      else
        let half := count / 2 in
        Inner (span data begin count) begin count
          (split fuel' data begin half)
          (split fuel' data (begin + half) (count - half))
  end.

Definition build_in_place (data : list Z) : Tree Z (Z * Z) :=
  {| root := split (length data) data 0 (length data); Dataset := data |}.

Definition build_sorted (data : list Z) : Built Z (Z * Z) :=
  let sorted := sort_indexed data in
  {| built_tree := build_in_place (sorted.*2);
     built_oldFromNew := sorted.*1;
     built_dataset := data |}.

Definition min_point (b : Z * Z) (q : Z) : Z :=
  if (q <? b.1)%Z then (b.1 - q)%Z else if (b.2 <? q)%Z then (q - b.2)%Z else 0%Z.
Definition max_point (b : Z * Z) (q : Z) : Z :=
  Z.max (Z.abs (q - b.1)) (Z.abs (q - b.2)).
Definition min_node (a b : Z * Z) : Z :=
  if (a.2 <? b.1)%Z then (b.1 - a.2)%Z else if (b.2 <? a.1)%Z then (a.1 - b.2)%Z else 0%Z.
Definition max_node (a b : Z * Z) : Z :=
  Z.max (Z.abs (b.2 - a.1)) (Z.abs (a.2 - b.1)).

(** The tree type that rearranges its dataset. *)
Definition sorting_tree : TreeType Z Z :=
  {| Bound := Z * Z;
     RearrangesDataset := true;
     TreeCtorMapping := build_sorted;
     TreeCtor := build_in_place;
     MinDistancePoint := min_point;
     MaxDistancePoint := max_point;
     MinDistanceNode := min_node;
     MaxDistanceNode := max_node |}.

(** The tree type that leaves the points where they are. *)
Definition in_place_tree : TreeType Z Z :=
  {| Bound := Z * Z;
     RearrangesDataset := false;
     TreeCtorMapping := build_sorted;
     TreeCtor := build_in_place;
     MinDistancePoint := min_point;
     MaxDistancePoint := max_point;
     MinDistanceNode := min_node;
     MaxDistanceNode := max_node |}.

Definition references : list Z := [7; 0; 3; 12; 4]%Z.
Definition queries : list Z := [10; 1]%Z.
Definition range26 : Range Z := {| lo := 2%Z; hi := 6%Z |}.

(** A memory with nothing allocated and stale contents in the caller's
    buffers. *)
Definition mem0 : Mem Z Z (Z * Z) :=
  {| trees := ∅; neighbors := [[9]; []; [8; 8]]; distances := [[1%Z]];
     tmpNeighbors := None; tmpDistances := None |}.

(** The tree over [references] as the sorting constructor builds it, a
    memory that holds it at address 0, an object that owns it and an object
    that borrows it, both in dual-tree mode. *)
Definition reference_tree : Tree Z (Z * Z) := built_tree (build_sorted references).
Definition mem1 : Mem Z Z (Z * Z) :=
  {| trees := {[ 0 := reference_tree ]}; neighbors := [[9]; []; [8; 8]];
     distances := [[1%Z]]; tmpNeighbors := None; tmpDistances := None |}.
Definition owner : RangeSearch Z :=
  {| oldFromNewReferences := built_oldFromNew (build_sorted references);
     referenceTree := Some 0; referenceSet := Dataset reference_tree;
     treeOwner := true; naive := false; singleMode := false |}.
Definition borrower : RangeSearch Z :=
  {| oldFromNewReferences := []; referenceTree := Some 0;
     referenceSet := Dataset reference_tree;
     treeOwner := false; naive := false; singleMode := false |}.
Definition naive_searcher : RangeSearch Z :=
  {| oldFromNewReferences := []; referenceTree := None;
     referenceSet := references;
     treeOwner := false; naive := true; singleMode := false |}.
Definition range05 : Range Z := {| lo := 0%Z; hi := 5%Z |}.
Definition range62 : Range Z := {| lo := 6%Z; hi := 2%Z |}.

(** The tree over [queries] as the sorting constructor builds it, and a
    memory that holds it at address 1 beside the reference tree. *)
Definition query_tree : Tree Z (Z * Z) := built_tree (build_sorted queries).
Definition mem2 : Mem Z Z (Z * Z) :=
  {| trees := <[1 := query_tree]> {[ 0 := reference_tree ]};
     neighbors := [[9]; []; [8; 8]]; distances := [[1%Z]];
     tmpNeighbors := None; tmpDistances := None |}.

(** The memory the owner's dual-tree search of [queries] leaves. *)
Definition found : Mem Z Z (Z * Z) :=
  match Search (TreeType0 := sorting_tree) owner queries range26 mem1 with
  | Returned _ m => m
  | _ => mem1
  end.

(** A memory in which both temporaries hold the rows of two query points,
    and the two mappings to undo. *)
Definition mem3 : Mem Z Z (Z * Z) :=
  {| trees := ∅; neighbors := [[9]]; distances := [];
     tmpNeighbors := Some [[0; 2]; [1]];
     tmpDistances := Some [[5; 6]; [7]]%Z |}.
Definition query_mapping : list nat := [1; 0].
Definition reference_mapping : list nat := [2; 0; 1].

(** An object in single-tree mode on the borrowed reference tree. *)
Definition single_borrower : RangeSearch Z :=
  {| oldFromNewReferences := []; referenceTree := Some 0;
     referenceSet := Dataset reference_tree;
     treeOwner := false; naive := false; singleMode := true |}.

(** The mapping constructor of a tree type that sorts the matrix it is
    given where it stands: the tree and the permutation are those of
    [build_sorted], and the matrix that was passed is left sorted. *)
Definition build_reordering (data : list Z) : Built Z (Z * Z) :=
  let sorted := sort_indexed data in
  {| built_tree := build_in_place (sorted.*2);
     built_oldFromNew := sorted.*1;
     built_dataset := sorted.*2 |}.

(** The tree type that rearranges the very matrix it is built from. *)
Definition reordering_tree : TreeType Z Z :=
  {| Bound := Z * Z;
     RearrangesDataset := true;
     TreeCtorMapping := build_reordering;
     TreeCtor := build_in_place;
     MinDistancePoint := min_point;
     MaxDistancePoint := max_point;
     MinDistanceNode := min_node;
     MaxDistanceNode := max_node |}.

End Line.

(** ** Specification vocabulary *)

Section Specification.
Context {Point Dist : Type}.
Context `{!Scalar Dist, !MetricType Point Dist, !TreeType Point Dist}.

Abbreviation Mem' := (Mem Point Dist Bound).
Abbreviation OutBufs := (NeighborBuf * DistanceBuf Dist)%type.
Abbreviation Rules' := (@Rules Point Dist).

(** The buffer a pointer designates, read and written. *)
Definition readN (p : BufPtr) (m : Mem') : option NeighborBuf :=
  match p with CallerBuf => Some (neighbors m) | TempBuf => tmpNeighbors m end.
Definition readD (p : BufPtr) (m : Mem') : option (DistanceBuf Dist) :=
  match p with CallerBuf => Some (distances m) | TempBuf => tmpDistances m end.
Definition writeN (p : BufPtr) (v : NeighborBuf) (m : Mem') : Mem' :=
  match p with CallerBuf => set_neighbors v m | TempBuf => set_tmpNeighbors (Some v) m end.
Definition writeD (p : BufPtr) (v : DistanceBuf Dist) (m : Mem') : Mem' :=
  match p with CallerBuf => set_distances v m | TempBuf => set_tmpDistances (Some v) m end.
Definition writeOut (np dp : BufPtr) (out : OutBufs) (m : Mem') : Mem' :=
  writeD dp out.2 (writeN np out.1 m).

(** Freshly cleared and resized buffers. *)
Definition init (n : nat) : OutBufs := (replicate n [], replicate n []).

(** Reference point [j] is a result of query point [i] at distance [d]. *)
Definition Hit (R Q : Mat Point) (range : Range Dist) (same : bool)
  (i j : nat) (d : Dist) : Prop :=
  ∃ q p, Q !! i = Some q ∧ R !! j = Some p ∧ d = Evaluate q p ∧
         Contains range d = true ∧ same && bool_decide (i = j) = false.

(** One result vector per query point; at every position the index and
    the distance belong to the same result. *)
Definition Result (R Q : Mat Point) (range : Range Dist) (same : bool)
  (out : OutBufs) : Prop :=
  length out.1 = length Q ∧ length out.2 = length Q ∧
  ∀ i ns ds, out.1 !! i = Some ns → out.2 !! i = Some ds →
             Forall2 (Hit R Q range same i) ns ds.

Definition Found (out : OutBufs) (i j : nat) : Prop :=
  ∃ ns, out.1 !! i = Some ns ∧ j ∈ ns.

(** Every result is reported. *)
Definition Complete (R Q : Mat Point) (range : Range Dist) (same : bool)
  (out : OutBufs) : Prop :=
  ∀ i j d, Hit R Q range same i j d → Found out i j.

Definition HitOf (rules : Rules') :=
  Hit (r_referenceSet rules) (r_querySet rules) (r_range rules) (r_sameSet rules).
Definition ResultOf (rules : Rules') :=
  Result (r_referenceSet rules) (r_querySet rules) (r_range rules) (r_sameSet rules).

(** Index pairs within the two point sets of the rule object. *)
Definition InBounds (rules : Rules') (pairs : list (nat * nat)) : Prop :=
  Forall (λ ij, ij.1 < length (r_querySet rules) ∧
                ij.2 < length (r_referenceSet rules)) pairs.

(** The points below a node. *)
Fixpoint NodePoints (node : Node Bound) : list nat :=
  match node with
  | Leaf _ begin count => LeafPoints begin count
  | Inner _ _ _ c0 c1 => NodePoints c0 ++ NodePoints c1
  end.

(** The reference points a single-tree traversal evaluates for a query
    point. *)
Fixpoint single_visited (range : Range Dist) (q : Point) (node : Node Bound)
  : list nat :=
  if Prune range (MinDistancePoint (NodeBound node) q)
           (MaxDistancePoint (NodeBound node) q)
  then []
  else match node with
       | Leaf _ begin count => LeafPoints begin count
       | Inner _ _ _ c0 c1 => single_visited range q c0 ++ single_visited range q c1
       end.

(** The pairs a dual-tree traversal evaluates. *)
Fixpoint dual_visited (range : Range Dist) (queryNode : Node Bound)
  : Node Bound → list (nat * nat) :=
  fix against (referenceNode : Node Bound) : list (nat * nat) :=
    if Prune range
             (MinDistanceNode (NodeBound queryNode) (NodeBound referenceNode))
             (MaxDistanceNode (NodeBound queryNode) (NodeBound referenceNode))
    then []
    else match queryNode, referenceNode with
         | Leaf _ qb qc, Leaf _ rb rc =>
             i ← LeafPoints qb qc; (λ j, (i, j)) <$> LeafPoints rb rc
         | Leaf _ _ _, Inner _ _ _ r0 r1 => against r0 ++ against r1
         | Inner _ _ _ q0 q1, Leaf _ _ _ =>
             dual_visited range q0 referenceNode ++ dual_visited range q1 referenceNode
         | Inner _ _ _ q0 q1, Inner _ _ _ r0 r1 =>
             dual_visited range q0 r0 ++ dual_visited range q0 r1 ++
             dual_visited range q1 r0 ++ dual_visited range q1 r1
         end.

(** The pairs of the brute-force loops and of the single-tree loop. *)
Definition naive_pairs (queries references : nat) : list (nat * nat) :=
  i ← seq 0 queries; (λ j, (i, j)) <$> seq 0 references.
Definition single_pairs (range : Range Dist) (Q : Mat Point) (node : Node Bound)
  : list (nat * nat) :=
  i ← seq 0 (length Q);
  match Q !! i with
  | Some q => (λ j, (i, j)) <$> single_visited range q node
  | None => []
  end.

(** A computation on the buffers behind two pointers amounts to the given
    sequence of base cases, in every memory whose heap of trees is [tr]. *)
Definition RunsAs (tr : gmap addr (Tree Point Bound)) (np dp : BufPtr)
  (c : M Mem' unit) (rules : Rules') (pairs : list (nat * nat)) : Prop :=
  ∀ m ns ds out,
    trees m = tr → readN np m = Some ns → readD dp m = Some ds →
    BaseCases rules pairs (ns, ds) = Some out →
    c m = Returned tt (writeOut np dp out m).

(** The reference indices of a result vector, translated through
    [oldFromNew]. *)
Definition mapped (oldFromNew : list nat) (ns : list nat) : list nat :=
  (λ r, default 0 (oldFromNew !! r)) <$> ns.

(** Element [val i] stored at position [key i], for every [i] of [l] in
    turn. *)
Definition scatter {A} (key : nat → option nat) (val : nat → option A)
  (l : list nat) (v : list A) : list A :=
  foldl (λ v i, match key i, val i with
                | Some q, Some x => <[q := x]> v
                | _, _ => v
                end) v l.

(** The temporaries are fit for the mapping loops: a row of indices is as
    long as its row of distances and every index has an entry in
    [oldFromNew]. *)
Definition Mappable (oldFromNew : list nat) (tN : NeighborBuf)
  (tD : DistanceBuf Dist) : Prop :=
  ∀ i ns ds, tN !! i = Some ns → tD !! i = Some ds →
             length ns = length ds ∧ Forall (λ r, r < length oldFromNew) ns.

(** *** What is expected of a tree *)

(** The leaves hold exactly the points of the tree's dataset. *)
Definition TreeOK (t : Tree Point Bound) : Prop :=
  Forall (λ j, j < length (Dataset t)) (NodePoints (root t)) ∧
  Forall (λ j, j ∈ NodePoints (root t)) (seq 0 (length (Dataset t))).

(** [oldFromNew] is a bijection on [0, n) and position [k] of the
    rearranged set [D'] holds the point at position [oldFromNew[k]] of the
    original set [D] (section 3, Index Permutation Record). *)
Definition Renamed (oldFromNew : list nat) (D' D : Mat Point) : Prop :=
  Forall2 (λ p o, D !! o = Some p) D' oldFromNew ∧
  NoDup oldFromNew ∧ length oldFromNew = length D.

(** The tree and the mapping [BuildTree] produces for a point set. *)
Definition builtTree (data : Mat Point) : Tree Point Bound :=
  if RearrangesDataset then built_tree (TreeCtorMapping data) else TreeCtor data.
Definition builtMap (data : Mat Point) : list nat :=
  if RearrangesDataset then built_oldFromNew (TreeCtorMapping data) else [].

(** The tree constructor keeps its contract on [data]: the matrix it was
    given is unchanged, the tree is well formed and its dataset is [data],
    rearranged as [oldFromNew] says when the tree type rearranges. *)
Definition BuiltOK (data : Mat Point) : Prop :=
  TreeOK (builtTree data) ∧
  if RearrangesDataset
  then built_dataset (TreeCtorMapping data) = data ∧
       Renamed (builtMap data) (Dataset (builtTree data)) data
  else Dataset (builtTree data) = data.

(** A distance lies between the two bounds of a node. *)
Definition within (minD maxD d : Dist) : bool := Dleb minD d && Dleb d maxD.

(** The point-to-node bounds of every node below [node] hold for the query
    point [q] and the points of [R']. *)
Fixpoint point_bounds (R' : Mat Point) (q : Point) (node : Node Bound) : bool :=
  forallb (λ j, match R' !! j with
                | Some p => within (MinDistancePoint (NodeBound node) q)
                                   (MaxDistancePoint (NodeBound node) q)
                                   (Evaluate q p)
                | None => true
                end) (NodePoints node) &&
  match node with
  | Leaf _ _ _ => true
  | Inner _ _ _ c0 c1 => point_bounds R' q c0 && point_bounds R' q c1
  end.

(** The node-to-node bounds of every pair of nodes a dual traversal can
    reach hold for the points of [Q'] and [R']. *)
Fixpoint node_bounds (Q' R' : Mat Point) (queryNode : Node Bound)
  : Node Bound → bool :=
  fix against (referenceNode : Node Bound) : bool :=
    forallb (λ i, forallb (λ j,
      match Q' !! i, R' !! j with
      | Some q, Some p =>
          within (MinDistanceNode (NodeBound queryNode) (NodeBound referenceNode))
                 (MaxDistanceNode (NodeBound queryNode) (NodeBound referenceNode))
                 (Evaluate q p)
      | _, _ => true
      end) (NodePoints referenceNode)) (NodePoints queryNode) &&
    match queryNode, referenceNode with
    | Leaf _ _ _, Leaf _ _ _ => true
    | Leaf _ _ _, Inner _ _ _ r0 r1 => against r0 && against r1
    | Inner _ _ _ q0 q1, Leaf _ _ _ =>
        node_bounds Q' R' q0 referenceNode && node_bounds Q' R' q1 referenceNode
    | Inner _ _ _ q0 q1, Inner _ _ _ r0 r1 =>
        node_bounds Q' R' q0 r0 && node_bounds Q' R' q0 r1 &&
        node_bounds Q' R' q1 r0 && node_bounds Q' R' q1 r1
    end.

(** [<=] on distances is transitive. *)
Definition DlebTransitive : Prop :=
  ∀ a b c : Dist, Dleb a b = true → Dleb b c = true → Dleb a c = true.

(** *** The orchestrator as its caller sees it *)

(** [RefView tr R rs]: with the trees [tr] on the heap, the object [rs] is
    one of those the constructors make, and the reference points its
    results name are those of [R]: the matrix given to the first
    constructor, or the dataset of the tree given to the second. *)
Inductive RefView (tr : gmap addr (Tree Point Bound)) (R : Mat Point)
  : RangeSearch Point → Prop :=
| view_naive :
    RefView tr R {| oldFromNewReferences := []; referenceTree := None;
                    referenceSet := R; treeOwner := false;
                    naive := true; singleMode := false |}
| view_owned a t ofn single :
    tr !! a = Some t → TreeOK t →
    (if RearrangesDataset then Renamed ofn (Dataset t) R else Dataset t = R) →
    RefView tr R {| oldFromNewReferences := ofn; referenceTree := Some a;
                    referenceSet := Dataset t; treeOwner := true;
                    naive := false; singleMode := single |}
| view_borrowed a t single :
    tr !! a = Some t → TreeOK t → Dataset t = R →
    RefView tr R {| oldFromNewReferences := []; referenceTree := Some a;
                    referenceSet := Dataset t; treeOwner := false;
                    naive := false; singleMode := single |}.

(** The configuration in which the query-only mapping runs: dual-tree
    search on a borrowed reference tree of a type that rearranges. *)
Definition QueryOnlyMapping (rs : RangeSearch Point) : Prop :=
  RearrangesDataset = true ∧ naive rs = false ∧ singleMode rs = false ∧
  treeOwner rs = false.

(** The distance bounds a traversal of the reference tree [t] consults
    are valid: in single-tree mode for the query points [Qs], in dual-tree
    mode for the query tree with points [Qd] and root [qroot]. *)
Definition TraversalBounds (rs : RangeSearch Point) (t : Tree Point Bound)
  (Qs Qd : Mat Point) (qroot : Node Bound) : Prop :=
  DlebTransitive ∧
  if singleMode rs
  then Forall (λ q, point_bounds (Dataset t) q (root t) = true) Qs
  else node_bounds Qd (Dataset t) qroot (root t) = true.

(** The bounds are valid for a search of the raw query set [Q], for a
    search with the query tree [qt], and for a self-search. *)
Definition BoundsOK (tr : gmap addr (Tree Point Bound)) (rs : RangeSearch Point)
  (Q : Mat Point) : Prop :=
  ∀ a t, referenceTree rs = Some a → tr !! a = Some t →
         TraversalBounds rs t Q (Dataset (builtTree Q)) (root (builtTree Q)).
Definition TreeBoundsOK (tr : gmap addr (Tree Point Bound)) (rs : RangeSearch Point)
  (qt : Tree Point Bound) : Prop :=
  ∀ a t, referenceTree rs = Some a → tr !! a = Some t →
         DlebTransitive ∧
         node_bounds (Dataset qt) (Dataset t) (root qt) (root t) = true.
Definition SelfBoundsOK (tr : gmap addr (Tree Point Bound)) (rs : RangeSearch Point)
  : Prop :=
  ∀ a t, referenceTree rs = Some a → tr !! a = Some t →
         TraversalBounds rs t (Dataset t) (Dataset t) (root t).

(** Where the two pointers of [Search] point after the allocation. *)
Definition distance_ptr (rs : RangeSearch Point) : BufPtr :=
  if RearrangesDataset && (negb (singleMode rs) && negb (naive rs))
  then TempBuf else CallerBuf.
Definition neighbor_ptr (rs : RangeSearch Point) : BufPtr :=
  if RearrangesDataset && treeOwner rs then TempBuf else CallerBuf.

(** The traversal part of [Search], as a function of the two pointers. *)
Definition Search_traversal (rs : RangeSearch Point) (neighborPtr distancePtr : BufPtr)
  (querySet : Mat Point) (range : Range Dist) : M Mem' (list nat * Mat Point) :=
  if naive rs then
    let rules := {| r_referenceSet := referenceSet rs; r_querySet := querySet;
                    r_range := range; r_sameSet := false |} in
    naive_loops neighborPtr distancePtr rules
      (length querySet) (length (referenceSet rs)) ;;
    mret ([], querySet)
  else if singleMode rs then
    let rules := {| r_referenceSet := referenceSet rs; r_querySet := querySet;
                    r_range := range; r_sameSet := false |} in
    single_loop neighborPtr distancePtr rules (referenceTree rs)
      (length querySet) ;;
    mret ([], querySet)
  else
    '(queryTree, oldFromNewQueries, querySet) ← BuildTree querySet [];
    qt ← deref_tree (Some queryTree);
    let rules := {| r_referenceSet := referenceSet rs; r_querySet := Dataset qt;
                    r_range := range; r_sameSet := false |} in
    rt ← deref_tree (referenceTree rs);
    with_rules neighborPtr distancePtr (DualTraverse rules (root qt) (root rt)) ;;
    delete_tree queryTree ;;
    mret (oldFromNewQueries, querySet).

(** The mapping part of [Search]. *)
Definition Search_mapping (rs : RangeSearch Point) (neighborPtr distancePtr : BufPtr)
  (oldFromNewQueries : list nat) (n_cols : nat) : M Mem' unit :=
  if RearrangesDataset then
    if negb (singleMode rs) && negb (naive rs) && treeOwner rs then
      remap_both neighborPtr distancePtr
        oldFromNewQueries (oldFromNewReferences rs) n_cols
    else if negb (singleMode rs) && negb (naive rs) then
      remap_queries neighborPtr distancePtr oldFromNewQueries n_cols
    else if treeOwner rs then
      remap_references neighborPtr (oldFromNewReferences rs) n_cols
    else mret tt
  else mret tt.

(** The traversal part of the self-search. *)
Definition Search_self_traversal (rs : RangeSearch Point)
  (neighborPtr distancePtr : BufPtr) (range : Range Dist) : M Mem' unit :=
  let rules := {| r_referenceSet := referenceSet rs; r_querySet := referenceSet rs;
                  r_range := range; r_sameSet := true |} in
  if naive rs then
    naive_loops neighborPtr distancePtr rules
      (length (referenceSet rs)) (length (referenceSet rs))
  else if singleMode rs then
    single_loop neighborPtr distancePtr rules (referenceTree rs)
      (length (referenceSet rs))
  else
    rt ← deref_tree (referenceTree rs);
    with_rules neighborPtr distancePtr (DualTraverse rules (root rt) (root rt)).

(** In memory [m], query point [i] has reference point [j] at distance [d]
    at one position of its two result vectors. *)
Definition Reported (m : Mem') (i j : nat) (d : Dist) : Prop :=
  ∃ ns ds k, neighbors m !! i = Some ns ∧ distances m !! i = Some ds ∧
             ns !! k = Some j ∧ ds !! k = Some d.

(** Construction from a raw reference set followed by a search of a raw
    query set. *)
Definition construct_and_search (R : Mat Point) (naive singleMode : bool)
  (Q : Mat Point) (range : Range Dist) : M Mem' (Mat Point) :=
  '(rs, _) ← RangeSearch_raw R naive singleMode;
  Search rs Q range.

(** *** Allocation, failure and frames *)

(** Whether a temporary exists. *)
Definition allocated {A} (o : option A) : bool :=
  match o with Some _ => true | None => false end.

(** What a call can allocate and free: the trees on the heap and the two
    temporaries. *)
Abbreviation Footprint := (gmap addr (Tree Point Bound) * bool * bool)%type.
Definition footprint (m : Mem') : Footprint :=
  (trees m, allocated (tmpNeighbors m), allocated (tmpDistances m)).

(** Whether a pointer designates an existing vector. *)
Definition pointsN (fp : Footprint) (p : BufPtr) : bool :=
  match p with CallerBuf => true | TempBuf => fp.1.2 end.
Definition pointsD (fp : Footprint) (p : BufPtr) : bool :=
  match p with CallerBuf => true | TempBuf => fp.2 end.

(** Started with footprint [fp], the computation does not throw, ends in
    undefined behaviour only of a kind in [U], and returns with footprint
    [fp']. *)
Definition Moves {A} (fp fp' : Footprint) (U : UB → Prop) (c : M Mem' A) : Prop :=
  ∀ m, footprint m = fp →
    match c m with
    | Returned _ m' => footprint m' = fp'
    | Throws _ _ => False
    | Undefined u _ => U u
    end.

(** The computation never ends in an exception. *)
Definition NoThrow {S A} (c : M S A) : Prop := ∀ s e s', c s ≠ Throws e s'.

(** An outcome with its memory changed by [f]. *)
Definition state_map {S A} (f : S → S) (o : Outcome S A) : Outcome S A :=
  match o with
  | Returned a s => Returned a (f s)
  | Throws e s => Throws e (f s)
  | Undefined u s => Undefined u (f s)
  end.

(** The computation neither reads nor writes what [f] changes. *)
Definition Commutes {S A} (f : S → S) (c : M S A) : Prop :=
  ∀ s, c (f s) = state_map f (c s).

(** [f] changes nothing that is reached through the two pointers or lives
    on the heap of trees. *)
Record Untouched (f : Mem' → Mem') (np dp : BufPtr) : Prop := {
  untouched_trees m : trees (f m) = trees m;
  untouched_readN m : readN np (f m) = readN np m;
  untouched_readD m : readD dp (f m) = readD dp m;
  untouched_writeN m v : writeN np v (f m) = f (writeN np v m);
  untouched_writeD m v : writeD dp v (f m) = f (writeD dp v m);
  untouched_set_trees m g : set_trees g (f m) = f (set_trees g m)
}.

(** The caller's buffers that the two pointers leave aside, filled with
    [N0] and [D0]. *)
Definition aside (np dp : BufPtr) (N0 : NeighborBuf) (D0 : DistanceBuf Dist)
  (m : Mem') : Mem' :=
  let m1 := match dp with TempBuf => set_distances D0 m | CallerBuf => m end in
  match np with TempBuf => set_neighbors N0 m1 | CallerBuf => m1 end.

(** *** Brute force, as a list *)

(** The results of the query point [q] with index [i] among the reference
    points whose indices are in [l], in the order of [l]. *)
Definition in_range_among (R : Mat Point) (range : Range Dist) (same : bool)
  (i : nat) (q : Point) (l : list nat) : list (nat * Dist) :=
  omap (λ j, p ← R !! j;
             if same && bool_decide (i = j) then None
             else if Contains range (Evaluate q p) then Some (j, Evaluate q p)
             else None) l.

(** The results of a query point among all reference points, by increasing
    index. *)
Definition brute_force (R : Mat Point) (range : Range Dist) (same : bool)
  (i : nat) (q : Point) : list (nat * Dist) :=
  in_range_among R range same i q (seq 0 (length R)).

End Specification.

(** ** Evaluation of the monad *)

Section Evaluation.
Context {S : Type}.
Implicit Types s : S.

Lemma bind_eval {A B} (c : M S A) (f : A → M S B) s :
  (c ≫= f) s = match c s with
               | Returned a s' => f a s'
               | Throws e s' => Throws e s'
               | Undefined u s' => Undefined u s'
               end.
Proof. reflexivity. Qed.

Lemma bind_returned {A B} (c : M S A) (f : A → M S B) s a s' :
  c s = Returned a s' → (c ≫= f) s = f a s'.
Proof. intros E. rewrite bind_eval, E. reflexivity. Qed.

Lemma bind_returned_inv {A B} (c : M S A) (f : A → M S B) s b s2 :
  (c ≫= f) s = Returned b s2 → ∃ a s1, c s = Returned a s1 ∧ f a s1 = Returned b s2.
Proof. rewrite bind_eval. destruct (c s) as [a s1| |]; [eauto|done..]. Qed.

Lemma vget_some {A} (v : list A) i x s :
  v !! i = Some x → vget v i s = Returned x s.
Proof. unfold vget. intros ->. reflexivity. Qed.


End Evaluation.

(** ** The rule object: base cases and traversals *)

Section RuleFacts.
Context {Point Dist : Type}.
Context `{!Scalar Dist, !MetricType Point Dist, !TreeType Point Dist}.
Implicit Types (rules : @Rules Point Dist).
Implicit Types (out : list (list nat) * list (list Dist)).

Lemma Result_init (R Q : list Point) range same :
  Result R Q range same (init (length Q)).
Proof.
  unfold Result, init; simpl. rewrite !length_replicate.
  split; [done|]. split; [done|].
  intros i ns ds [-> _]%lookup_replicate [-> _]%lookup_replicate. constructor.
Qed.

Lemma Found_init n i j : ¬ Found (Dist:=Dist) (init n) i j.
Proof.
  intros (ns & [-> _]%lookup_replicate & Hin). by apply elem_of_nil in Hin.
Qed.

Lemma BaseCase_spec rules i j out :
  ResultOf rules out →
  i < length (r_querySet rules) → j < length (r_referenceSet rules) →
  ∃ out', BaseCase rules i j out = Some out' ∧ ResultOf rules out' ∧
    ∀ i' j', Found out' i' j' ↔
             Found out i' j' ∨ (i' = i ∧ j' = j ∧ ∃ d, HitOf rules i j d).
Proof.
  intros (HlN & HlD & Hres) Hi Hj.
  destruct (lookup_lt_is_Some_2 _ _ Hi) as [q Hq].
  destruct (lookup_lt_is_Some_2 _ _ Hj) as [p Hp].
  unfold BaseCase. rewrite Hq, Hp. simpl.
  destruct (r_sameSet rules && bool_decide (i = j)) eqn:Hsame.
  { exists out. split; [done|]. split; [done|].
    intros i' j'. split; [by left|].
    intros [H|(-> & -> & d & q' & p' & _ & _ & _ & _ & Hs)]; [done|congruence]. }
  destruct (Contains (r_range rules) (Evaluate q p)) eqn:Hin.
  2:{ exists out. split; [done|]. split; [done|].
      intros i' j'. split; [by left|].
      intros [H|(-> & -> & d & q' & p' & Hq' & Hp' & -> & Hc & _)]; [done|].
      congruence. }
  destruct (lookup_lt_is_Some_2 out.1 i) as [ns Hns]; [lia|].
  destruct (lookup_lt_is_Some_2 out.2 i) as [ds Hds]; [lia|].
  rewrite Hns, Hds. simpl.
  assert (Hhit : HitOf rules i j (Evaluate q p)) by (exists q, p; done).
  eexists. split; [done|]. split.
  - split; [|split]; simpl; rewrite ?length_insert; try done.
    intros i' ns' ds'. destruct (decide (i' = i)) as [->|Hne].
    + rewrite !list_lookup_insert_eq by lia. intros [= <-] [= <-].
      apply Forall2_app; [by eapply Hres|]. by repeat constructor.
    + rewrite !list_lookup_insert_ne by done. apply Hres.
  - intros i' j'. unfold Found; simpl. destruct (decide (i' = i)) as [->|Hne].
    + rewrite list_lookup_insert_eq by lia. split.
      * intros (ns' & [= <-] & [H|H%list_elem_of_singleton]%elem_of_app).
        -- left; eauto.
        -- right; eauto.
      * intros [(ns' & Hns' & H)|(_ & -> & _)]; eexists; (split; [done|]).
        -- rewrite Hns in Hns'. injection Hns' as <-. apply elem_of_app; by left.
        -- apply elem_of_app; right. by apply list_elem_of_singleton.
    + rewrite list_lookup_insert_ne by done. split; [by left|].
      intros [H|(-> & _)]; done.
Qed.

Lemma BaseCases_app rules p1 p2 out :
  BaseCases rules (p1 ++ p2) out = BaseCases rules p1 out ≫= BaseCases rules p2.
Proof.
  revert out. induction p1 as [|[i j] p1 IH]; intros out; simpl; [done|].
  destruct (BaseCase rules i j out) as [out'|]; simpl; [apply IH|done].
Qed.

Lemma BaseCases_spec rules pairs out :
  ResultOf rules out → InBounds rules pairs →
  ∃ out', BaseCases rules pairs out = Some out' ∧ ResultOf rules out' ∧
    ∀ i j, Found out' i j ↔
           Found out i j ∨ ((i, j) ∈ pairs ∧ ∃ d, HitOf rules i j d).
Proof.
  revert out. induction pairs as [|[i j] pairs IH]; intros out Hres Hb.
  - exists out. split; [done|]. split; [done|]. intros i j.
    split; [by left|]. intros [H|[H%elem_of_nil _]]; done.
  - apply Forall_cons in Hb as [[Hi Hj] Hb]. simpl in Hi, Hj.
    destruct (BaseCase_spec rules i j out Hres Hi Hj) as (out1 & E1 & Hres1 & Hf1).
    destruct (IH out1 Hres1 Hb) as (out2 & E2 & Hres2 & Hf2).
    exists out2. simpl. rewrite E1. simpl. split; [done|]. split; [done|].
    intros i' j'. rewrite Hf2, Hf1, elem_of_cons. split.
    + intros [[H|(-> & -> & H)]|[H1 H2]]; eauto.
    + intros [H|[[[= -> ->]|H1] H2]]; eauto 6.
Qed.

Lemma SingleTraverse_pairs rules i q node out :
  r_querySet rules !! i = Some q →
  SingleTraverse rules i node out =
  BaseCases rules ((λ j, (i, j)) <$> single_visited (r_range rules) q node) out.
Proof.
  intros Hq. revert out.
  induction node as [b begin count|b begin count c0 IH0 c1 IH1]; intros out;
    simpl; rewrite Hq; simpl.
  - by destruct (Prune _ _ _).
  - destruct (Prune _ _ _); [done|].
    rewrite fmap_app, BaseCases_app, <- IH0.
    destruct (SingleTraverse rules i c0 out); simpl; [apply IH1|done].
Qed.

Lemma DualTraverse_pairs rules qn rn out :
  DualTraverse rules qn rn out =
  BaseCases rules (dual_visited (r_range rules) qn rn) out.
Proof.
  revert rn out.
  induction qn as [qb qbeg qcnt|qb qbeg qcnt q0 IH0 q1 IH1]; intros rn;
    induction rn as [rb rbeg rcnt|rb rbeg rcnt r0 IHr0 r1 IHr1]; intros out; simpl;
    destruct (Prune _ _ _); try done.
  - rewrite BaseCases_app.
    change (DualTraverse rules (Leaf qb qbeg qcnt) r0 out ≫=
            DualTraverse rules (Leaf qb qbeg qcnt) r1 = 
            BaseCases rules (dual_visited (r_range rules) (Leaf qb qbeg qcnt) r0) out ≫=
            BaseCases rules (dual_visited (r_range rules) (Leaf qb qbeg qcnt) r1)).
    rewrite IHr0. destruct (BaseCases _ _ out); simpl; [apply IHr1|done].
  - rewrite BaseCases_app, IH0.
    destruct (BaseCases _ _ out); simpl; [apply IH1|done].
  - rewrite BaseCases_app, IH0.
    destruct (BaseCases _ _ out) as [o1|]; simpl; [|done].
    rewrite BaseCases_app, IH0.
    destruct (BaseCases _ _ o1) as [o2|]; simpl; [|done].
    rewrite BaseCases_app, IH1.
    destruct (BaseCases _ _ o2) as [o3|]; simpl; [|done]. apply IH1.
Qed.

End RuleFacts.

(** ** Buffers behind pointers *)

Section Pointers.
Context {Point Dist : Type}.
Context `{!Scalar Dist, !MetricType Point Dist, !TreeType Point Dist}.
Implicit Types (m : Mem Point Dist Bound) (rules : @Rules Point Dist).
Implicit Types (out : list (list nat) * list (list Dist)).

Lemma derefN_read p m v : readN p m = Some v → derefN p m = Returned v m.
Proof. destruct p; simpl; [by intros [= <-]|by intros ->]. Qed.

Lemma derefD_read p m v : readD p m = Some v → derefD p m = Returned v m.
Proof. destruct p; simpl; [by intros [= <-]|by intros ->]. Qed.

Lemma assignN_write p m v0 v :
  readN p m = Some v0 → assignN p v m = Returned tt (writeN p v m).
Proof.
  intros H. unfold assignN. rewrite (bind_returned _ _ _ _ _ (derefN_read _ _ _ H)).
  by destruct p.
Qed.

Lemma assignD_write p m v0 v :
  readD p m = Some v0 → assignD p v m = Returned tt (writeD p v m).
Proof.
  intros H. unfold assignD. rewrite (bind_returned _ _ _ _ _ (derefD_read _ _ _ H)).
  by destruct p.
Qed.

Lemma readN_writeN p v m : readN p (writeN p v m) = Some v.
Proof. by destruct p. Qed.
Lemma readD_writeD p v m : readD p (writeD p v m) = Some v.
Proof. by destruct p. Qed.
Lemma readD_writeN dp np v m : readD dp (writeN np v m) = readD dp m.
Proof. by destruct dp, np. Qed.
Lemma readN_writeD np dp v m : readN np (writeD dp v m) = readN np m.
Proof. by destruct dp, np. Qed.
Lemma trees_writeN p v m : trees (writeN p v m) = trees m.
Proof. by destruct p. Qed.
Lemma trees_writeD p v m : trees (writeD p v m) = trees m.
Proof. by destruct p. Qed.

Lemma readN_writeOut np dp out m : readN np (writeOut np dp out m) = Some out.1.
Proof. unfold writeOut. by rewrite readN_writeD, readN_writeN. Qed.
Lemma readD_writeOut np dp out m : readD dp (writeOut np dp out m) = Some out.2.
Proof. unfold writeOut. by rewrite readD_writeD. Qed.
Lemma trees_writeOut np dp out m : trees (writeOut np dp out m) = trees m.
Proof. unfold writeOut. by rewrite trees_writeD, trees_writeN. Qed.

Lemma writeOut_writeOut np dp out1 out2 m :
  writeOut np dp out2 (writeOut np dp out1 m) = writeOut np dp out2 m.
Proof. by destruct np, dp. Qed.

Lemma writeOut_id np dp ns ds m :
  readN np m = Some ns → readD dp m = Some ds → writeOut np dp (ns, ds) m = m.
Proof. destruct m, np, dp; simpl; intros; simplify_eq; done. Qed.

Lemma clear_resizeN_write p m v0 n :
  readN p m = Some v0 → clear_resizeN p n m = Returned tt (writeN p (replicate n []) m).
Proof.
  intros H. unfold clear_resizeN.
  rewrite (bind_returned _ _ _ _ _ (assignN_write _ _ _ [] H)).
  rewrite (assignN_write _ _ [] _ (readN_writeN _ _ _)). by destruct p.
Qed.

Lemma clear_resizeD_write p m v0 n :
  readD p m = Some v0 → clear_resizeD p n m = Returned tt (writeD p (replicate n []) m).
Proof.
  intros H. unfold clear_resizeD.
  rewrite (bind_returned _ _ _ _ _ (assignD_write _ _ _ [] H)).
  rewrite (assignD_write _ _ [] _ (readD_writeD _ _ _)). by destruct p.
Qed.



Lemma deref_tree_live a t m :
  trees m !! a = Some t → deref_tree (Some a) m = Returned t m.
Proof. unfold deref_tree; simpl. by intros ->. Qed.

Lemma with_rules_runs tr np dp rules call pairs :
  (∀ out, call out = BaseCases rules pairs out) →
  RunsAs tr np dp (with_rules np dp call) rules pairs.
Proof.
  intros Hcall m ns ds out _ HN HD Hrun. unfold with_rules.
  rewrite (bind_returned _ _ _ _ _ (derefN_read _ _ _ HN)).
  rewrite (bind_returned _ _ _ _ _ (derefD_read _ _ _ HD)).
  rewrite Hcall, Hrun.
  rewrite (bind_returned _ _ _ _ _ (assignN_write _ _ _ out.1 HN)).
  erewrite assignD_write; [done|]. by rewrite readD_writeN.
Qed.

Lemma for_runs tr np dp rules (l : list nat) body (ps : nat → list (nat * nat)) :
  (∀ i, i ∈ l → RunsAs tr np dp (body i) rules (ps i)) →
  RunsAs tr np dp (for_ l body) rules (l ≫= ps).
Proof.
  induction l as [|i l IH]; intros Hbody m ns ds out Htr HN HD Hrun.
  - simpl in *. injection Hrun as <-. by rewrite writeOut_id.
  - change ((i :: l) ≫= ps) with (ps i ++ (l ≫= ps)) in Hrun.
    rewrite BaseCases_app in Hrun.
    destruct (BaseCases rules (ps i) (ns, ds)) as [out1|] eqn:E1; [|done].
    simpl in Hrun. simpl.
    rewrite (bind_returned _ _ _ _ _
      (Hbody i ltac:(by left) m ns ds out1 Htr HN HD E1)).
    destruct out1 as [ns1 ds1].
    rewrite (IH (λ j Hj, Hbody j ltac:(by right)) _ ns1 ds1 out); try done.
    + by rewrite writeOut_writeOut.
    + by rewrite trees_writeOut.
    + by rewrite readN_writeOut.
    + by rewrite readD_writeOut.
Qed.

Lemma bind_singleton_fmap {A B} (f : A → B) (l : list A) :
  l ≫= (λ x, [f x]) = f <$> l.
Proof. induction l as [|x l IH]; [done|]. by rewrite bind_cons, IH. Qed.

Lemma naive_loops_runs tr np dp rules nq nr :
  RunsAs tr np dp (naive_loops np dp rules nq nr) rules (naive_pairs nq nr).
Proof.
  unfold naive_loops, naive_pairs. apply for_runs. intros i _.
  rewrite <- bind_singleton_fmap. apply for_runs. intros j _.
  apply with_rules_runs. intros out. simpl.
  by destruct (BaseCase rules i j out).
Qed.

Lemma single_loop_runs tr np dp rules a t :
  tr !! a = Some t →
  RunsAs tr np dp (single_loop np dp rules (Some a) (length (r_querySet rules)))
    rules (single_pairs (r_range rules) (r_querySet rules) (root t)).
Proof.
  intros Ht. unfold single_loop, single_pairs. apply for_runs.
  intros i [_ Hi]%elem_of_seq. simpl in Hi.
  destruct (lookup_lt_is_Some_2 (r_querySet rules) i Hi) as [q Hq]. rewrite Hq.
  intros m ns ds out Htr HN HD Hrun.
  rewrite (bind_returned _ _ _ _ _ (deref_tree_live a t m ltac:(by rewrite Htr))).
  eapply with_rules_runs; try done.
  intros o. by apply SingleTraverse_pairs.
Qed.

Lemma dual_runs tr np dp rules qn rn :
  RunsAs tr np dp (with_rules np dp (DualTraverse rules qn rn))
    rules (dual_visited (r_range rules) qn rn).
Proof. apply with_rules_runs. intros out. apply DualTraverse_pairs. Qed.

End Pointers.

(** ** The mapping loops *)

Section Remapping.
Context {Point Dist : Type}.
Context `{!Scalar Dist, !MetricType Point Dist, !TreeType Point Dist}.
Implicit Types (m : Mem Point Dist Bound).

Lemma store_distances_eval q col old m :
  distances m !! q = Some old →
  store_distances q col m = Returned tt (set_distances (<[q := col]> (distances m)) m).
Proof. intros H. unfold store_distances, vget. rewrite !bind_eval; simpl. by rewrite H. Qed.


Lemma resize_neighbors_eval q sz row m :
  neighbors m !! q = Some row →
  resize_neighbors q sz m =
  Returned tt (set_neighbors (<[q := resize sz 0 row]> (neighbors m)) m).
Proof. intros H. unfold resize_neighbors, vget. rewrite !bind_eval; simpl. by rewrite H. Qed.

Lemma store_neighbor_eval q j v row old m :
  neighbors m !! q = Some row → row !! j = Some old →
  store_neighbor q j v m =
  Returned tt (set_neighbors (<[q := <[j := v]> row]> (neighbors m)) m).
Proof.
  intros H1 H2. unfold store_neighbor, vget. rewrite !bind_eval; simpl.
  rewrite H1. rewrite !bind_eval; simpl. by rewrite H2.
Qed.

Lemma size_distances_eval q col m :
  distances m !! q = Some col → size_distances q m = Returned (length col) m.
Proof. intros H. unfold size_distances, vget. rewrite !bind_eval; simpl. by rewrite H. Qed.

Lemma size_neighbors_eval q row m :
  neighbors m !! q = Some row → size_neighbors q m = Returned (length row) m.
Proof. intros H. unfold size_neighbors, vget. rewrite !bind_eval; simpl. by rewrite H. Qed.

Lemma foldl_insert_seq {A} (g : nat → A) n (row : list A) :
  n ≤ length row →
  foldl (λ r j, <[j := g j]> r) row (seq 0 n) = (g <$> seq 0 n) ++ drop n row.
Proof.
  induction n as [|n IH]; intros Hn; [done|].
  rewrite seq_S, foldl_app, fmap_app, IH by lia. simpl.
  destruct (lookup_lt_is_Some_2 row n) as [y Hy]; [lia|].
  rewrite insert_app_r_alt by (rewrite length_fmap, length_seq; lia).
  rewrite length_fmap, length_seq, Nat.sub_diag, (drop_S _ _ _ Hy). simpl.
  by rewrite <- app_assoc.
Qed.

Lemma mapped_seq (ofn ns : list nat) :
  (λ j, default 0 (ns !! j ≫= (ofn !!.))) <$> seq 0 (length ns) = mapped ofn ns.
Proof.
  apply list_eq. intros k. unfold mapped. rewrite !list_lookup_fmap.
  destruct (ns !! k) as [r|] eqn:Hk.
  - rewrite lookup_seq_lt by (by eapply lookup_lt_Some). simpl. by rewrite Hk.
  - rewrite lookup_seq_ge; [done|]. by apply lookup_ge_None.
Qed.

Lemma map_neighbors_gen (ofn : list nat) q i tN ns (l : list nat) m row :
  tmpNeighbors m = Some tN → tN !! i = Some ns →
  neighbors m !! q = Some row →
  Forall (λ j, j < length row ∧ j < length ns) l →
  Forall (λ r, r < length ofn) ns →
  for_ l (λ j,
    tmp ← derefN TempBuf;
    row ← vget tmp i;
    r ← vget row j;
    v ← vget ofn r;
    store_neighbor q j v) m =
  Returned tt (set_neighbors
    (<[q := foldl (λ r j, <[j := default 0 (ns !! j ≫= (ofn !!.))]> r) row l]>
       (neighbors m)) m).
Proof.
  intros Htmp Hi. revert m row Htmp.
  induction l as [|j l IH]; intros m row Htmp Hq Hl Hns; simpl.
  - rewrite list_insert_id by done. by destruct m.
  - apply Forall_cons in Hl as [[Hj1 Hj2] Hl].
    destruct (lookup_lt_is_Some_2 ns j Hj2) as [r Hr].
    destruct (lookup_lt_is_Some_2 row j Hj1) as [old Hold].
    assert (r < length ofn) as Hrlt.
    { eapply (proj1 (Forall_forall _ _) Hns). by eapply list_elem_of_lookup_2. }
    destruct (lookup_lt_is_Some_2 ofn r Hrlt) as [v Hv].
    rewrite bind_eval.
    rewrite (bind_returned _ _ _ _ _ (derefN_read TempBuf m tN Htmp)).
    rewrite (bind_returned _ _ _ _ _ (vget_some tN i ns m Hi)).
    rewrite (bind_returned _ _ _ _ _ (vget_some ns j r m Hr)).
    rewrite (bind_returned _ _ _ _ _ (vget_some ofn r v m Hv)).
    rewrite (store_neighbor_eval q j v row old m Hq Hold).
    rewrite (IH _ (<[j := v]> row)); simpl.
    + rewrite list_insert_insert_eq, Hr. simpl. by rewrite Hv.
    + done.
    + apply list_lookup_insert_eq. by eapply lookup_lt_Some.
    + by rewrite length_insert.
    + done.
Qed.

Lemma map_neighbors_run (ofn : list nat) q i tN ns m row :
  tmpNeighbors m = Some tN → tN !! i = Some ns →
  neighbors m !! q = Some row → length row = length ns →
  Forall (λ r, r < length ofn) ns →
  map_neighbors TempBuf ofn q i (length ns) m =
  Returned tt (set_neighbors (<[q := mapped ofn ns]> (neighbors m)) m).
Proof.
  intros Htmp Hi Hq Hlen Hns. unfold map_neighbors.
  rewrite (map_neighbors_gen ofn q i tN ns _ m row); try done.
  - rewrite foldl_insert_seq by lia. rewrite mapped_seq.
    rewrite drop_ge by lia. by rewrite app_nil_r.
  - apply Forall_forall. intros j [_ Hj]%elem_of_seq. lia.
Qed.

Lemma length_scatter {A} key (val : nat → option A) l v :
  length (scatter key val l v) = length v.
Proof.
  revert v. induction l as [|i l IH]; intros v; simpl; [done|].
  unfold scatter in *. simpl. rewrite IH.
  destruct (key i), (val i); rewrite ?length_insert; done.
Qed.


Lemma scatter_lookup {A} key (val : nat → option A) l v i q x :
  i ∈ l → key i = Some q → val i = Some x → q < length v →
  (∀ i', i' ∈ l → key i' = Some q → i' = i) →
  scatter key val l v !! q = Some x.
Proof.
  revert v. induction l as [|i0 l IH]; intros v Hin Hk Hv Hq Huniq.
  { by apply elem_of_nil in Hin. }
  unfold scatter in *. simpl.
  destruct (decide (i ∈ l)) as [Hl|Hl].
  - apply IH; try done.
    + destruct (key i0), (val i0); rewrite ?length_insert; done.
    + intros i' Hi'. apply Huniq. by right.
  - apply elem_of_cons in Hin as [->|Hin]; [|done].
    rewrite Hk, Hv. clear IH.
    assert (∀ i', i' ∈ l → key i' ≠ Some q) as Hno.
    { intros i' Hi' Hk'. apply Hl. rewrite <- (Huniq i'); [done|by right|done]. }
    clear Huniq Hl. 
    assert (<[q := x]> v !! q = Some x) as Hcur by (by apply list_lookup_insert_eq).
    revert Hcur. generalize (<[q := x]> v). clear Hq v.
    induction l as [|i1 l IH]; intros v Hcur; [done|]. simpl.
    apply IH.
    + intros i' Hi'. apply Hno. by right.
    + destruct (key i1) as [q1|] eqn:Hk1, (val i1); try done.
      rewrite list_lookup_insert_ne; [done|].
      intros ->. eapply Hno; [|done]. by left.
Qed.


Lemma remap_both_loop (ofnQ ofnR : list nat) tN tD (l : list nat) m :
  tmpNeighbors m = Some tN → tmpDistances m = Some tD →
  Mappable ofnR tN tD →
  Forall (λ i, i < length tN ∧ i < length tD ∧
               ∃ q, ofnQ !! i = Some q ∧ q < length (neighbors m) ∧
                    q < length (distances m)) l →
  for_ l (λ i,
    queryMapping ← vget ofnQ i;
    tmp ← derefD TempBuf;
    col ← vget tmp i;
    store_distances queryMapping col ;;
    k ← size_distances queryMapping;
    resize_neighbors queryMapping k ;;
    map_neighbors TempBuf ofnR queryMapping i k) m =
  Returned tt
    (set_neighbors
       (scatter (ofnQ !!.) (λ i, mapped ofnR <$> tN !! i) l (neighbors m))
       (set_distances (scatter (ofnQ !!.) (tD !!.) l (distances m)) m)).
Proof.
  intros HtN HtD Hmap. revert m HtN HtD.
  induction l as [|i l IH]; intros m HtN HtD Hl.
  - by destruct m.
  - apply Forall_cons in Hl as [(Hi1 & Hi2 & q & Hq & HqN & HqD) Hl].
    destruct (lookup_lt_is_Some_2 tN i Hi1) as [ns Hns].
    destruct (lookup_lt_is_Some_2 tD i Hi2) as [ds Hds].
    destruct (lookup_lt_is_Some_2 _ q HqN) as [rowN HrowN].
    destruct (lookup_lt_is_Some_2 _ q HqD) as [rowD HrowD].
    destruct (Hmap i ns ds Hns Hds) as [Hlen Hlt].
    simpl. rewrite bind_eval.
    rewrite (bind_returned _ _ _ _ _ (vget_some ofnQ i q m Hq)).
    rewrite (bind_returned _ _ _ _ _ (derefD_read TempBuf m tD HtD)).
    rewrite (bind_returned _ _ _ _ _ (vget_some tD i ds m Hds)).
    rewrite (bind_returned _ _ _ _ _ (store_distances_eval q ds rowD m HrowD)).
    set (m1 := set_distances _ m).
    rewrite (bind_returned _ _ _ _ _ (size_distances_eval q ds m1
      ltac:(by apply list_lookup_insert_eq))).
    rewrite (bind_returned _ _ _ _ _
      (resize_neighbors_eval q (length ds) rowN m1 HrowN)).
    set (m2 := set_neighbors _ m1).
    rewrite <- Hlen.
    rewrite (map_neighbors_run ofnR q i tN ns m2 (resize (length ds) 0 rowN));
      try done.
    2:{ by apply list_lookup_insert_eq. }
    2:{ by rewrite length_resize. }
    rewrite IH; simpl.
    + rewrite Hq, Hns, Hds. simpl.
      by rewrite list_insert_insert_eq.
    + done.
    + done.
    + eapply Forall_impl; [exact Hl|]. simpl.
      intros i' (? & ? & q' & ? & ? & ?). rewrite !length_insert. eauto 10.
Qed.

Lemma remap_both_run (ofnQ ofnR : list nat) tN tD n m :
  tmpNeighbors m = Some tN → tmpDistances m = Some tD →
  length tN = n → length tD = n → length ofnQ = n →
  Forall (λ q, q < n) ofnQ →
  Mappable ofnR tN tD →
  remap_both TempBuf TempBuf ofnQ ofnR n m =
  Returned tt
    {| trees := trees m;
       neighbors :=
         scatter (ofnQ !!.) (λ i, mapped ofnR <$> tN !! i) (seq 0 n) (replicate n []);
       distances := scatter (ofnQ !!.) (tD !!.) (seq 0 n) (replicate n []);
       tmpNeighbors := None;
       tmpDistances := None |}.
Proof.
  intros HtN HtD HlN HlD HlQ HQ Hmap. unfold remap_both.
  rewrite (bind_returned _ _ _ _ _ (clear_resizeN_write CallerBuf m _ n eq_refl)).
  rewrite (bind_returned _ _ _ _ _ (clear_resizeD_write CallerBuf _ _ n eq_refl)).
  rewrite bind_eval. simpl. rewrite length_replicate.
  rewrite bind_eval, remap_both_loop with (tN := tN) (tD := tD); try done.
  - rewrite !bind_eval. simpl. rewrite HtN. simpl.
    rewrite bind_eval. simpl. by rewrite HtD.
  - apply Forall_forall. intros i [_ Hi]%elem_of_seq. simpl.
    rewrite !length_replicate.
    destruct (lookup_lt_is_Some_2 ofnQ i) as [q Hq]; [lia|].
    split; [lia|]. split; [lia|]. exists q. split; [done|].
    assert (q < n); [|lia].
    eapply (proj1 (Forall_forall _ _) HQ). by eapply list_elem_of_lookup_2.
Qed.

Lemma remap_references_loop (ofnR : list nat) tN (l : list nat) m :
  tmpNeighbors m = Some tN →
  Forall (Forall (λ r, r < length ofnR)) tN →
  Forall (λ i, i < length tN ∧ i < length (neighbors m)) l →
  for_ l (λ i,
    tmp ← derefN TempBuf;
    row ← vget tmp i;
    resize_neighbors i (length row) ;;
    k ← size_neighbors i;
    map_neighbors TempBuf ofnR i i k) m =
  Returned tt
    (set_neighbors
       (scatter Some (λ i, mapped ofnR <$> tN !! i) l (neighbors m)) m).
Proof.
  intros HtN Hrows. revert m HtN.
  induction l as [|i l IH]; intros m HtN Hl.
  - by destruct m.
  - apply Forall_cons in Hl as [[Hi1 Hi2] Hl].
    destruct (lookup_lt_is_Some_2 tN i Hi1) as [ns Hns].
    destruct (lookup_lt_is_Some_2 _ i Hi2) as [row Hrow].
    assert (Forall (λ r, r < length ofnR) ns) as Hlt.
    { eapply (proj1 (Forall_forall _ _) Hrows). by eapply list_elem_of_lookup_2. }
    simpl. rewrite bind_eval.
    rewrite (bind_returned _ _ _ _ _ (derefN_read TempBuf m tN HtN)).
    rewrite (bind_returned _ _ _ _ _ (vget_some tN i ns m Hns)).
    rewrite (bind_returned _ _ _ _ _
      (resize_neighbors_eval i (length ns) row m Hrow)).
    set (m1 := set_neighbors _ m).
    rewrite (bind_returned _ _ _ _ _ (size_neighbors_eval i
      (resize (length ns) 0 row) m1 ltac:(by apply list_lookup_insert_eq))).
    rewrite length_resize.
    rewrite (map_neighbors_run ofnR i i tN ns m1 (resize (length ns) 0 row));
      try done.
    2:{ by apply list_lookup_insert_eq. }
    2:{ by rewrite length_resize. }
    rewrite IH; simpl.
    + rewrite Hns. simpl. by rewrite list_insert_insert_eq.
    + done.
    + eapply Forall_impl; [exact Hl|]. simpl.
      intros i' [? ?]. rewrite !length_insert. eauto.
Qed.

Lemma scatter_identity {A} (f : list nat → A) (tN : list (list nat)) (d : A) :
  scatter Some (λ i, f <$> tN !! i) (seq 0 (length tN)) (replicate (length tN) d)
  = f <$> tN.
Proof.
  apply list_eq. intros k. rewrite list_lookup_fmap.
  destruct (tN !! k) as [ns|] eqn:Hk.
  - apply scatter_lookup with (i := k); try done.
    + apply elem_of_seq. apply lookup_lt_Some in Hk. lia.
    + by rewrite Hk.
    + rewrite length_replicate. by eapply lookup_lt_Some.
    + by intros i' _ [= ->].
  - apply lookup_ge_None. rewrite length_scatter, length_replicate.
    by apply lookup_ge_None.
Qed.

Lemma remap_references_run (ofnR : list nat) tN n m :
  tmpNeighbors m = Some tN → length tN = n →
  Forall (Forall (λ r, r < length ofnR)) tN →
  remap_references TempBuf ofnR n m =
  Returned tt
    {| trees := trees m;
       neighbors := mapped ofnR <$> tN;
       distances := distances m;
       tmpNeighbors := None;
       tmpDistances := tmpDistances m |}.
Proof.
  intros HtN HlN Hrows. unfold remap_references.
  rewrite (bind_returned _ _ _ _ _ (clear_resizeN_write CallerBuf m _ n eq_refl)).
  rewrite bind_eval. simpl. rewrite length_replicate.
  rewrite bind_eval, remap_references_loop with (tN := tN); try done.
  - rewrite bind_eval. simpl. rewrite HtN. simpl.
    subst n. by rewrite scatter_identity.
  - apply Forall_forall. intros i [_ Hi]%elem_of_seq. simpl.
    rewrite length_replicate. lia.
Qed.

(** With [neighborPtr] at the caller's buffer the query-only mapping ends in
    [delete] of that buffer. *)
Lemma remap_queries_caller dp (ofnQ : list nat) n m a m' :
  remap_queries CallerBuf dp ofnQ n m ≠ Returned a m'.
Proof.
  unfold remap_queries. intros H.
  apply bind_returned_inv in H as (? & m1 & _ & H).
  apply bind_returned_inv in H as (? & m2 & _ & H).
  apply bind_returned_inv in H as (? & m3 & _ & H).
  apply bind_returned_inv in H as (? & m4 & _ & H).
  apply bind_returned_inv in H as (? & m5 & H & _).
  discriminate.
Qed.

End Remapping.

(** ** Pruning loses no result *)

Section Pruning.
Context {Point Dist : Type}.
Context `{!Scalar Dist, !MetricType Point Dist, !TreeType Point Dist}.
Hypothesis Dleb_trans : DlebTransitive (Dist:=Dist).

Lemma not_pruned (range : Range Dist) (minD maxD d : Dist) :
  Contains range d = true → within minD maxD d = true →
  Prune range minD maxD = false.
Proof.
  unfold Contains, within, Prune, Dltb.
  intros [H1 H2]%andb_true_iff [H3 H4]%andb_true_iff.
  rewrite (Dleb_trans _ _ _ H1 H4), (Dleb_trans _ _ _ H3 H2). done.
Qed.

Lemma single_visited_complete range (R' : list Point) q node j p :
  point_bounds R' q node = true →
  j ∈ NodePoints node → R' !! j = Some p →
  Contains range (Evaluate q p) = true →
  j ∈ single_visited range q node.
Proof.
  intros Hb Hj Hp Hc.
  induction node as [b begin count|b begin count c0 IH0 c1 IH1]; simpl in *.
  - apply andb_true_iff in Hb as [Hb _].
    rewrite forallb_forall in Hb. specialize (Hb j).
    rewrite Hp in Hb. rewrite (not_pruned range _ _ _ Hc); [done|].
    apply Hb. by apply list_elem_of_In.
  - apply andb_true_iff in Hb as [Hb [Hb0 Hb1]%andb_true_iff].
    rewrite forallb_forall in Hb. specialize (Hb j).
    rewrite Hp in Hb. rewrite (not_pruned range _ _ _ Hc).
    2:{ apply Hb. by apply list_elem_of_In. }
    apply elem_of_app in Hj as [Hj|Hj]; apply elem_of_app; auto.
Qed.

Lemma dual_visited_complete range (Q' R' : list Point) qn rn i j q p :
  node_bounds Q' R' qn rn = true →
  i ∈ NodePoints qn → j ∈ NodePoints rn →
  Q' !! i = Some q → R' !! j = Some p →
  Contains range (Evaluate q p) = true →
  (i, j) ∈ dual_visited range qn rn.
Proof.
  intros Hb Hi Hj Hq Hp Hc. revert rn Hb Hj.
  induction qn as [qb qbeg qcnt|qb qbeg qcnt q0 IH0 q1 IH1]; intros rn;
    induction rn as [rb rbeg rcnt|rb rbeg rcnt r0 IHr0 r1 IHr1]; intros Hb Hj;
    simpl in Hb; apply andb_true_iff in Hb as [Hb Hrec];
    rewrite forallb_forall in Hb; specialize (Hb i ltac:(by apply list_elem_of_In));
    rewrite forallb_forall in Hb; specialize (Hb j ltac:(by apply list_elem_of_In));
    rewrite Hq, Hp in Hb; simpl; rewrite (not_pruned range _ _ _ Hc Hb).
  - simpl in Hi, Hj. apply list_elem_of_bind. exists i. split; [|done].
    by apply list_elem_of_fmap_2.
  - apply andb_true_iff in Hrec as [H0 H1].
    simpl in Hj. apply elem_of_app in Hj as [Hj|Hj]; apply elem_of_app.
    + left. by apply IHr0.
    + right. by apply IHr1.
  - apply andb_true_iff in Hrec as [H0 H1].
    simpl in Hi. apply elem_of_app in Hi as [Hi|Hi]; apply elem_of_app.
    + left. by apply IH0.
    + right. by apply IH1.
  - apply andb_true_iff in Hrec as [[[H00 H01]%andb_true_iff H10]%andb_true_iff H11].
    simpl in Hi, Hj. rewrite !elem_of_app.
    apply elem_of_app in Hi as [Hi|Hi]; apply elem_of_app in Hj as [Hj|Hj].
    + left. by apply IH0.
    + right; left. by apply IH0.
    + right; right; left. by apply IH1.
    + right; right; right. by apply IH1.
Qed.

End Pruning.

Section Visited.
Context {Point Dist : Type}.
Context `{!Scalar Dist, !MetricType Point Dist, !TreeType Point Dist}.

Lemma single_visited_sub (range : Range Dist) (q : Point) node j :
  j ∈ single_visited range q node → j ∈ NodePoints node.
Proof.
  induction node as [b begin count|b begin count c0 IH0 c1 IH1]; simpl;
    destruct (Prune _ _ _); try (by intros ?%elem_of_nil); [done|].
  rewrite !elem_of_app. intros [?|?]; auto.
Qed.

Lemma dual_visited_sub (range : Range Dist) qn rn i j :
  (i, j) ∈ dual_visited range qn rn → i ∈ NodePoints qn ∧ j ∈ NodePoints rn.
Proof.
  revert rn.
  induction qn as [qb qbeg qcnt|qb qbeg qcnt q0 IH0 q1 IH1]; intros rn;
    induction rn as [rb rbeg rcnt|rb rbeg rcnt r0 IHr0 r1 IHr1]; simpl;
    destruct (Prune _ _ _); try (by intros ?%elem_of_nil).
  - intros (i' & [j' [[= -> ->] Hj]]%list_elem_of_fmap & Hi)%list_elem_of_bind.
    done.
  - rewrite !elem_of_app. intros [H|H]; [apply IHr0 in H|apply IHr1 in H];
      simpl in H; tauto.
  - rewrite !elem_of_app. intros [H|H]; [apply IH0 in H|apply IH1 in H];
      simpl in H; tauto.
  - rewrite !elem_of_app.
    intros [H|[H|[H|H]]]; [apply IH0 in H|apply IH0 in H|apply IH1 in H|apply IH1 in H];
      tauto.
Qed.

End Visited.

(** ** Translating results through [oldFromNew] *)

Section Renaming.
Context {Point Dist : Type}.
Context `{!Scalar Dist, !MetricType Point Dist, !TreeType Point Dist}.
Implicit Types (D Q R : list Point) (ofn ofnQ ofnR : list nat).
Implicit Types (out : list (list nat) * list (list Dist)).

Lemma Renamed_length ofn D' D :
  Renamed ofn D' D → length D' = length D ∧ length ofn = length D.
Proof. intros (H2 & _ & Hl). apply Forall2_length in H2. lia. Qed.

Lemma Renamed_fwd ofn D' D k p :
  Renamed ofn D' D → D' !! k = Some p → ∃ o, ofn !! k = Some o ∧ D !! o = Some p.
Proof. intros (H2 & _ & _) Hk. by eapply Forall2_lookup_l in H2. Qed.

Lemma Renamed_inj ofn D' D a b o :
  Renamed ofn D' D → ofn !! a = Some o → ofn !! b = Some o → a = b.
Proof. intros (_ & Hnd & _). by apply NoDup_lookup. Qed.

Lemma Renamed_bwd ofn D' D o p :
  Renamed ofn D' D → D !! o = Some p → ∃ k, ofn !! k = Some o ∧ D' !! k = Some p.
Proof.
  intros (H2 & Hnd & Hl) Ho.
  assert (ofn ≡ₚ seq 0 (length D)) as Hperm.
  { apply submseteq_length_Permutation; [|rewrite length_seq; lia].
    apply NoDup_submseteq; [done|]. intros x [k Hk]%list_elem_of_lookup.
    destruct (Forall2_lookup_r _ _ _ _ _ H2 Hk) as (p' & _ & Hp').
    apply elem_of_seq. apply lookup_lt_Some in Hp'. lia. }
  assert (o ∈ ofn) as [k Hk]%list_elem_of_lookup.
  { rewrite Hperm. apply elem_of_seq. apply lookup_lt_Some in Ho. lia. }
  exists k. split; [done|].
  destruct (Forall2_lookup_r _ _ _ _ _ H2 Hk) as (p' & Hk' & Hp'). congruence.
Qed.

Lemma Hit_fwd ofnQ ofnR Q' Q R' R range same i' j' (d : Dist) :
  Renamed ofnQ Q' Q → Renamed ofnR R' R → (same = true → ofnQ = ofnR) →
  Hit R' Q' range same i' j' d →
  ∃ i j, ofnQ !! i' = Some i ∧ ofnR !! j' = Some j ∧ Hit R Q range same i j d.
Proof.
  intros HQ HR Hsame (q & p & Hq & Hp & -> & Hc & Hs).
  destruct (Renamed_fwd _ _ _ _ _ HQ Hq) as (i & Hi & Hqi).
  destruct (Renamed_fwd _ _ _ _ _ HR Hp) as (j & Hj & Hpj).
  exists i, j. split; [done|]. split; [done|]. exists q, p.
  repeat split; try done.
  destruct same; [|done]. simpl in *. rewrite Hsame in Hi by done.
  apply bool_decide_eq_false. intros ->.
  apply bool_decide_eq_false in Hs. apply Hs. by eapply Renamed_inj.
Qed.

Lemma Hit_bwd ofnQ ofnR Q' Q R' R range same i j (d : Dist) :
  Renamed ofnQ Q' Q → Renamed ofnR R' R → (same = true → ofnQ = ofnR) →
  Hit R Q range same i j d →
  ∃ i' j', ofnQ !! i' = Some i ∧ ofnR !! j' = Some j ∧ Hit R' Q' range same i' j' d.
Proof.
  intros HQ HR Hsame (q & p & Hq & Hp & -> & Hc & Hs).
  destruct (Renamed_bwd _ _ _ _ _ HQ Hq) as (i' & Hi & Hqi).
  destruct (Renamed_bwd _ _ _ _ _ HR Hp) as (j' & Hj & Hpj).
  exists i', j'. split; [done|]. split; [done|]. exists q, p.
  repeat split; try done.
  destruct same; [|done]. simpl in *. rewrite Hsame in Hi by done.
  apply bool_decide_eq_false. intros ->.
  apply bool_decide_eq_false in Hs. apply Hs. congruence.
Qed.

Lemma Hit_lt R Q range same i j (d : Dist) :
  Hit R Q range same i j d → i < length Q ∧ j < length R.
Proof.
  intros (q & p & Hq & Hp & _). split; by eapply lookup_lt_Some.
Qed.

Lemma Result_rows R Q range same out i ns :
  Result R Q range same out → out.1 !! i = Some ns →
  ∃ ds, out.2 !! i = Some ds ∧ Forall2 (Hit R Q range same i) ns ds.
Proof.
  intros (HlN & HlD & Hres) Hns.
  destruct (lookup_lt_is_Some_2 out.2 i) as [ds Hds].
  { apply lookup_lt_Some in Hns. lia. }
  exists ds. split; [done|]. by eapply Hres.
Qed.

Lemma Result_Mappable R Q range same out ofn :
  Result R Q range same out → length ofn = length R →
  Mappable ofn out.1 out.2.
Proof.
  intros Hres Hl i ns ds Hns Hds.
  destruct (Result_rows _ _ _ _ _ _ _ Hres Hns) as (ds' & Hds' & H2).
  assert (ds' = ds) as -> by congruence.
  split; [by eapply Forall2_length|].
  eapply Forall2_Forall_l; [exact H2|]. apply Forall_forall.
  intros d _ j Hhit. apply Hit_lt in Hhit. lia.
Qed.

Lemma Result_rows_lt R Q range same out ofn :
  Result R Q range same out → length ofn = length R →
  Forall (Forall (λ r, r < length ofn)) out.1.
Proof.
  intros Hres Hl. apply Forall_forall. intros ns [i Hns]%list_elem_of_lookup.
  destruct (Result_rows _ _ _ _ _ _ _ Hres Hns) as (ds & Hds & H2).
  by destruct (Result_Mappable _ _ _ _ _ ofn Hres Hl i ns ds).
Qed.

(** Reference indices only. *)
Lemma Result_mapped ofnR R' R Q range out :
  Renamed ofnR R' R → Result R' Q range false out →
  Result R Q range false (mapped ofnR <$> out.1, out.2).
Proof.
  intros HR Hres. pose proof Hres as (HlN & HlD & _).
  unfold Result; simpl.
  split; [by rewrite length_fmap|]. split; [done|].
  intros i ns' ds. rewrite list_lookup_fmap.
  destruct (out.1 !! i) as [ns|] eqn:Hns; [|done]. intros [= <-] Hds.
  destruct (Result_rows _ _ _ _ _ _ _ Hres Hns) as (ds' & Hds' & H2).
  assert (ds' = ds) as -> by congruence.
  apply Forall2_fmap_l. eapply Forall2_impl; [exact H2|]. simpl.
  intros j' d (q & p & Hq & Hp & -> & Hc & Hs).
  destruct (Renamed_fwd _ _ _ _ _ HR Hp) as (j & Hj & Hpj).
  rewrite Hj. simpl. by exists q, p.
Qed.

Lemma Complete_mapped ofnR R' R Q range out :
  Renamed ofnR R' R → Complete R' Q range false out →
  Complete R Q range false (mapped ofnR <$> out.1, out.2).
Proof.
  intros HR Hcomp i j d (q & p & Hq & Hp & -> & Hc & Hs).
  destruct (Renamed_bwd _ _ _ _ _ HR Hp) as (j' & Hj & Hpj).
  destruct (Hcomp i j' (Evaluate q p)) as (ns & Hns & Hin); [by exists q, p|].
  exists (mapped ofnR ns). simpl. rewrite list_lookup_fmap, Hns. split; [done|].
  apply list_elem_of_fmap. exists j'. by rewrite Hj.
Qed.

(** Query and reference indices. *)
Lemma scattered_rows ofnQ ofnR Q' Q out i' i :
  Renamed ofnQ Q' Q → length out.1 = length Q' → length out.2 = length Q' →
  ofnQ !! i' = Some i →
  ∃ ns ds, out.1 !! i' = Some ns ∧ out.2 !! i' = Some ds ∧
    scatter (ofnQ !!.) (λ k, mapped ofnR <$> out.1 !! k)
      (seq 0 (length Q)) (replicate (length Q) []) !! i = Some (mapped ofnR ns) ∧
    scatter (ofnQ !!.) (out.2 !!.)
      (seq 0 (length Q)) (replicate (length Q) []) !! i = Some ds.
Proof.
  intros HQ HlN HlD Hi.
  destruct (Renamed_length _ _ _ HQ) as [Hl1 Hl2].
  assert (i' < length Q) as Hi' by (apply lookup_lt_Some in Hi; lia).
  destruct (lookup_lt_is_Some_2 out.1 i') as [ns Hns]; [lia|].
  destruct (lookup_lt_is_Some_2 out.2 i') as [ds Hds]; [lia|].
  destruct (lookup_lt_is_Some_2 Q' i') as [p Hp]; [lia|].
  destruct (Renamed_fwd _ _ _ _ _ HQ Hp) as (i2 & Hi2 & Hlt%lookup_lt_Some).
  assert (i2 = i) as -> by congruence.
  exists ns, ds. split; [done|]. split; [done|].
  split; apply scatter_lookup with (i := i'); try done;
    try (apply elem_of_seq; lia); try (by rewrite length_replicate);
    try (by rewrite Hns); intros k _ Hk; by eapply Renamed_inj.
Qed.

Lemma Result_scattered ofnQ ofnR Q' Q R' R range same out :
  Renamed ofnQ Q' Q → Renamed ofnR R' R → (same = true → ofnQ = ofnR) →
  Result R' Q' range same out →
  Result R Q range same
    (scatter (ofnQ !!.) (λ k, mapped ofnR <$> out.1 !! k)
       (seq 0 (length Q)) (replicate (length Q) []),
     scatter (ofnQ !!.) (out.2 !!.) (seq 0 (length Q)) (replicate (length Q) [])).
Proof.
  intros HQ HR Hsame Hres. pose proof Hres as (HlN & HlD & Hrows).
  unfold Result; simpl.
  split; [by rewrite length_scatter, length_replicate|].
  split; [by rewrite length_scatter, length_replicate|].
  intros i ns' ds' Hns' Hds'.
  assert (i < length Q) as Hi.
  { apply lookup_lt_Some in Hns'.
    by rewrite length_scatter, length_replicate in Hns'. }
  destruct (lookup_lt_is_Some_2 Q i Hi) as [p Hp].
  destruct (Renamed_bwd _ _ _ _ _ HQ Hp) as (i' & Hi' & Hp').
  destruct (scattered_rows ofnQ ofnR Q' Q out i' i HQ HlN HlD Hi')
    as (ns & ds & Hns & Hds & HN & HD).
  rewrite HN in Hns'. rewrite HD in Hds'. simplify_eq.
  apply Forall2_fmap_l. eapply Forall2_impl; [by eapply Hrows|]. simpl.
  intros j' d Hhit.
  destruct (Hit_fwd _ _ _ _ _ _ _ _ _ _ _ HQ HR Hsame Hhit) as (i2 & j & E1 & E2 & H).
  rewrite E2. simpl. congruence.
Qed.

Lemma Complete_scattered ofnQ ofnR Q' Q R' R range same out :
  Renamed ofnQ Q' Q → Renamed ofnR R' R → (same = true → ofnQ = ofnR) →
  length out.1 = length Q' → length out.2 = length Q' →
  Complete R' Q' range same out →
  Complete R Q range same
    (scatter (ofnQ !!.) (λ k, mapped ofnR <$> out.1 !! k)
       (seq 0 (length Q)) (replicate (length Q) []),
     scatter (ofnQ !!.) (out.2 !!.) (seq 0 (length Q)) (replicate (length Q) [])).
Proof.
  intros HQ HR Hsame HlN HlD Hcomp i j d Hhit.
  destruct (Hit_bwd _ _ _ _ _ _ _ _ _ _ _ HQ HR Hsame Hhit) as (i' & j' & E1 & E2 & H).
  destruct (Hcomp i' j' d H) as (ns & Hns & Hin).
  destruct (scattered_rows ofnQ ofnR Q' Q out i' i HQ HlN HlD E1)
    as (ns2 & ds & Hns2 & Hds & HN & HD).
  assert (ns2 = ns) as -> by congruence.
  exists (mapped ofnR ns). split; [done|].
  apply list_elem_of_fmap. exists j'. by rewrite E2.
Qed.

End Renaming.

(** ** The phases of [Search] *)

Section Phases.
Context {Point Dist : Type}.
Context `{!Scalar Dist, !MetricType Point Dist, !TreeType Point Dist}.
Implicit Types (m : Mem Point Dist Bound) (rs : RangeSearch Point).
Implicit Types (Q R : list Point) (range : Range Dist).
Implicit Types (out : list (list nat) * list (list Dist)).

Lemma Search_phases rs Q range m :
  Search rs Q range m =
  ('(ofnQ, Q') ← Search_traversal rs (neighbor_ptr rs) (distance_ptr rs) Q range;
   Search_mapping rs (neighbor_ptr rs) (distance_ptr rs) ofnQ (length Q') ;;
   mret Q')
    (writeOut (neighbor_ptr rs) (distance_ptr rs) (init (length Q)) m).
Proof.
  unfold Search, neighbor_ptr, distance_ptr.
  destruct (RearrangesDataset && (negb (singleMode rs) && negb (naive rs)));
    destruct (RearrangesDataset && treeOwner rs); reflexivity.
Qed.

Lemma fresh_tree_free m : trees m !! fresh (dom (trees m)) = None.
Proof. apply not_elem_of_dom, is_fresh. Qed.

Lemma writeOut_scratch_tree np dp out a (t : Tree Point Bound) m :
  trees m !! a = None →
  set_trees (delete a) (writeOut np dp out (set_trees (insert a t) m)) =
  writeOut np dp out m.
Proof.
  intros Hfree. destruct m as [tr N D tN tD]; simpl in *.
  destruct np, dp; simpl; unfold set_trees; simpl;
    by rewrite delete_insert_eq, delete_id.
Qed.

Lemma traversal_naive rs np dp Q range m ns ds out :
  naive rs = true →
  readN np m = Some ns → readD dp m = Some ds →
  BaseCases {| r_referenceSet := referenceSet rs; r_querySet := Q;
               r_range := range; r_sameSet := false |}
    (naive_pairs (length Q) (length (referenceSet rs))) (ns, ds) = Some out →
  Search_traversal rs np dp Q range m = Returned ([], Q) (writeOut np dp out m).
Proof.
  intros Hn HN HD Hrun. unfold Search_traversal. rewrite Hn.
  by rewrite (bind_returned _ _ _ _ _
    (naive_loops_runs (trees m) np dp _ _ _ m ns ds out eq_refl HN HD Hrun)).
Qed.

Lemma traversal_single rs np dp Q range m ns ds out a t :
  naive rs = false → singleMode rs = true →
  referenceTree rs = Some a → trees m !! a = Some t →
  readN np m = Some ns → readD dp m = Some ds →
  BaseCases {| r_referenceSet := referenceSet rs; r_querySet := Q;
               r_range := range; r_sameSet := false |}
    (single_pairs range Q (root t)) (ns, ds) = Some out →
  Search_traversal rs np dp Q range m = Returned ([], Q) (writeOut np dp out m).
Proof.
  intros Hn Hs Ha Ht HN HD Hrun. unfold Search_traversal. rewrite Hn, Hs, Ha.
  by rewrite (bind_returned _ _ _ _ _
    (single_loop_runs (trees m) np dp
       {| r_referenceSet := referenceSet rs; r_querySet := Q;
          r_range := range; r_sameSet := false |} a t Ht
       m ns ds out eq_refl HN HD Hrun)).
Qed.

Lemma traversal_dual rs np dp Q range m ns ds out a t :
  naive rs = false → singleMode rs = false →
  referenceTree rs = Some a → trees m !! a = Some t →
  (RearrangesDataset = true → built_dataset (TreeCtorMapping Q) = Q) →
  readN np m = Some ns → readD dp m = Some ds →
  BaseCases {| r_referenceSet := referenceSet rs;
               r_querySet := Dataset (builtTree Q);
               r_range := range; r_sameSet := false |}
    (dual_visited range (root (builtTree Q)) (root t)) (ns, ds) = Some out →
  Search_traversal rs np dp Q range m =
  Returned (builtMap Q, Q) (writeOut np dp out m).
Proof.
  intros Hn Hs Ha Ht Hframe HN HD Hrun. unfold Search_traversal.
  rewrite Hn, Hs, Ha.
  set (a' := fresh (dom (trees m))).
  pose proof (fresh_tree_free m) as Hfree. fold a' in Hfree.
  assert (a ≠ a') as Hne by (intros ->; congruence).
  set (m1 := set_trees (insert a' (builtTree Q)) m).
  assert (BuildTree Q [] m = Returned (a', builtMap Q, Q) m1) as Hbuild.
  { unfold m1, a', BuildTree, builtTree, builtMap, new_tree.
    destruct RearrangesDataset; rewrite bind_eval; simpl; [|done].
    by rewrite Hframe. }
  rewrite (bind_returned _ _ _ _ _ Hbuild).
  rewrite (bind_returned _ _ _ _ _ (deref_tree_live a' (builtTree Q) m1
    ltac:(apply lookup_insert_eq))).
  rewrite (bind_returned _ _ _ _ _ (deref_tree_live a t m1
    ltac:(simpl; by rewrite lookup_insert_ne))).
  rewrite (bind_returned _ _ _ _ _
    (dual_runs (trees m1) np dp _ _ _ m1 ns ds out eq_refl
       ltac:(by destruct np) ltac:(by destruct dp) Hrun)).
  unfold delete_tree. rewrite bind_eval.
  rewrite trees_writeOut. simpl. rewrite lookup_insert_eq.
  unfold m1. by rewrite writeOut_scratch_tree.
Qed.

Lemma traversal_naive_init rs np dp Q range m out :
  naive rs = true →
  BaseCases {| r_referenceSet := referenceSet rs; r_querySet := Q;
               r_range := range; r_sameSet := false |}
    (naive_pairs (length Q) (length (referenceSet rs))) (init (length Q))
    = Some out →
  Search_traversal rs np dp Q range (writeOut np dp (init (length Q)) m) =
  Returned ([], Q) (writeOut np dp out m).
Proof.
  intros Hn Hrun.
  rewrite (traversal_naive rs np dp Q range _ _ _ out Hn
    (readN_writeOut np dp (init (length Q)) m)
    (readD_writeOut np dp (init (length Q)) m) Hrun).
  by rewrite writeOut_writeOut.
Qed.

Lemma traversal_single_init rs np dp Q range m out a t :
  naive rs = false → singleMode rs = true →
  referenceTree rs = Some a → trees m !! a = Some t →
  BaseCases {| r_referenceSet := referenceSet rs; r_querySet := Q;
               r_range := range; r_sameSet := false |}
    (single_pairs range Q (root t)) (init (length Q)) = Some out →
  Search_traversal rs np dp Q range (writeOut np dp (init (length Q)) m) =
  Returned ([], Q) (writeOut np dp out m).
Proof.
  intros Hn Hs Ha Ht Hrun.
  rewrite (traversal_single rs np dp Q range _ _ _ out a t Hn Hs Ha
    ltac:(by rewrite trees_writeOut)
    (readN_writeOut np dp (init (length Q)) m)
    (readD_writeOut np dp (init (length Q)) m) Hrun).
  by rewrite writeOut_writeOut.
Qed.

Lemma traversal_dual_init rs np dp Q range m out a t :
  naive rs = false → singleMode rs = false →
  referenceTree rs = Some a → trees m !! a = Some t →
  (RearrangesDataset = true → built_dataset (TreeCtorMapping Q) = Q) →
  BaseCases {| r_referenceSet := referenceSet rs;
               r_querySet := Dataset (builtTree Q);
               r_range := range; r_sameSet := false |}
    (dual_visited range (root (builtTree Q)) (root t))
    (init (length (Dataset (builtTree Q)))) = Some out →
  length (Dataset (builtTree Q)) = length Q →
  Search_traversal rs np dp Q range (writeOut np dp (init (length Q)) m) =
  Returned (builtMap Q, Q) (writeOut np dp out m).
Proof.
  intros Hn Hs Ha Ht Hframe Hrun Hlen. rewrite Hlen in Hrun.
  rewrite (traversal_dual rs np dp Q range _ _ _ out a t Hn Hs Ha
    ltac:(by rewrite trees_writeOut) Hframe
    (readN_writeOut np dp (init (length Q)) m)
    (readD_writeOut np dp (init (length Q)) m) Hrun).
  by rewrite writeOut_writeOut.
Qed.

End Phases.

(** ** What the three strategies compute *)

Section Strategies.
Context {Point Dist : Type}.
Context `{!Scalar Dist, !MetricType Point Dist, !TreeType Point Dist}.
Implicit Types (Q R : list Point) (range : Range Dist) (same : bool).
Implicit Types (out : list (list nat) * list (list Dist)).

Lemma run_from_init rules pairs :
  InBounds rules pairs →
  ∃ out, BaseCases rules pairs (init (length (r_querySet rules))) = Some out ∧
         ResultOf rules out ∧
         ∀ i j, Found out i j ↔ (i, j) ∈ pairs ∧ ∃ d, HitOf rules i j d.
Proof.
  intros Hb.
  destruct (BaseCases_spec rules pairs _ (Result_init _ _ _ _) Hb)
    as (out & E & Hres & Hf).
  exists out. split; [done|]. split; [done|]. intros i j. rewrite Hf.
  split; [|by right]. intros [H|H]; [|done]. by apply Found_init in H.
Qed.

Lemma elem_of_naive_pairs nq nr i j :
  (i, j) ∈ naive_pairs nq nr ↔ i < nq ∧ j < nr.
Proof.
  unfold naive_pairs. rewrite list_elem_of_bind. split.
  - intros (i' & [j' [[= -> ->] Hj]]%list_elem_of_fmap & Hi).
    apply elem_of_seq in Hj, Hi. lia.
  - intros [Hi Hj]. exists i. split; [|apply elem_of_seq; lia].
    apply list_elem_of_fmap_2, elem_of_seq. lia.
Qed.

Lemma internal_naive R Q range same :
  ∃ out, BaseCases {| r_referenceSet := R; r_querySet := Q;
                      r_range := range; r_sameSet := same |}
           (naive_pairs (length Q) (length R)) (init (length Q)) = Some out ∧
         Result R Q range same out ∧ Complete R Q range same out.
Proof.
  set (rules := {| r_referenceSet := R; r_querySet := Q;
                   r_range := range; r_sameSet := same |}).
  destruct (run_from_init rules (naive_pairs (length Q) (length R)))
    as (out & E & Hres & Hf).
  { apply Forall_forall. intros [i j] H%elem_of_naive_pairs. done. }
  exists out. split; [done|]. split; [done|].
  intros i j d Hhit. apply Hf. split; [|by exists d].
  apply elem_of_naive_pairs. by eapply Hit_lt.
Qed.

Lemma elem_of_single_pairs range Q (node : Node Bound) i j :
  (i, j) ∈ single_pairs range Q node ↔
  ∃ q, Q !! i = Some q ∧ j ∈ single_visited range q node.
Proof.
  unfold single_pairs. rewrite list_elem_of_bind. split.
  - intros (i' & H & Hi). destruct (Q !! i') as [q|] eqn:Hq.
    + apply list_elem_of_fmap in H as [j' [[= -> ->] Hj]]. eauto.
    + by apply elem_of_nil in H.
  - intros (q & Hq & Hj). exists i. rewrite Hq. split.
    + by apply list_elem_of_fmap_2.
    + apply elem_of_seq. apply lookup_lt_Some in Hq. lia.
Qed.

Lemma internal_single R Q range same (node : Node Bound) :
  Forall (λ j, j < length R) (NodePoints node) →
  ∃ out, BaseCases {| r_referenceSet := R; r_querySet := Q;
                      r_range := range; r_sameSet := same |}
           (single_pairs range Q node) (init (length Q)) = Some out ∧
         Result R Q range same out ∧
         (DlebTransitive (Dist:=Dist) →
          Forall (λ q, point_bounds R q node = true) Q →
          Forall (λ j, j ∈ NodePoints node) (seq 0 (length R)) →
          Complete R Q range same out).
Proof.
  intros Hin.
  set (rules := {| r_referenceSet := R; r_querySet := Q;
                   r_range := range; r_sameSet := same |}).
  destruct (run_from_init rules (single_pairs range Q node))
    as (out & E & Hres & Hf).
  { apply Forall_forall. intros [i j] (q & Hq & Hj)%elem_of_single_pairs. simpl.
    split; [by eapply lookup_lt_Some|].
    apply single_visited_sub in Hj.
    by apply (proj1 (Forall_forall _ _) Hin). }
  exists out. split; [done|]. split; [done|].
  intros Htrans Hbounds Hcover i j d Hhit. apply Hf. split; [|by exists d].
  destruct Hhit as (q & p & Hq & Hp & -> & Hc & _).
  apply elem_of_single_pairs. exists q. split; [done|].
  eapply single_visited_complete; try done.
  - eapply (proj1 (Forall_forall _ _) Hbounds). by eapply list_elem_of_lookup_2.
  - eapply (proj1 (Forall_forall _ _) Hcover). apply elem_of_seq.
    apply lookup_lt_Some in Hp. lia.
Qed.

Lemma internal_dual R Q range same (qn rn : Node Bound) :
  Forall (λ i, i < length Q) (NodePoints qn) →
  Forall (λ j, j < length R) (NodePoints rn) →
  ∃ out, BaseCases {| r_referenceSet := R; r_querySet := Q;
                      r_range := range; r_sameSet := same |}
           (dual_visited range qn rn) (init (length Q)) = Some out ∧
         Result R Q range same out ∧
         (DlebTransitive (Dist:=Dist) →
          node_bounds Q R qn rn = true →
          Forall (λ i, i ∈ NodePoints qn) (seq 0 (length Q)) →
          Forall (λ j, j ∈ NodePoints rn) (seq 0 (length R)) →
          Complete R Q range same out).
Proof.
  intros HinQ HinR.
  set (rules := {| r_referenceSet := R; r_querySet := Q;
                   r_range := range; r_sameSet := same |}).
  destruct (run_from_init rules (dual_visited range qn rn))
    as (out & E & Hres & Hf).
  { apply Forall_forall. intros [i j] [Hi Hj]%dual_visited_sub. simpl. split.
    - by apply (proj1 (Forall_forall _ _) HinQ).
    - by apply (proj1 (Forall_forall _ _) HinR). }
  exists out. split; [done|]. split; [done|].
  intros Htrans Hbounds HcoverQ HcoverR i j d Hhit.
  apply Hf. split; [|by exists d].
  destruct Hhit as (q & p & Hq & Hp & -> & Hc & _).
  eapply dual_visited_complete; try done.
  - eapply (proj1 (Forall_forall _ _) HcoverQ). apply elem_of_seq.
    apply lookup_lt_Some in Hq. lia.
  - eapply (proj1 (Forall_forall _ _) HcoverR). apply elem_of_seq.
    apply lookup_lt_Some in Hp. lia.
Qed.

End Strategies.

(** ** The three overloads of [Search] *)

Section Overloads.
Context {Point Dist : Type}.
Context `{!Scalar Dist, !MetricType Point Dist, !TreeType Point Dist}.
Implicit Types (m : Mem Point Dist Bound) (rs : RangeSearch Point).
Implicit Types (Q R : list Point) (range : Range Dist).
Implicit Types (out : list (list nat) * list (list Dist)).


(** [Search(querySet, ...)] in naive mode. *)
Lemma Search_naive_spec tr R Q range :
  let rs := {| oldFromNewReferences := []; referenceTree := None;
               referenceSet := R; treeOwner := false;
               naive := true; singleMode := false |} in
  ∃ out, Result R Q range false out ∧ Complete R Q range false out ∧
    ∀ m, trees m = tr →
      ∃ m', Search rs Q range m = Returned Q m' ∧ trees m' = tr ∧
            neighbors m' = out.1 ∧ distances m' = out.2.
Proof.
  intros rs. destruct (internal_naive R Q range false) as (out & E & Hres & Hcomp).
  exists out. split; [done|]. split; [done|]. intros m Htr.
  rewrite Search_phases.
  assert (neighbor_ptr rs = CallerBuf) as ->.
  { unfold neighbor_ptr. simpl. by rewrite andb_false_r. }
  assert (distance_ptr rs = CallerBuf) as ->.
  { unfold distance_ptr. simpl. by rewrite andb_false_r. }
  rewrite (bind_returned _ _ _ _ _ (traversal_naive_init rs _ _ Q range
    m out eq_refl E)).
  unfold Search_mapping. simpl.
  eexists. split; [by destruct RearrangesDataset|]. done.
Qed.

Lemma Renamed_bound (ofn : list nat) (D' D : list Point) :
  Renamed ofn D' D → Forall (λ o, o < length D) ofn.
Proof.
  intros (H2 & _ & _). apply Forall_forall. intros o [k Hk]%list_elem_of_lookup.
  destruct (Forall2_lookup_r _ _ _ _ _ H2 Hk) as (p & _ & Hp).
  by eapply lookup_lt_Some.
Qed.

(** [Search(querySet, ...)] in single-tree mode. *)
Lemma Search_single_spec tr R Q range a t ofn owner :
  tr !! a = Some t → TreeOK t →
  (if owner && RearrangesDataset then Renamed ofn (Dataset t) R else Dataset t = R) →
  let rs := {| oldFromNewReferences := ofn; referenceTree := Some a;
               referenceSet := Dataset t; treeOwner := owner;
               naive := false; singleMode := true |} in
  ∃ N D, Result R Q range false (N, D) ∧
    (DlebTransitive (Dist:=Dist) →
     Forall (λ q, point_bounds (Dataset t) q (root t) = true) Q →
     Complete R Q range false (N, D)) ∧
    ∀ m, trees m = tr →
      ∃ m', Search rs Q range m = Returned Q m' ∧ trees m' = tr ∧
            neighbors m' = N ∧ distances m' = D.
Proof.
  intros Ht [Hin Hcover] Hview rs.
  destruct (internal_single (Dataset t) Q range false (root t) Hin)
    as (out & E & Hres & Hcomp).
  assert (distance_ptr rs = CallerBuf) as Hdp.
  { unfold distance_ptr. simpl. by rewrite andb_false_r. }
  destruct (owner && RearrangesDataset) eqn:Hmode.
  - apply andb_true_iff in Hmode as [-> HR].
    destruct (Renamed_length _ _ _ Hview) as [Hl1 Hl2].
    exists (mapped ofn <$> out.1), out.2.
    split; [by apply (Result_mapped ofn (Dataset t))|].
    split. { intros ??. apply (Complete_mapped ofn (Dataset t)); auto. }
    intros m Htr. rewrite Search_phases, Hdp.
    assert (neighbor_ptr rs = TempBuf) as ->.
    { unfold neighbor_ptr. simpl. by rewrite HR. }
    rewrite (bind_returned _ _ _ _ _ (traversal_single_init rs _ _ Q range
      m out a t eq_refl eq_refl eq_refl ltac:(by rewrite Htr) E)).
    unfold Search_mapping. simpl. rewrite HR. rewrite bind_eval.
    erewrite remap_references_run;
      [by eexists|reflexivity|exact (proj1 Hres)|].
    eapply Result_rows_lt; [exact Hres|]. simpl. lia.
  - exists out.1, out.2. rewrite <- surjective_pairing. subst R.
    split; [done|]. split; [auto|].
    intros m Htr. rewrite Search_phases, Hdp.
    assert (neighbor_ptr rs = CallerBuf) as ->.
    { unfold neighbor_ptr. simpl. by rewrite andb_comm, Hmode. }
    rewrite (bind_returned _ _ _ _ _ (traversal_single_init rs _ _ Q range
      m out a t eq_refl eq_refl eq_refl ltac:(by rewrite Htr) E)).
    unfold Search_mapping. simpl.
    destruct RearrangesDataset; [|by eexists].
    rewrite andb_true_r in Hmode. subst owner. by eexists.
Qed.

(** [Search(querySet, ...)] in dual-tree mode, except on a borrowed tree of
    a type that rearranges. *)
Lemma Search_dual_spec tr R Q range a t ofn owner :
  tr !! a = Some t → TreeOK t → BuiltOK Q →
  (if owner && RearrangesDataset then Renamed ofn (Dataset t) R else Dataset t = R) →
  ¬ (RearrangesDataset = true ∧ owner = false) →
  let rs := {| oldFromNewReferences := ofn; referenceTree := Some a;
               referenceSet := Dataset t; treeOwner := owner;
               naive := false; singleMode := false |} in
  ∃ N D, Result R Q range false (N, D) ∧
    (DlebTransitive (Dist:=Dist) →
     node_bounds (Dataset (builtTree Q)) (Dataset t)
       (root (builtTree Q)) (root t) = true →
     Complete R Q range false (N, D)) ∧
    ∀ m, trees m = tr →
      ∃ m', Search rs Q range m = Returned Q m' ∧ trees m' = tr ∧
            neighbors m' = N ∧ distances m' = D.
Proof.
  intros Ht [Hin Hcover] [[HinQ HcoverQ] HB] Hview Hgood rs.
  destruct (internal_dual (Dataset t) (Dataset (builtTree Q)) range false
              (root (builtTree Q)) (root t) HinQ Hin)
    as (out & E & Hres & Hcomp).
  destruct RearrangesDataset eqn:HR.
  - destruct owner; [|by destruct Hgood]. simpl in Hview.
    destruct HB as [Hframe HQ].
    destruct (Renamed_length _ _ _ Hview) as [Hl1 Hl2].
    destruct (Renamed_length _ _ _ HQ) as [Hl3 Hl4].
    pose proof Hres as (HlN & HlD & _). simpl in HlN, HlD.
    eexists _, _. split.
    { by apply (Result_scattered (builtMap Q) ofn (Dataset (builtTree Q)) Q
                  (Dataset t) R range false out). }
    split.
    { intros ??.
      apply (Complete_scattered (builtMap Q) ofn (Dataset (builtTree Q)) Q
               (Dataset t) R range false out); auto; done. }
    intros m Htr. rewrite Search_phases.
    assert (neighbor_ptr rs = TempBuf) as ->.
    { unfold neighbor_ptr. simpl. by rewrite HR. }
    assert (distance_ptr rs = TempBuf) as ->.
    { unfold distance_ptr. simpl. by rewrite HR. }
    rewrite (bind_returned _ _ _ _ _ (traversal_dual_init rs _ _ Q range
      m out a t eq_refl eq_refl eq_refl ltac:(by rewrite Htr)
      (λ _, Hframe) E Hl3)).
    unfold Search_mapping. simpl. rewrite HR. rewrite bind_eval.
    erewrite remap_both_run;
      [by eexists|reflexivity|reflexivity|lia|lia|lia| |].
    + eapply Renamed_bound. exact HQ.
    + eapply Result_Mappable; [exact Hres|]. simpl. lia.
  - rewrite andb_false_r in Hview. subst R.
    exists out.1, out.2. rewrite <- surjective_pairing. rewrite HB in *.
    split; [done|]. split; [auto|].
    intros m Htr. rewrite Search_phases.
    assert (neighbor_ptr rs = CallerBuf) as ->.
    { unfold neighbor_ptr. simpl. by rewrite HR. }
    assert (distance_ptr rs = CallerBuf) as ->.
    { unfold distance_ptr. simpl. by rewrite HR. }
    rewrite (bind_returned _ _ _ _ _ (traversal_dual_init rs _ _ Q range
      m out a t eq_refl eq_refl eq_refl ltac:(by rewrite Htr)
      ltac:(by rewrite HR) ltac:(by rewrite HB) ltac:(by rewrite HB))).
    unfold Search_mapping. simpl. rewrite HR. by eexists.
Qed.

(** [Search(querySet, range, neighbors, distances)]: for an object the
    constructors make, outside the query-only mapping, the call returns,
    leaves the heap as it was, and the two buffers hold a result that does
    not depend on their earlier contents; with valid bounds the result is
    complete. *)
Theorem Search_spec tr R rs Q range :
  RefView tr R rs →
  (naive rs = false → singleMode rs = false → BuiltOK Q) →
  ¬ QueryOnlyMapping rs →
  ∃ N D, Result R Q range false (N, D) ∧
    (BoundsOK tr rs Q → Complete R Q range false (N, D)) ∧
    ∀ m, trees m = tr →
      ∃ m', Search rs Q range m = Returned Q m' ∧ trees m' = tr ∧
            neighbors m' = N ∧ distances m' = D.
Proof.
  intros Hview HB Hgood.
  destruct Hview as [|a t ofn single Ht Hok Hren|a t single Ht Hok Hren].
  - destruct (Search_naive_spec tr R Q range) as (out & H1 & H2 & H3).
    exists out.1, out.2. rewrite <- surjective_pairing. auto.
  - destruct single.
    + destruct (Search_single_spec tr R Q range a t ofn true Ht Hok Hren)
        as (N & D & H1 & H2 & H3).
      exists N, D. split; [done|]. split; [|done].
      intros Hb. destruct (Hb a t eq_refl Ht) as [Htrans Hbounds]. auto.
    + destruct (Search_dual_spec tr R Q range a t ofn true Ht Hok
                  (HB eq_refl eq_refl) Hren) as (N & D & H1 & H2 & H3).
      { by intros [_ ?]. }
      exists N, D. split; [done|]. split; [|done].
      intros Hb. destruct (Hb a t eq_refl Ht) as [Htrans Hbounds]. auto.
  - destruct single.
    + destruct (Search_single_spec tr R Q range a t [] false Ht Hok Hren)
        as (N & D & H1 & H2 & H3).
      exists N, D. split; [done|]. split; [|done].
      intros Hb. destruct (Hb a t eq_refl Ht) as [Htrans Hbounds]. auto.
    + destruct (Search_dual_spec tr R Q range a t [] false Ht Hok
                  (HB eq_refl eq_refl) Hren) as (N & D & H1 & H2 & H3).
      { intros [HR _]. apply Hgood. by repeat split. }
      exists N, D. split; [done|]. split; [|done].
      intros Hb. destruct (Hb a t eq_refl Ht) as [Htrans Hbounds]. auto.
Qed.

(** In the query-only mapping [Search] does not return. *)
Lemma Search_query_only rs Q range m Q' m' :
  QueryOnlyMapping rs → Search rs Q range m ≠ Returned Q' m'.
Proof.
  intros (HR & Hn & Hs & Ho) H. rewrite Search_phases in H.
  assert (neighbor_ptr rs = CallerBuf) as Hnp.
  { unfold neighbor_ptr. by rewrite Ho, andb_false_r. }
  rewrite Hnp in H.
  apply bind_returned_inv in H as ([ofnQ Q2] & m1 & _ & H).
  apply bind_returned_inv in H as (? & m2 & H & _).
  unfold Search_mapping in H. rewrite HR, Hn, Hs, Ho in H. simpl in H.
  by apply remap_queries_caller in H.
Qed.

Lemma Search_tree_phases rs qa qt range m :
  trees m !! qa = Some qt → naive rs = false → singleMode rs = false →
  let np := if treeOwner rs && RearrangesDataset then TempBuf else CallerBuf in
  Search_tree rs (Some qa) range m =
  (rt ← deref_tree (referenceTree rs);
   with_rules np CallerBuf
     (DualTraverse {| r_referenceSet := referenceSet rs;
                      r_querySet := Dataset qt;
                      r_range := range; r_sameSet := false |}
        (root qt) (root rt)) ;;
   if treeOwner rs && RearrangesDataset
   then remap_references np (oldFromNewReferences rs) (length (Dataset qt))
   else mret tt)
    (writeOut np CallerBuf (init (length (Dataset qt))) m).
Proof.
  intros Hq Hn Hs. unfold Search_tree.
  rewrite (bind_returned _ _ _ _ _ (deref_tree_live qa qt m Hq)).
  rewrite Hn, Hs. simpl.
  destruct (treeOwner rs && RearrangesDataset); reflexivity.
Qed.

(** [Search(queryTree, range, neighbors, distances)] in dual-tree mode. *)
Theorem Search_tree_spec tr R rs qa qt range :
  RefView tr R rs → naive rs = false → singleMode rs = false →
  tr !! qa = Some qt → TreeOK qt →
  ∃ N D, Result R (Dataset qt) range false (N, D) ∧
    (TreeBoundsOK tr rs qt → Complete R (Dataset qt) range false (N, D)) ∧
    ∀ m, trees m = tr →
      ∃ m', Search_tree rs (Some qa) range m = Returned tt m' ∧ trees m' = tr ∧
            neighbors m' = N ∧ distances m' = D.
Proof.
  intros Hview Hn Hs Hq [HinQ HcoverQ].
  assert (∃ a t ofn owner single,
    rs = {| oldFromNewReferences := ofn; referenceTree := Some a;
            referenceSet := Dataset t; treeOwner := owner;
            naive := false; singleMode := single |} ∧
    tr !! a = Some t ∧ TreeOK t ∧
    if owner && RearrangesDataset then Renamed ofn (Dataset t) R
    else Dataset t = R) as (a & t & ofn & owner & single & -> & Ht & Hok & Hren).
  { destruct Hview as [|a t ofn single Ht Hok Hren|a t single Ht Hok Hren];
      [done| |]; eexists a, t, _, _, _; eauto. }
  simpl in Hs. subst single. destruct Hok as [Hin Hcover].
  set (rs := {| oldFromNewReferences := ofn; referenceTree := Some a;
                referenceSet := Dataset t; treeOwner := owner;
                naive := false; singleMode := false |}).
  destruct (internal_dual (Dataset t) (Dataset qt) range false
              (root qt) (root t) HinQ Hin) as (out & E & Hres & Hcomp).
  assert (∀ np m,
    with_rules np CallerBuf
      (DualTraverse {| r_referenceSet := Dataset t; r_querySet := Dataset qt;
                       r_range := range; r_sameSet := false |}
         (root qt) (root t))
      (writeOut np CallerBuf (init (length (Dataset qt))) m) =
    Returned tt (writeOut np CallerBuf out m)) as Hrun.
  { intros np m.
    rewrite (dual_runs _ np CallerBuf _ _ _ _ _ _ out eq_refl
      (readN_writeOut np CallerBuf (init (length (Dataset qt))) m)
      (readD_writeOut np CallerBuf (init (length (Dataset qt))) m) E).
    by rewrite writeOut_writeOut. }
  destruct (owner && RearrangesDataset) eqn:Hmode.
  - destruct (Renamed_length _ _ _ Hren) as [Hl1 Hl2].
    exists (mapped ofn <$> out.1), out.2.
    split; [by apply (Result_mapped ofn (Dataset t))|].
    split.
    { intros Hb. destruct (Hb a t eq_refl Ht) as [Htrans Hbounds].
      apply (Complete_mapped ofn (Dataset t)); auto. }
    intros m Htr.
    rewrite (Search_tree_phases rs qa qt range m) by (by rewrite ?Htr).
    unfold rs. cbn [treeOwner referenceTree referenceSet oldFromNewReferences].
    rewrite Hmode.
    rewrite (bind_returned _ _ _ _ _ (deref_tree_live a t _
      ltac:(by rewrite trees_writeOut, Htr))).
    rewrite (bind_returned _ _ _ _ _ (Hrun TempBuf m)).
    erewrite remap_references_run;
      [by eexists|reflexivity|exact (proj1 Hres)|].
    eapply Result_rows_lt; [exact Hres|]. simpl. lia.
  - subst R. exists out.1, out.2. rewrite <- surjective_pairing.
    split; [done|]. split.
    { intros Hb. destruct (Hb a t eq_refl Ht) as [Htrans Hbounds]. auto. }
    intros m Htr.
    rewrite (Search_tree_phases rs qa qt range m) by (by rewrite ?Htr).
    unfold rs. cbn [treeOwner referenceTree referenceSet oldFromNewReferences].
    rewrite Hmode.
    rewrite (bind_returned _ _ _ _ _ (deref_tree_live a t _
      ltac:(by rewrite trees_writeOut, Htr))).
    rewrite (bind_returned _ _ _ _ _ (Hrun CallerBuf m)).
    by eexists.
Qed.

Lemma Search_self_phases rs range m :
  let p := if RearrangesDataset && treeOwner rs then TempBuf else CallerBuf in
  Search_self rs range m =
  (Search_self_traversal rs p p range ;;
   if treeOwner rs && RearrangesDataset
   then remap_both p p (oldFromNewReferences rs) (oldFromNewReferences rs)
          (length (referenceSet rs))
   else mret tt)
    (writeOut p p (init (length (referenceSet rs))) m).
Proof.
  unfold Search_self. destruct (RearrangesDataset && treeOwner rs); reflexivity.
Qed.

Lemma self_traversal_tree tr a t ofn owner single range :
  tr !! a = Some t → TreeOK t →
  let rs := {| oldFromNewReferences := ofn; referenceTree := Some a;
               referenceSet := Dataset t; treeOwner := owner;
               naive := false; singleMode := single |} in
  ∃ out, Result (Dataset t) (Dataset t) range true out ∧
    (TraversalBounds rs t (Dataset t) (Dataset t) (root t) →
     Complete (Dataset t) (Dataset t) range true out) ∧
    ∀ p m, trees m = tr →
      Search_self_traversal rs p p range
        (writeOut p p (init (length (Dataset t))) m) =
      Returned tt (writeOut p p out m).
Proof.
  intros Ht [Hin Hcover] rs. destruct single.
  - destruct (internal_single (Dataset t) (Dataset t) range true (root t) Hin)
      as (out & E & Hres & Hcomp).
    exists out. split; [done|]. split; [intros [??]; auto|].
    intros p m Htr. unfold Search_self_traversal.
    cbn [naive singleMode referenceTree referenceSet rs].
    pose proof (single_loop_runs (trees m) p p
      {| r_referenceSet := Dataset t; r_querySet := Dataset t;
         r_range := range; r_sameSet := true |} a t ltac:(by rewrite Htr)
      _ _ _ out (trees_writeOut _ _ _ _)
      (readN_writeOut p p (init (length (Dataset t))) m)
      (readD_writeOut p p (init (length (Dataset t))) m) E) as H.
    cbn [r_querySet r_range] in H. rewrite H.
    by rewrite writeOut_writeOut.
  - destruct (internal_dual (Dataset t) (Dataset t) range true
                (root t) (root t) Hin Hin) as (out & E & Hres & Hcomp).
    exists out. split; [done|]. split; [intros [??]; auto|].
    intros p m Htr. unfold Search_self_traversal.
    cbn [naive singleMode referenceTree referenceSet rs].
    rewrite (bind_returned _ _ _ _ _ (deref_tree_live a t _
      ltac:(by rewrite trees_writeOut, Htr))).
    rewrite (dual_runs _ p p _ _ _ _ _ _ out eq_refl
      (readN_writeOut p p (init (length (Dataset t))) m)
      (readD_writeOut p p (init (length (Dataset t))) m) E).
    by rewrite writeOut_writeOut.
Qed.

(** [Search(range, neighbors, distances)]: the self-search. *)
Theorem Search_self_spec tr R rs range :
  RefView tr R rs →
  ∃ N D, Result R R range true (N, D) ∧
    (SelfBoundsOK tr rs → Complete R R range true (N, D)) ∧
    ∀ m, trees m = tr →
      ∃ m', Search_self rs range m = Returned tt m' ∧ trees m' = tr ∧
            neighbors m' = N ∧ distances m' = D.
Proof.
  intros Hview.
  assert ((rs = {| oldFromNewReferences := []; referenceTree := None;
                   referenceSet := R; treeOwner := false;
                   naive := true; singleMode := false |}) ∨
    ∃ a t ofn owner single,
    rs = {| oldFromNewReferences := ofn; referenceTree := Some a;
            referenceSet := Dataset t; treeOwner := owner;
            naive := false; singleMode := single |} ∧
    tr !! a = Some t ∧ TreeOK t ∧
    if owner && RearrangesDataset then Renamed ofn (Dataset t) R
    else Dataset t = R)
    as [->|(a & t & ofn & owner & single & -> & Ht & Hok & Hren)].
  { destruct Hview as [|a t ofn single Ht Hok Hren|a t single Ht Hok Hren];
      [by left| |]; right; eexists a, t, _, _, _; eauto. }
  - destruct (internal_naive R R range true) as (out & E & Hres & Hcomp).
    exists out.1, out.2. rewrite <- surjective_pairing.
    split; [done|]. split; [done|].
    intros m Htr. rewrite Search_self_phases.
    cbn [treeOwner referenceSet oldFromNewReferences]. rewrite andb_false_r.
    unfold Search_self_traversal. cbn [naive referenceSet].
    rewrite (bind_returned _ _ _ _ _ (naive_loops_runs (trees m)
      CallerBuf CallerBuf _ _ _ _ _ _ out (trees_writeOut _ _ _ _)
      (readN_writeOut CallerBuf CallerBuf (init (length R)) m)
      (readD_writeOut CallerBuf CallerBuf (init (length R)) m) E)).
    by eexists.
  - destruct (self_traversal_tree tr a t ofn owner single range Ht Hok)
      as (out & Hres & Hcomp & Hrun).
    destruct (owner && RearrangesDataset) eqn:Hmode.
    + destruct (Renamed_length _ _ _ Hren) as [Hl1 Hl2].
      pose proof Hres as (HlN & HlD & _). simpl in HlN, HlD.
      eexists _, _. split.
      { by apply (Result_scattered ofn ofn (Dataset t) R
                    (Dataset t) R range true out). }
      split.
      { intros Hb.
        apply (Complete_scattered ofn ofn (Dataset t) R
                 (Dataset t) R range true out); auto.
        apply Hcomp. by apply (Hb a t). }
      intros m Htr. rewrite Search_self_phases.
      cbn [treeOwner referenceSet oldFromNewReferences].
      rewrite (andb_comm RearrangesDataset), Hmode.
      rewrite (bind_returned _ _ _ _ _ (Hrun TempBuf m Htr)). rewrite Hl1.
      erewrite remap_both_run;
        [by eexists|reflexivity|reflexivity|lia|lia|lia| |].
      * eapply Renamed_bound. exact Hren.
      * eapply Result_Mappable; [exact Hres|]. lia.
    + subst R. exists out.1, out.2. rewrite <- surjective_pairing.
      split; [done|]. split.
      { intros Hb. apply Hcomp. by apply (Hb a t). }
      intros m Htr. rewrite Search_self_phases.
      cbn [treeOwner referenceSet oldFromNewReferences].
      rewrite (andb_comm RearrangesDataset), Hmode.
      rewrite (bind_returned _ _ _ _ _ (Hrun CallerBuf m Htr)).
      by eexists.
Qed.

End Overloads.

(** ** Construction and teardown *)

Section Lifecycle.
Context {Point Dist : Type}.
Context `{!Scalar Dist, !MetricType Point Dist, !TreeType Point Dist}.
Implicit Types (m : Mem Point Dist Bound) (rs : RangeSearch Point).
Implicit Types (Q R : list Point) (range : Range Dist).

Lemma RangeSearch_raw_naive R single m :
  RangeSearch_raw R true single m =
  Returned ({| oldFromNewReferences := []; referenceTree := None;
               referenceSet := R; treeOwner := false;
               naive := true; singleMode := false |}, R) m.
Proof. reflexivity. Qed.

Lemma BuildTree_eval (data : list Point) m :
  BuildTree data [] m =
  Returned (fresh (dom (trees m)), builtMap data,
            if RearrangesDataset then built_dataset (TreeCtorMapping data)
            else data)
           (set_trees (insert (fresh (dom (trees m))) (builtTree data)) m).
Proof.
  unfold BuildTree, builtMap, builtTree, new_tree.
  destruct RearrangesDataset; rewrite bind_eval; reflexivity.
Qed.

Lemma RangeSearch_raw_tree R single m :
  RangeSearch_raw R false single m =
  Returned ({| oldFromNewReferences := builtMap R;
               referenceTree := Some (fresh (dom (trees m)));
               referenceSet := Dataset (builtTree R); treeOwner := true;
               naive := false; singleMode := single |},
            if RearrangesDataset then built_dataset (TreeCtorMapping R) else R)
           (set_trees (insert (fresh (dom (trees m))) (builtTree R)) m).
Proof.
  unfold RangeSearch_raw. cbn [negb andb].
  rewrite bind_eval, bind_eval, BuildTree_eval. cbn beta iota.
  unfold mret at 1, M_ret at 1. cbn beta iota.
  rewrite (bind_eval (_ ≫= _)).
  rewrite (bind_returned _ _ _ _ _ (deref_tree_live (fresh (dom (trees m)))
    (builtTree R) (set_trees (insert (fresh (dom (trees m))) (builtTree R)) m)
    ltac:(apply lookup_insert_eq))).
  reflexivity.
Qed.

Lemma RangeSearch_raw_view R single m :
  BuiltOK R →
  RefView (<[fresh (dom (trees m)) := builtTree R]> (trees m)) R
    {| oldFromNewReferences := builtMap R;
       referenceTree := Some (fresh (dom (trees m)));
       referenceSet := Dataset (builtTree R); treeOwner := true;
       naive := false; singleMode := single |}.
Proof.
  intros [Hok HB]. apply view_owned; [apply lookup_insert_eq|done|].
  destruct RearrangesDataset; [by destruct HB|done].
Qed.

Lemma RangeSearch_tree_live a t single m :
  trees m !! a = Some t →
  RangeSearch_tree (Some a) single m =
  Returned {| oldFromNewReferences := []; referenceTree := Some a;
              referenceSet := Dataset t; treeOwner := false;
              naive := false; singleMode := single |} m.
Proof.
  intros Ht. unfold RangeSearch_tree.
  by rewrite (bind_returned _ _ _ _ _ (deref_tree_live a t m Ht)).
Qed.

End Lifecycle.

(** ** Reading results off the buffers *)

Section Reading.
Context {Point Dist : Type}.
Context `{!Scalar Dist, !MetricType Point Dist, !TreeType Point Dist}.
Implicit Types (m : Mem Point Dist Bound) (rs : RangeSearch Point).
Implicit Types (Q R : list Point) (range : Range Dist).

Lemma Reported_Hit R Q range same m i j d :
  Result R Q range same (neighbors m, distances m) →
  Reported m i j d → Hit R Q range same i j d.
Proof.
  intros (_ & _ & Hrows) (ns & ds & k & Hns & Hds & Hj & Hd).
  by eapply Forall2_lookup_lr; [apply (Hrows i ns ds)|..].
Qed.

Lemma Hit_Reported R Q range same m i j d :
  Result R Q range same (neighbors m, distances m) →
  Complete R Q range same (neighbors m, distances m) →
  Hit R Q range same i j d → Reported m i j d.
Proof.
  intros Hres Hcomp Hhit.
  destruct (Hcomp i j d Hhit) as (ns & Hns & [k Hk]%list_elem_of_lookup).
  destruct (Result_rows _ _ _ _ _ _ _ Hres Hns) as (ds & Hds & H2).
  destruct (Forall2_lookup_l _ _ _ _ _ H2 Hk) as (d' & Hd' & Hhit').
  exists ns, ds, k. repeat split; try done.
  destruct Hhit as (q & p & Hq & Hp & -> & _).
  destruct Hhit' as (q' & p' & Hq' & Hp' & -> & _). congruence.
Qed.

Lemma Hit_here R Q range i j q p d :
  Q !! i = Some q → R !! j = Some p →
  Hit R Q range false i j d ↔ d = Evaluate q p ∧ Contains range d = true.
Proof.
  intros Hq Hp. split.
  - intros (q' & p' & Hq' & Hp' & -> & Hc & _). split; congruence.
  - intros [-> Hc]. by exists q, p.
Qed.

Lemma listed_iff R Q range m i j q p :
  Result R Q range false (neighbors m, distances m) →
  Complete R Q range false (neighbors m, distances m) →
  Q !! i = Some q → R !! j = Some p →
  (∃ ns, neighbors m !! i = Some ns ∧ j ∈ ns) ↔
  Contains range (Evaluate q p) = true.
Proof.
  intros Hres Hcomp Hq Hp. split.
  - intros (ns & Hns & [k Hk]%list_elem_of_lookup).
    destruct (Result_rows _ _ _ _ _ _ _ Hres Hns) as (ds & Hds & H2).
    destruct (Forall2_lookup_l _ _ _ _ _ H2 Hk) as (d & Hd & Hhit).
    apply (Hit_here R Q range i j q p d Hq Hp) in Hhit as [-> Hc]. done.
  - intros Hc. apply (Hcomp i j (Evaluate q p)). by apply (Hit_here R Q range i j q p).
Qed.

Lemma no_hits_empty R Q range same (out : list (list nat) * list (list Dist)) :
  Result R Q range same out → (∀ i j d, ¬ Hit R Q range same i j d) →
  out = init (length Q).
Proof.
  intros Hres Hno. pose proof Hres as (HlN & HlD & Hrows).
  destruct out as [N D]. simpl in *. unfold init. f_equal.
  - apply list_eq. intros i. destruct (N !! i) as [ns|] eqn:Hns.
    + destruct (Result_rows _ _ _ _ _ _ _ Hres Hns) as (ds & Hds & H2).
      rewrite lookup_replicate_2 by (apply lookup_lt_Some in Hns; lia).
      destruct H2 as [|j d ? ? Hhit _]; [done|]. by apply Hno in Hhit.
    + symmetry. apply lookup_ge_None. rewrite length_replicate.
      apply lookup_ge_None in Hns. lia.
  - apply list_eq. intros i. destruct (D !! i) as [ds|] eqn:Hds.
    + destruct (lookup_lt_is_Some_2 N i) as [ns Hns].
      { apply lookup_lt_Some in Hds. lia. }
      rewrite lookup_replicate_2 by (apply lookup_lt_Some in Hds; lia).
      destruct (Hrows i ns ds Hns Hds) as [|j d ? ? Hhit _]; [done|].
      by apply Hno in Hhit.
    + symmetry. apply lookup_ge_None. rewrite length_replicate.
      apply lookup_ge_None in Hds. lia.
Qed.

Lemma QueryOnlyMapping_dec rs : Decision (QueryOnlyMapping rs).
Proof. unfold QueryOnlyMapping. apply _. Qed.

End Reading.

(** ** Construction followed by a search *)


Section Construction.
Context {Point Dist : Type}.
Context `{!Scalar Dist, !MetricType Point Dist, !TreeType Point Dist}.
Implicit Types (m : Mem Point Dist Bound) (rs : RangeSearch Point).
Implicit Types (Q R : list Point) (range : Range Dist).

Lemma construct_and_search_spec R naive single Q range m :
  (naive = false → BuiltOK R) →
  (naive = false → single = false → BuiltOK Q) →
  (naive = false →
   DlebTransitive (Dist:=Dist) ∧
   if single
   then Forall (λ q, point_bounds (Dataset (builtTree R)) q
                       (root (builtTree R)) = true) Q
   else node_bounds (Dataset (builtTree Q)) (Dataset (builtTree R))
          (root (builtTree Q)) (root (builtTree R)) = true) →
  ∃ m', construct_and_search R naive single Q range m = Returned Q m' ∧
        ∀ i j d, Reported m' i j d ↔ Hit R Q range false i j d.
Proof.
  intros HR HQ Hb. unfold construct_and_search. destruct naive.
  - rewrite (bind_returned _ _ _ _ _ (RangeSearch_raw_naive R single m)).
    destruct (Search_naive_spec (trees m) R Q range) as (out & Hres & Hcomp & Hrun).
    destruct (Hrun m eq_refl) as (m' & E & _ & HN & HD).
    exists m'. split; [done|]. rewrite (surjective_pairing out) in Hres, Hcomp.
    rewrite <- HN, <- HD in Hres, Hcomp. intros i j d. split.
    + by apply Reported_Hit.
    + by apply Hit_Reported.
  - rewrite (bind_returned _ _ _ _ _ (RangeSearch_raw_tree R single m)).
    set (a := fresh (dom (trees m))).
    set (m1 := set_trees (insert a (builtTree R)) m).
    pose proof (RangeSearch_raw_view R single m (HR eq_refl)) as Hview.
    fold a in Hview.
    destruct (Search_spec _ R _ Q range Hview) as (N & D & Hres & Hcomp & Hrun).
    { simpl. intros _ ->. by apply HQ. }
    { intros (_ & _ & _ & ?). done. }
    destruct (Hrun m1 eq_refl) as (m' & E & _ & HN & HD). subst N D.
    exists m'. split; [done|]. intros i j d. split.
    + by apply Reported_Hit.
    + apply Hit_Reported; [done|]. apply Hcomp.
      intros a' t' [= <-]. rewrite lookup_insert_eq. intros [= <-].
      destruct (Hb eq_refl) as [Htrans Hbounds]. split; [done|]. simpl.
      exact Hbounds.
Qed.

End Construction.

(** ** Properties of the orchestrator *)

Section Claims.
Context {Point Dist : Type}.
Context `{!Scalar Dist, !MetricType Point Dist, !TreeType Point Dist}.
Implicit Types (m : Mem Point Dist Bound) (rs : RangeSearch Point).
Implicit Types (Q R : list Point) (range : Range Dist).

(** C3: with [naive] or [singleMode] set, the overload of [Search] that
    takes a query tree throws [std::invalid_argument] before anything is
    allocated or traversed, and the memory, the caller's two buffers
    included, is exactly as it was. *)
Theorem Search_tree_usage_error rs qa qt range m :
  trees m !! qa = Some qt →
  singleMode rs = true ∨ naive rs = true →
  Search_tree rs (Some qa) range m = Throws invalid_argument m.
Proof.
  intros Hq Hmode. unfold Search_tree.
  rewrite (bind_returned _ _ _ _ _ (deref_tree_live qa qt m Hq)).
  by destruct Hmode as [-> | ->]; rewrite ?orb_true_r.
Qed.

(** C4: the constructor from a raw reference set in naive mode stores
    [singleMode = false] whatever was asked, builds no tree and is not a
    tree owner; when not naive it builds a tree on the heap and owns it;
    the constructor from a tree always stores [treeOwner = false] and
    [naive = false]. *)
Theorem constructor_flags R single m :
  (∃ rs, RangeSearch_raw R true single m = Returned (rs, R) m ∧
         naive rs = true ∧ singleMode rs = false ∧
         referenceTree rs = None ∧ treeOwner rs = false) ∧
  (∃ rs R' a, RangeSearch_raw R false single m =
                Returned (rs, R') (set_trees (insert a (builtTree R)) m) ∧
              trees m !! a = None ∧
              naive rs = false ∧ singleMode rs = single ∧
              referenceTree rs = Some a ∧ treeOwner rs = true) ∧
  (∀ p, match RangeSearch_tree p single m with
        | Returned rs m' =>
            m' = m ∧ referenceTree rs = p ∧
            treeOwner rs = false ∧ naive rs = false ∧ singleMode rs = single
        | Throws _ _ => False
        | Undefined _ _ => p ≫= (trees m !!.) = None
        end).
Proof.
  split; [|split].
  - eexists. rewrite RangeSearch_raw_naive. done.
  - eexists _, _, _. rewrite RangeSearch_raw_tree.
    split; [done|]. split; [apply fresh_tree_free|done].
  - intros p. unfold RangeSearch_tree, deref_tree. rewrite bind_eval.
    by destruct (p ≫= (trees m !!.)).
Qed.

(** C5: the destructor deletes the reference tree exactly when the object
    owns it and the pointer is not null; the object made from a caller's
    tree never deletes it; an owner and a borrower side by side have
    independent lifetimes: tearing down either leaves the other's tree on
    the heap. *)
Theorem destructor_ownership R single single' e te m :
  trees m !! e = Some te →
  (* the destructor by cases *)
  (∀ rs a t m1, referenceTree rs = Some a → treeOwner rs = true →
     trees m1 !! a = Some t →
     RangeSearch_dtor rs m1 = Returned tt (set_trees (delete a) m1)) ∧
  (∀ rs m1, referenceTree rs = None ∨ treeOwner rs = false →
     RangeSearch_dtor rs m1 = Returned tt m1) ∧
  (* an owner and a borrower *)
  ∃ owner R' borrower a m1,
    RangeSearch_raw R false single m = Returned (owner, R') m1 ∧
    RangeSearch_tree (Some e) single' m1 = Returned borrower m1 ∧
    referenceTree owner = Some a ∧ referenceTree borrower = Some e ∧ a ≠ e ∧
    (* the borrower goes first: nothing is deleted *)
    RangeSearch_dtor borrower m1 = Returned tt m1 ∧
    (* the owner goes first: its own tree is deleted, the borrowed one stays *)
    (∃ m2, RangeSearch_dtor owner m1 = Returned tt m2 ∧
           trees m2 !! a = None ∧ trees m2 !! e = Some te ∧
           trees m2 = trees m ∧
           RangeSearch_dtor borrower m2 = Returned tt m2).
Proof.
  intros He. split; [|split].
  - intros rs a t m1 Ha Ho Ht. unfold RangeSearch_dtor, delete_tree.
    by rewrite Ha, Ho, Ht.
  - intros rs m1 [H|H]; unfold RangeSearch_dtor; rewrite H; [|done].
    by destruct (treeOwner rs).
  - set (a := fresh (dom (trees m))).
    pose proof (fresh_tree_free m) as Hfree. fold a in Hfree.
    assert (a ≠ e) as Hne by (intros ->; congruence).
    eexists _, _, _, a, _. rewrite RangeSearch_raw_tree. split; [done|].
    rewrite (RangeSearch_tree_live e te); [|by simpl; rewrite lookup_insert_ne].
    split; [done|]. split; [done|]. split; [done|]. split; [done|].
    split; [done|].
    eexists. unfold RangeSearch_dtor, delete_tree. simpl. fold a.
    rewrite lookup_insert_eq. split; [done|]. simpl.
    rewrite delete_insert_eq, delete_id by done. done.
Qed.

(** C6: after a search of a raw query set, reference point [j] is in the
    result list of query point [i] exactly when their distance lies in the
    closed interval: a distance equal to [lo] or to [hi] is in, a distance
    below [lo] or above [hi] is out. *)
Theorem in_range_iff_listed tr R rs Q range m :
  RefView tr R rs → trees m = tr →
  (naive rs = false → singleMode rs = false → BuiltOK Q) →
  ¬ QueryOnlyMapping rs → BoundsOK tr rs Q →
  ∃ m', Search rs Q range m = Returned Q m' ∧
    ∀ i j q p, Q !! i = Some q → R !! j = Some p →
      let listed := ∃ ns, neighbors m' !! i = Some ns ∧ j ∈ ns in
      (listed ↔ Contains range (Evaluate q p) = true) ∧
      (Evaluate q p = lo range → Dleb (lo range) (lo range) = true →
       Dleb (lo range) (hi range) = true → listed) ∧
      (Evaluate q p = hi range → Dleb (hi range) (hi range) = true →
       Dleb (lo range) (hi range) = true → listed) ∧
      (Dltb (Evaluate q p) (lo range) = true → ¬ listed) ∧
      (Dltb (hi range) (Evaluate q p) = true → ¬ listed).
Proof.
  intros Hview Htr HB Hgood Hbounds.
  destruct (Search_spec tr R rs Q range Hview HB Hgood)
    as (N & D & Hres & Hcomp & Hrun).
  destruct (Hrun m Htr) as (m' & E & _ & HN & HD). subst N D.
  exists m'. split; [done|]. intros i j q p Hq Hp listed.
  pose proof (listed_iff R Q range m' i j q p Hres (Hcomp Hbounds) Hq Hp) as Hiff.
  fold listed in Hiff. unfold Contains, Dltb in *.
  split; [done|]. rewrite Hiff. repeat split.
  - intros -> -> ->. done.
  - intros -> -> ->. done.
  - intros H%negb_true_iff. rewrite H. done.
  - intros H%negb_true_iff. rewrite H, andb_false_r. done.
Qed.

(** C7: with [lo > hi] a search of a raw query set returns normally in
    each of the three strategies and every result list is empty. *)
Theorem empty_range_empty_results tr R rs Q range m :
  RefView tr R rs → trees m = tr →
  (naive rs = false → singleMode rs = false → BuiltOK Q) →
  ¬ QueryOnlyMapping rs →
  DlebTransitive (Dist:=Dist) → Dltb (hi range) (lo range) = true →
  ∃ m', Search rs Q range m = Returned Q m' ∧
        neighbors m' = replicate (length Q) [] ∧
        distances m' = replicate (length Q) [].
Proof.
  intros Hview Htr HB Hgood Htrans Hempty.
  destruct (Search_spec tr R rs Q range Hview HB Hgood)
    as (N & D & Hres & _ & Hrun).
  destruct (Hrun m Htr) as (m' & E & _ & HN & HD). subst N D.
  exists m'. split; [done|].
  assert ((neighbors m', distances m') = init (length Q)) as [= -> ->]; [|done].
  eapply no_hits_empty; [exact Hres|].
  intros i j d (q & p & _ & _ & _ & [H1 H2]%andb_true_iff & _).
  apply negb_true_iff in Hempty. by rewrite (Htrans _ _ _ H1 H2) in Hempty.
Qed.

(** C8: in the self-search no point is in its own result list, whatever
    the range.  The flag given to the rule object is what excludes it: the
    brute-force search of the same points as a raw query set, whose rule
    object has the flag off, lists a point for itself when its distance to
    itself is in range. *)
Theorem self_search_excludes_self tr R rs range m :
  RefView tr R rs → trees m = tr →
  (∃ m', Search_self rs range m = Returned tt m' ∧
         length (neighbors m') = length R ∧
         ∀ i ns, neighbors m' !! i = Some ns → i ∉ ns) ∧
  (∃ m', Search {| oldFromNewReferences := []; referenceTree := None;
                   referenceSet := R; treeOwner := false;
                   naive := true; singleMode := false |} R range m
         = Returned R m' ∧
         ∀ i q, R !! i = Some q → Contains range (Evaluate q q) = true →
                ∃ ns, neighbors m' !! i = Some ns ∧ i ∈ ns).
Proof.
  intros Hview Htr. split.
  - destruct (Search_self_spec tr R rs range Hview) as (N & D & Hres & _ & Hrun).
    destruct (Hrun m Htr) as (m' & E & _ & HN & HD). subst N D.
    exists m'. split; [done|]. split; [apply Hres|].
    intros i ns Hns [k Hk]%list_elem_of_lookup.
    destruct (Result_rows _ _ _ _ _ _ _ Hres Hns) as (ds & Hds & H2).
    destruct (Forall2_lookup_l _ _ _ _ _ H2 Hk) as (d & _ & Hhit).
    destruct Hhit as (_ & _ & _ & _ & _ & _ & Hs). simpl in Hs.
    by apply bool_decide_eq_false in Hs.
  - destruct (Search_naive_spec tr R R range) as (out & Hres & Hcomp & Hrun).
    destruct (Hrun m Htr) as (m' & E & _ & HN & HD).
    rewrite (surjective_pairing out), <- HN, <- HD in Hres, Hcomp.
    exists m'. split; [done|]. intros i q Hq Hc.
    by apply (listed_iff R R range m' i i q q Hres).
Qed.

(** C1: for one reference set, query set, range and metric, the searches
    of the naive, the single-tree and the dual-tree object all return, and
    for every query point they report the same pairs of reference point and
    distance: those in range. *)
Theorem strategies_agree R Q range single m :
  BuiltOK R → BuiltOK Q → DlebTransitive (Dist:=Dist) →
  Forall (λ q, point_bounds (Dataset (builtTree R)) q
                 (root (builtTree R)) = true) Q →
  node_bounds (Dataset (builtTree Q)) (Dataset (builtTree R))
    (root (builtTree Q)) (root (builtTree R)) = true →
  ∃ mN mS mD,
    construct_and_search R true single Q range m = Returned Q mN ∧
    construct_and_search R false true Q range m = Returned Q mS ∧
    construct_and_search R false false Q range m = Returned Q mD ∧
    ∀ i j d,
      (Reported mN i j d ↔ Reported mS i j d) ∧
      (Reported mN i j d ↔ Reported mD i j d) ∧
      (Reported mN i j d ↔ Hit R Q range false i j d).
Proof.
  intros HR HQ Htrans Hpoint Hnode.
  destruct (construct_and_search_spec R true single Q range m)
    as (mN & EN & HN); try done.
  destruct (construct_and_search_spec R false true Q range m)
    as (mS & ES & HS); try done.
  destruct (construct_and_search_spec R false false Q range m)
    as (mD & ED & HD); try done.
  exists mN, mS, mD. repeat split; try done;
    rewrite ?HN, ?HS, ?HD; done.
Qed.

(** C10: after a call of any overload that returns, each buffer has one
    entry per query point (per reference point in the self-search), the
    two entries of a query point are equally long and at every position
    hold an index and the distance of that same result, and nothing of the
    buffers' earlier contents is left: the call returns the same buffers
    whatever they held before. *)
Theorem result_buffers_shape tr R rs m :
  RefView tr R rs → trees m = tr →
  (∀ Q range Q' m',
     (naive rs = false → singleMode rs = false → BuiltOK Q) →
     Search rs Q range m = Returned Q' m' →
     Result R Q range false (neighbors m', distances m') ∧
     ∀ N0 D0, ∃ m2,
       Search rs Q range (set_neighbors N0 (set_distances D0 m)) = Returned Q' m2 ∧
       neighbors m2 = neighbors m' ∧ distances m2 = distances m') ∧
  (∀ qa qt range m',
     tr !! qa = Some qt → TreeOK qt →
     Search_tree rs (Some qa) range m = Returned tt m' →
     Result R (Dataset qt) range false (neighbors m', distances m') ∧
     ∀ N0 D0, ∃ m2,
       Search_tree rs (Some qa) range (set_neighbors N0 (set_distances D0 m))
         = Returned tt m2 ∧
       neighbors m2 = neighbors m' ∧ distances m2 = distances m') ∧
  (∀ range m',
     Search_self rs range m = Returned tt m' →
     Result R R range true (neighbors m', distances m') ∧
     ∀ N0 D0, ∃ m2,
       Search_self rs range (set_neighbors N0 (set_distances D0 m))
         = Returned tt m2 ∧
       neighbors m2 = neighbors m' ∧ distances m2 = distances m').
Proof.
  intros Hview Htr. split; [|split].
  - intros Q range Q' m' HB Hret.
    destruct (QueryOnlyMapping_dec rs) as [Hbad|Hgood].
    { by apply Search_query_only in Hret. }
    destruct (Search_spec tr R rs Q range Hview HB Hgood)
      as (N & D & Hres & _ & Hrun).
    destruct (Hrun m Htr) as (m1 & E & _ & HN & HD).
    rewrite E in Hret. injection Hret as <- <-. subst N D.
    split; [done|]. intros N0 D0.
    destruct (Hrun (set_neighbors N0 (set_distances D0 m)) Htr)
      as (m2 & E2 & _ & HN2 & HD2). eauto.
  - intros qa qt range m' Hq Hok Hret.
    assert (naive rs = false ∧ singleMode rs = false) as [Hn Hs].
    { unfold Search_tree in Hret.
      rewrite (bind_returned _ _ _ _ _ (deref_tree_live qa qt m
        ltac:(by rewrite Htr))) in Hret.
      by destruct (singleMode rs), (naive rs). }
    destruct (Search_tree_spec tr R rs qa qt range Hview Hn Hs Hq Hok)
      as (N & D & Hres & _ & Hrun).
    destruct (Hrun m Htr) as (m1 & E & _ & HN & HD).
    rewrite E in Hret. injection Hret as <-. subst N D.
    split; [done|]. intros N0 D0.
    destruct (Hrun (set_neighbors N0 (set_distances D0 m)) Htr)
      as (m2 & E2 & _ & HN2 & HD2). eauto.
  - intros range m' Hret.
    destruct (Search_self_spec tr R rs range Hview) as (N & D & Hres & _ & Hrun).
    destruct (Hrun m Htr) as (m1 & E & _ & HN & HD).
    rewrite E in Hret. injection Hret as <-. subst N D.
    split; [done|]. intros N0 D0.
    destruct (Hrun (set_neighbors N0 (set_distances D0 m)) Htr)
      as (m2 & E2 & _ & HN2 & HD2). eauto.
Qed.

End Claims.

(** ** Footprints: what a call allocates and frees *)

Section FootprintRules.
Context {Point Dist : Type}.
Context `{!Scalar Dist, !MetricType Point Dist, !TreeType Point Dist}.
Implicit Types (m : Mem Point Dist Bound) (rs : RangeSearch Point).
Implicit Types (fp : gmap nat (Tree Point Bound) * bool * bool) (U : UB → Prop).

Lemma Moves_ret {A} fp U (a : A) : Moves fp fp U (mret a).
Proof. by intros m Hm. Qed.

Lemma Moves_bind {A B} fp fp1 fp2 U (c : M _ A) (f : A → M _ B) :
  Moves fp fp1 U c → (∀ a, Moves fp1 fp2 U (f a)) → Moves fp fp2 U (c ≫= f).
Proof.
  intros Hc Hf m Hm. specialize (Hc m Hm). rewrite bind_eval.
  destruct (c m) as [a m1| |]; [|done..]. by apply Hf.
Qed.

Lemma Moves_for fp U (l : list nat) body :
  (∀ i, Moves fp fp U (body i)) → Moves fp fp U (for_ l body).
Proof.
  intros Hbody. induction l as [|i l IH]; simpl.
  - apply Moves_ret.
  - eapply Moves_bind; [apply Hbody|]. by intros _.
Qed.

Lemma Moves_gets {A} fp U (f : _ → A) : Moves fp fp U (gets f).
Proof. by intros m Hm. Qed.

Lemma Moves_undefined {A} fp fp' U u : U u → Moves (A:=A) fp fp' U (undefined u).
Proof. by intros Hu m Hm. Qed.

Lemma Moves_vget {A} fp U (v : list A) i : U OutOfBounds → Moves fp fp U (vget v i).
Proof. intros Hu m Hm. unfold vget. by destruct (v !! i). Qed.

Lemma Moves_derefN fp U p : pointsN fp p = true → Moves fp fp U (derefN p).
Proof.
  intros Hp m <-. destruct p; simpl in *; [done|].
  by destruct (tmpNeighbors m).
Qed.

Lemma Moves_derefD fp U p : pointsD fp p = true → Moves fp fp U (derefD p).
Proof.
  intros Hp m <-. destruct p; simpl in *; [done|].
  by destruct (tmpDistances m).
Qed.

Lemma Moves_assignN fp U p v : pointsN fp p = true → Moves fp fp U (assignN p v).
Proof.
  intros Hp m <-. destruct p; simpl in *; [done|].
  unfold assignN. rewrite bind_eval. simpl.
  destruct (tmpNeighbors m) eqn:E; [|done]. unfold footprint. simpl. by rewrite E.
Qed.

Lemma Moves_assignD fp U p v : pointsD fp p = true → Moves fp fp U (assignD p v).
Proof.
  intros Hp m <-. destruct p; simpl in *; [done|].
  unfold assignD. rewrite bind_eval. simpl.
  destruct (tmpDistances m) eqn:E; [|done]. unfold footprint. simpl. by rewrite E.
Qed.

Lemma Moves_clear_resizeN fp U p n :
  pointsN fp p = true → Moves fp fp U (clear_resizeN p n).
Proof.
  intros Hp. unfold clear_resizeN.
  eapply Moves_bind; [by apply Moves_assignN|]. intros _. by apply Moves_assignN.
Qed.

Lemma Moves_clear_resizeD fp U p n :
  pointsD fp p = true → Moves fp fp U (clear_resizeD p n).
Proof.
  intros Hp. unfold clear_resizeD.
  eapply Moves_bind; [by apply Moves_assignD|]. intros _. by apply Moves_assignD.
Qed.

Lemma Moves_with_rules fp U np dp call :
  pointsN fp np = true → pointsD fp dp = true → U OutOfBounds →
  Moves fp fp U (with_rules np dp call).
Proof.
  intros HN HD Hu. unfold with_rules.
  eapply Moves_bind; [by apply Moves_derefN|]. intros ns.
  eapply Moves_bind; [by apply Moves_derefD|]. intros ds.
  destruct (call (ns, ds)) as [out|]; [|by apply Moves_undefined].
  eapply Moves_bind; [by apply Moves_assignN|]. intros _. by apply Moves_assignD.
Qed.

Lemma Moves_deref_tree fp U p :
  is_Some (p ≫= (fp.1.1 !!.)) ∨ U DanglingPointer → Moves fp fp U (deref_tree p).
Proof.
  intros Hp m <-. unfold deref_tree. simpl in *.
  destruct (p ≫= (trees m !!.)); [done|].
  destruct Hp as [[? ?]|?]; done.
Qed.

Lemma Moves_store_distances fp U q col :
  U OutOfBounds → Moves fp fp U (store_distances q col).
Proof.
  intros Hu m <-. unfold store_distances, vget. rewrite !bind_eval. simpl.
  by destruct (distances m !! q).
Qed.

Lemma Moves_store_neighbors fp U q row :
  U OutOfBounds → Moves fp fp U (store_neighbors q row).
Proof.
  intros Hu m <-. unfold store_neighbors, vget. rewrite !bind_eval. simpl.
  by destruct (neighbors m !! q).
Qed.

Lemma Moves_resize_neighbors fp U q sz :
  U OutOfBounds → Moves fp fp U (resize_neighbors q sz).
Proof.
  intros Hu m <-. unfold resize_neighbors, vget. rewrite !bind_eval. simpl.
  by destruct (neighbors m !! q).
Qed.

Lemma Moves_store_neighbor fp U q j v :
  U OutOfBounds → Moves fp fp U (store_neighbor q j v).
Proof.
  intros Hu m <-. unfold store_neighbor, vget. rewrite !bind_eval. simpl.
  destruct (neighbors m !! q) as [row|]; [|done]. rewrite !bind_eval. simpl.
  by destruct (row !! j).
Qed.

Lemma Moves_size_distances fp U q :
  U OutOfBounds → Moves fp fp U (size_distances q).
Proof.
  intros Hu m <-. unfold size_distances, vget. rewrite !bind_eval. simpl.
  by destruct (distances m !! q).
Qed.

Lemma Moves_size_neighbors fp U q :
  U OutOfBounds → Moves fp fp U (size_neighbors q).
Proof.
  intros Hu m <-. unfold size_neighbors, vget. rewrite !bind_eval. simpl.
  by destruct (neighbors m !! q).
Qed.

Lemma Moves_map_neighbors fp U np ofn q i sz :
  pointsN fp np = true → U OutOfBounds →
  Moves fp fp U (map_neighbors np ofn q i sz).
Proof.
  intros Hp Hu. unfold map_neighbors. apply Moves_for. intros j.
  eapply Moves_bind; [by apply Moves_derefN|]. intros tmp.
  eapply Moves_bind; [by apply Moves_vget|]. intros row.
  eapply Moves_bind; [by apply Moves_vget|]. intros r.
  eapply Moves_bind; [by apply Moves_vget|]. intros v.
  by apply Moves_store_neighbor.
Qed.

(** *** Allocation and deletion *)

Lemma Moves_deleteN_temp tr bD U :
  Moves (tr, true, bD) (tr, false, bD) U (deleteN TempBuf).
Proof.
  intros m [= <- HN <-]. unfold deleteN, derefN. rewrite bind_eval.
  by destruct (tmpNeighbors m).
Qed.

Lemma Moves_deleteD_temp tr bN U :
  Moves (tr, bN, true) (tr, bN, false) U (deleteD TempBuf).
Proof.
  intros m [= <- <- HD]. unfold deleteD, derefD. rewrite bind_eval.
  by destruct (tmpDistances m).
Qed.

Lemma Moves_deleteN_caller fp fp' U :
  U InvalidDelete → Moves fp fp' U (deleteN CallerBuf).
Proof. by intros Hu m Hm. Qed.

Lemma Moves_deleteD_caller fp fp' U :
  U InvalidDelete → Moves fp fp' U (deleteD CallerBuf).
Proof. by intros Hu m Hm. Qed.

Lemma Moves_delete_tree tr bN bD U a :
  is_Some (tr !! a) → Moves (tr, bN, bD) (delete a tr, bN, bD) U (delete_tree a).
Proof.
  intros [t Ht] m [= <- <- <-]. unfold delete_tree. by rewrite Ht.
Qed.

Lemma Moves_BuildTree {B} tr bN bD fp' U data (f : _ → M _ B) :
  (∀ ofn data', Moves (<[fresh (dom tr) := builtTree data]> tr, bN, bD) fp' U
                  (f (fresh (dom tr), ofn, data'))) →
  Moves (tr, bN, bD) fp' U (BuildTree data [] ≫= f).
Proof.
  intros Hf m [= <- <- <-]. rewrite bind_eval, BuildTree_eval. by apply Hf.
Qed.

(** *** The loops and the traversals *)

Lemma Moves_naive_loops fp U np dp rules nq nr :
  pointsN fp np = true → pointsD fp dp = true → U OutOfBounds →
  Moves fp fp U (naive_loops np dp rules nq nr).
Proof.
  intros HN HD Hu. unfold naive_loops.
  apply Moves_for. intros i. apply Moves_for. intros j.
  by apply Moves_with_rules.
Qed.

Lemma Moves_single_loop fp U np dp rules p n :
  pointsN fp np = true → pointsD fp dp = true → U OutOfBounds →
  is_Some (p ≫= (fp.1.1 !!.)) ∨ U DanglingPointer →
  Moves fp fp U (single_loop np dp rules p n).
Proof.
  intros HN HD Hu Hp. unfold single_loop. apply Moves_for. intros i.
  eapply Moves_bind; [by apply Moves_deref_tree|]. intros t.
  by apply Moves_with_rules.
Qed.

Lemma live_after_insert (tr : gmap nat (Tree Point Bound)) p t :
  is_Some (p ≫= (tr !!.)) →
  is_Some (p ≫= (<[fresh (dom tr) := t]> tr !!.)).
Proof.
  destruct p as [a|]; simpl; [|done]. intros [t' Ht]. exists t'.
  rewrite lookup_insert_ne; [done|]. intros <-.
  by rewrite (proj1 (not_elem_of_dom tr _) (is_fresh (dom tr))) in Ht.
Qed.

Lemma delete_fresh_insert (tr : gmap nat (Tree Point Bound)) t :
  delete (fresh (dom tr)) (<[fresh (dom tr) := t]> tr) = tr.
Proof.
  rewrite delete_insert_eq. apply delete_id, not_elem_of_dom, is_fresh.
Qed.

Lemma Moves_Search_traversal tr bN bD U rs np dp Q range :
  pointsN (tr, bN, bD) np = true → pointsD (tr, bN, bD) dp = true →
  U OutOfBounds →
  naive rs = true ∨ is_Some (referenceTree rs ≫= (tr !!.)) ∨ U DanglingPointer →
  Moves (tr, bN, bD) (tr, bN, bD) U (Search_traversal rs np dp Q range).
Proof.
  intros HN HD Hu Hlive. unfold Search_traversal.
  destruct (naive rs) eqn:Hn.
  { eapply Moves_bind; [by apply Moves_naive_loops|]. intros _. apply Moves_ret. }
  destruct Hlive as [?|Hlive]; [done|].
  destruct (singleMode rs).
  { eapply Moves_bind; [apply Moves_single_loop; try done; tauto|].
    intros _. apply Moves_ret. }
  apply Moves_BuildTree. intros ofn Q'.
  eapply Moves_bind.
  { apply Moves_deref_tree. left. simpl. rewrite lookup_insert_eq. by eexists. }
  intros qt. eapply Moves_bind.
  { apply Moves_deref_tree. destruct Hlive as [Hlive|?]; [left|by right].
    by apply live_after_insert. }
  intros rt. eapply Moves_bind; [by apply Moves_with_rules|]. intros _.
  eapply Moves_bind.
  { apply Moves_delete_tree. rewrite lookup_insert_eq. by eexists. }
  intros _. rewrite delete_fresh_insert. apply Moves_ret.
Qed.

(** *** The mapping loops *)

Lemma Moves_remap_both tr bN bD U np dp ofnQ ofnR n :
  pointsN (tr, bN, bD) np = true → pointsD (tr, bN, bD) dp = true →
  U OutOfBounds → (np = CallerBuf ∨ dp = CallerBuf → U InvalidDelete) →
  Moves (tr, bN, bD) (tr, false, false) U (remap_both np dp ofnQ ofnR n).
Proof.
  intros HN HD Hu Hdel. unfold remap_both.
  eapply Moves_bind; [by apply Moves_clear_resizeN|]. intros _.
  eapply Moves_bind; [by apply Moves_clear_resizeD|]. intros _.
  eapply Moves_bind; [apply Moves_gets|]. intros sz.
  eapply Moves_bind.
  { apply Moves_for. intros i.
    eapply Moves_bind; [by apply Moves_vget|]. intros q.
    eapply Moves_bind; [by apply Moves_derefD|]. intros tmp.
    eapply Moves_bind; [by apply Moves_vget|]. intros col.
    eapply Moves_bind; [by apply Moves_store_distances|]. intros _.
    eapply Moves_bind; [by apply Moves_size_distances|]. intros k.
    eapply Moves_bind; [by apply Moves_resize_neighbors|]. intros _.
    by apply Moves_map_neighbors. }
  intros _. apply Moves_bind with (fp1 := (tr, false, bD)).
  - destruct np; simpl in HN.
    + apply Moves_deleteN_caller. auto.
    + subst bN. apply Moves_deleteN_temp.
  - intros _. destruct dp; simpl in HD.
    + apply Moves_deleteD_caller. auto.
    + subst bD. apply Moves_deleteD_temp.
Qed.

Lemma Moves_remap_queries tr bN bD U np dp ofnQ n :
  pointsN (tr, bN, bD) np = true → pointsD (tr, bN, bD) dp = true →
  U OutOfBounds → (np = CallerBuf ∨ dp = CallerBuf → U InvalidDelete) →
  Moves (tr, bN, bD) (tr, false, false) U (remap_queries np dp ofnQ n).
Proof.
  intros HN HD Hu Hdel. unfold remap_queries.
  eapply Moves_bind; [by apply Moves_clear_resizeN|]. intros _.
  eapply Moves_bind; [by apply Moves_clear_resizeD|]. intros _.
  eapply Moves_bind; [apply Moves_gets|]. intros sz.
  eapply Moves_bind.
  { apply Moves_for. intros i.
    eapply Moves_bind; [by apply Moves_vget|]. intros q.
    eapply Moves_bind; [by apply Moves_derefD|]. intros tmp.
    eapply Moves_bind; [by apply Moves_vget|]. intros col.
    eapply Moves_bind; [by apply Moves_store_distances|]. intros _.
    eapply Moves_bind; [by apply Moves_derefN|]. intros tmp'.
    eapply Moves_bind; [by apply Moves_vget|]. intros row.
    by apply Moves_store_neighbors. }
  intros _. apply Moves_bind with (fp1 := (tr, false, bD)).
  - destruct np; simpl in HN.
    + apply Moves_deleteN_caller. auto.
    + subst bN. apply Moves_deleteN_temp.
  - intros _. destruct dp; simpl in HD.
    + apply Moves_deleteD_caller. auto.
    + subst bD. apply Moves_deleteD_temp.
Qed.

Lemma Moves_remap_references tr bN bD U np ofnR n :
  pointsN (tr, bN, bD) np = true →
  U OutOfBounds → (np = CallerBuf → U InvalidDelete) →
  Moves (tr, bN, bD) (tr, false, bD) U (remap_references np ofnR n).
Proof.
  intros HN Hu Hdel. unfold remap_references.
  eapply Moves_bind; [by apply Moves_clear_resizeN|]. intros _.
  eapply Moves_bind; [apply Moves_gets|]. intros sz.
  eapply Moves_bind.
  { apply Moves_for. intros i.
    eapply Moves_bind; [by apply Moves_derefN|]. intros tmp.
    eapply Moves_bind; [by apply Moves_vget|]. intros row.
    eapply Moves_bind; [by apply Moves_resize_neighbors|]. intros _.
    eapply Moves_bind; [by apply Moves_size_neighbors|]. intros k.
    by apply Moves_map_neighbors. }
  intros _. destruct np; simpl in HN.
  - apply Moves_deleteN_caller. auto.
  - subst bN. apply Moves_deleteN_temp.
Qed.

End FootprintRules.

Section FootprintOverloads.
Context {Point Dist : Type}.
Context `{!Scalar Dist, !MetricType Point Dist, !TreeType Point Dist}.
Implicit Types (m : Mem Point Dist Bound) (rs : RangeSearch Point).
Implicit Types (Q R : list Point) (range : Range Dist) (U : UB → Prop).

Lemma Moves_Search tr U rs Q range :
  U OutOfBounds → (QueryOnlyMapping rs → U InvalidDelete) →
  naive rs = true ∨ is_Some (referenceTree rs ≫= (tr !!.)) ∨ U DanglingPointer →
  Moves (tr, false, false) (tr, false, false) U (Search rs Q range).
Proof.
  intros Hu Hdel Hlive m Hm. rewrite Search_phases.
  set (bN := RearrangesDataset && treeOwner rs).
  set (bD := RearrangesDataset && (negb (singleMode rs) && negb (naive rs))).
  assert (footprint (writeOut (neighbor_ptr rs) (distance_ptr rs)
            (init (length Q)) m) = (tr, bN, bD)) as Hm0.
  { injection Hm as <- HN HD. unfold neighbor_ptr, distance_ptr, footprint.
    fold bN bD. destruct bN, bD; simpl; by rewrite ?HN, ?HD. }
  revert Hm0. generalize (writeOut (neighbor_ptr rs) (distance_ptr rs)
                            (init (length Q)) m).
  change (Moves (tr, bN, bD) (tr, false, false) U
    ('(ofnQ, Q') ← Search_traversal rs (neighbor_ptr rs) (distance_ptr rs) Q range;
     Search_mapping rs (neighbor_ptr rs) (distance_ptr rs) ofnQ (length Q') ;;
     mret Q')).
  assert (pointsN (tr, bN, bD) (neighbor_ptr rs) = true) as HpN.
  { unfold neighbor_ptr. fold bN. by destruct bN. }
  assert (pointsD (tr, bN, bD) (distance_ptr rs) = true) as HpD.
  { unfold distance_ptr. fold bD. by destruct bD. }
  eapply Moves_bind; [by apply Moves_Search_traversal|].
  intros [ofnQ Q']. eapply Moves_bind; [|intros _; apply Moves_ret].
  unfold Search_mapping, QueryOnlyMapping, neighbor_ptr, distance_ptr in *.
  unfold bN, bD in *. clear bN bD.
  destruct RearrangesDataset; simpl in *; [|apply Moves_ret].
  destruct (singleMode rs), (naive rs), (treeOwner rs); simpl in *;
    try apply Moves_ret;
    try (apply Moves_remap_references; done).
  - apply Moves_remap_both; try done. by intros [?|?].
  - apply Moves_remap_queries; try done. intros _. by apply Hdel.
Qed.

Lemma Moves_new_neighbors_bind {B} tr bN bD fp' U (f : BufPtr → M _ B) :
  Moves (tr, true, bD) fp' U (f TempBuf) →
  Moves (tr, bN, bD) fp' U (new_neighbors ≫= f).
Proof. intros Hf m [= <- <- <-]. by apply Hf. Qed.

Lemma Moves_Search_tree tr U rs p range :
  singleMode rs = false → naive rs = false → U OutOfBounds →
  is_Some (p ≫= (tr !!.)) ∨ U DanglingPointer →
  is_Some (referenceTree rs ≫= (tr !!.)) ∨ U DanglingPointer →
  Moves (tr, false, false) (tr, false, false) U (Search_tree rs p range).
Proof.
  intros Hs Hn Hu Hq Hr. unfold Search_tree.
  eapply Moves_bind; [by apply Moves_deref_tree|]. intros qt.
  rewrite Hs, Hn. cbn [orb].
  destruct (treeOwner rs && RearrangesDataset).
  - apply Moves_new_neighbors_bind.
    eapply Moves_bind; [by apply Moves_clear_resizeN|]. intros _.
    eapply Moves_bind; [by apply Moves_clear_resizeD|]. intros _.
    eapply Moves_bind; [by apply Moves_deref_tree|]. intros rt.
    eapply Moves_bind; [by apply Moves_with_rules|]. intros _.
    by apply Moves_remap_references.
  - change (Moves (tr, false, false) (tr, false, false) U
      (clear_resizeN CallerBuf (length (Dataset qt)) ;;
       clear_resizeD CallerBuf (length (Dataset qt)) ;;
       rt ← deref_tree (referenceTree rs);
       with_rules CallerBuf CallerBuf
         (DualTraverse {| r_referenceSet := referenceSet rs;
                          r_querySet := Dataset qt;
                          r_range := range; r_sameSet := false |}
            (root qt) (root rt)) ;;
       mret tt)).
    eapply Moves_bind; [by apply Moves_clear_resizeN|]. intros _.
    eapply Moves_bind; [by apply Moves_clear_resizeD|]. intros _.
    eapply Moves_bind; [by apply Moves_deref_tree|]. intros rt.
    eapply Moves_bind; [by apply Moves_with_rules|]. intros _.
    apply Moves_ret.
Qed.

Lemma Moves_Search_self_traversal tr bN bD U rs p range :
  pointsN (tr, bN, bD) p = true → pointsD (tr, bN, bD) p = true →
  U OutOfBounds →
  naive rs = true ∨ is_Some (referenceTree rs ≫= (tr !!.)) ∨ U DanglingPointer →
  Moves (tr, bN, bD) (tr, bN, bD) U (Search_self_traversal rs p p range).
Proof.
  intros HN HD Hu Hlive. unfold Search_self_traversal.
  destruct (naive rs); [by apply Moves_naive_loops|].
  destruct Hlive as [?|Hlive]; [done|].
  destruct (singleMode rs); [by apply Moves_single_loop|].
  eapply Moves_bind; [by apply Moves_deref_tree|]. intros rt.
  by apply Moves_with_rules.
Qed.

Lemma Moves_Search_self tr U rs range :
  U OutOfBounds →
  naive rs = true ∨ is_Some (referenceTree rs ≫= (tr !!.)) ∨ U DanglingPointer →
  Moves (tr, false, false) (tr, false, false) U (Search_self rs range).
Proof.
  intros Hu Hlive m Hm. rewrite Search_self_phases. cbv zeta.
  set (b := RearrangesDataset && treeOwner rs).
  set (p := if b then TempBuf else CallerBuf).
  assert (footprint (writeOut p p (init (length (referenceSet rs))) m)
          = (tr, b, b)) as Hm0.
  { injection Hm as <- HN HD. unfold p, footprint.
    destruct b; simpl; by rewrite ?HN, ?HD. }
  revert Hm0. generalize (writeOut p p (init (length (referenceSet rs))) m).
  change (Moves (tr, b, b) (tr, false, false) U
    (Search_self_traversal rs p p range ;;
     if treeOwner rs && RearrangesDataset
     then remap_both p p (oldFromNewReferences rs) (oldFromNewReferences rs)
            (length (referenceSet rs))
     else mret tt)).
  assert (pointsN (tr, b, b) p = true) as HpN by (unfold p; by destruct b).
  assert (pointsD (tr, b, b) p = true) as HpD by (unfold p; by destruct b).
  eapply Moves_bind; [by apply Moves_Search_self_traversal|]. intros _.
  rewrite (andb_comm (treeOwner rs)). fold b. unfold p in *. destruct b.
  - apply Moves_remap_both; try done. by intros [?|?].
  - apply Moves_ret.
Qed.

End FootprintOverloads.

(** ** How the three overloads can end *)

Section Outcomes.
Context {Point Dist : Type}.
Context `{!Scalar Dist, !MetricType Point Dist, !TreeType Point Dist}.
Implicit Types (m : Mem Point Dist Bound) (rs : RangeSearch Point).
Implicit Types (Q R : list Point) (range : Range Dist) (U : UB → Prop).

Lemma footprint_clean m :
  tmpNeighbors m = None → tmpDistances m = None →
  footprint m = (trees m, false, false).
Proof. unfold footprint. by intros -> ->. Qed.

Lemma clean_footprint m tr :
  footprint m = (tr, false, false) →
  trees m = tr ∧ tmpNeighbors m = None ∧ tmpDistances m = None.
Proof.
  unfold footprint. intros [= -> HN HD].
  by destruct (tmpNeighbors m), (tmpDistances m).
Qed.

(** X1: [Search(querySet, ...)] on an object that is naive or whose
    reference tree is on the heap, called with no temporary outstanding.
    It throws nothing and dereferences no dead pointer.  When it returns,
    the heap of trees is as before (the query tree it built is deleted) and
    both temporaries are deleted.  The only undefined behaviour left is an
    index out of range and, in the query-only mapping, the [delete] of the
    caller's vector. *)
Theorem Search_outcomes rs Q range m :
  tmpNeighbors m = None → tmpDistances m = None →
  naive rs = true ∨ is_Some (referenceTree rs ≫= (trees m !!.)) →
  match Search rs Q range m with
  | Returned _ m' =>
      trees m' = trees m ∧ tmpNeighbors m' = None ∧ tmpDistances m' = None
  | Throws _ _ => False
  | Undefined u _ => u = OutOfBounds ∨ (u = InvalidDelete ∧ QueryOnlyMapping rs)
  end.
Proof.
  intros HN HD Hlive.
  pose proof (Moves_Search (trees m)
    (λ u, u = OutOfBounds ∨ (u = InvalidDelete ∧ QueryOnlyMapping rs))
    rs Q range) as H.
  specialize (H ltac:(by left) ltac:(by right) ltac:(tauto) m
    (footprint_clean m HN HD)).
  destruct (Search rs Q range m); [by apply clean_footprint|done..].
Qed.

(** X2: [Search(queryTree, ...)] with the query tree on the heap, on an
    object that is naive or whose reference tree is on the heap, called
    with no temporary outstanding.  It ends
    in one of three ways: it throws, in naive or single-tree mode, with the
    memory untouched; it returns, in dual-tree mode, with the heap of trees
    as before (the caller's query tree is not deleted) and no temporary
    left; or it reads an index out of range. *)
Theorem Search_tree_outcomes rs p range m :
  tmpNeighbors m = None → tmpDistances m = None →
  is_Some (p ≫= (trees m !!.)) →
  naive rs = true ∨ is_Some (referenceTree rs ≫= (trees m !!.)) →
  match Search_tree rs p range m with
  | Returned _ m' =>
      singleMode rs = false ∧ naive rs = false ∧
      trees m' = trees m ∧ tmpNeighbors m' = None ∧ tmpDistances m' = None
  | Throws _ m' => (singleMode rs = true ∨ naive rs = true) ∧ m' = m
  | Undefined u _ => u = OutOfBounds
  end.
Proof.
  intros HN HD Hq Hlive.
  destruct (singleMode rs) eqn:Hs; [|destruct (naive rs) eqn:Hn].
  - unfold Search_tree, deref_tree. rewrite bind_eval.
    destruct Hq as [qt ->]. rewrite Hs. simpl. auto.
  - unfold Search_tree, deref_tree. rewrite bind_eval.
    destruct Hq as [qt ->]. rewrite Hs, Hn. simpl. auto.
  - destruct Hlive as [?|Hlive]; [done|].
    pose proof (Moves_Search_tree (trees m) (λ u, u = OutOfBounds)
      rs p range Hs Hn eq_refl ltac:(by left) ltac:(by left) m
      (footprint_clean m HN HD)) as H.
    destruct (Search_tree rs p range m); [|done..].
    by apply clean_footprint in H.
Qed.

(** X3: [Search(range, ...)] on an object that is naive or whose
    reference tree is on the heap, called with no temporary outstanding.
    It never throws, never deletes the
    caller's vectors and dereferences no dead pointer; when it returns, the
    heap of trees is as before and both temporaries are deleted. *)
Theorem Search_self_outcomes rs range m :
  tmpNeighbors m = None → tmpDistances m = None →
  naive rs = true ∨ is_Some (referenceTree rs ≫= (trees m !!.)) →
  match Search_self rs range m with
  | Returned _ m' =>
      trees m' = trees m ∧ tmpNeighbors m' = None ∧ tmpDistances m' = None
  | Throws _ _ => False
  | Undefined u _ => u = OutOfBounds
  end.
Proof.
  intros HN HD Hlive.
  pose proof (Moves_Search_self (trees m) (λ u, u = OutOfBounds)
    rs range eq_refl ltac:(tauto) m (footprint_clean m HN HD)) as H.
  destruct (Search_self rs range m); [by apply clean_footprint|done..].
Qed.

Lemma NoThrow_ret {S A} (a : A) : NoThrow (S:=S) (mret a).
Proof. by intros s e s'. Qed.

Lemma NoThrow_bind {S A B} (c : M S A) (f : A → M S B) :
  NoThrow c → (∀ a, NoThrow (f a)) → NoThrow (c ≫= f).
Proof.
  intros Hc Hf s e s'. rewrite bind_eval. specialize (Hc s e s').
  destruct (c s) as [a s1| |] eqn:E; [apply Hf|congruence|done].
Qed.

Lemma NoThrow_for {S} (l : list nat) (body : nat → M S unit) :
  (∀ i, NoThrow (body i)) → NoThrow (for_ l body).
Proof.
  intros Hbody. induction l as [|i l IH]; simpl; [apply NoThrow_ret|].
  apply NoThrow_bind; [apply Hbody|by intros _].
Qed.

Lemma NoThrow_total {S A} (c : M S A) :
  (∀ s, match c s with Throws _ _ => False | _ => True end) → NoThrow c.
Proof. intros H s e s' E. specialize (H s). by rewrite E in H. Qed.

Lemma NoThrow_vget {S A} (v : list A) i : NoThrow (S:=S) (vget v i).
Proof. apply NoThrow_total. intros s. unfold vget. by destruct (v !! i). Qed.
Lemma NoThrow_derefN p : NoThrow (derefN p).
Proof. apply NoThrow_total. intros m. unfold derefN. by repeat case_match. Qed.
Lemma NoThrow_derefD p : NoThrow (derefD p).
Proof. apply NoThrow_total. intros m. unfold derefD. by repeat case_match. Qed.
Lemma NoThrow_deref_tree p : NoThrow (deref_tree p).
Proof. apply NoThrow_total. intros m. unfold deref_tree. by repeat case_match. Qed.
Lemma NoThrow_delete_tree a : NoThrow (delete_tree a).
Proof. apply NoThrow_total. intros m. unfold delete_tree. by repeat case_match. Qed.
Lemma NoThrow_new_tree t : NoThrow (new_tree t).
Proof. by apply NoThrow_total. Qed.
Lemma NoThrow_gets {A} (f : Mem Point Dist Bound → A) : NoThrow (gets f).
Proof. by apply NoThrow_total. Qed.
Lemma NoThrow_modify (f : Mem Point Dist Bound → _) : NoThrow (modify f).
Proof. by apply NoThrow_total. Qed.
Lemma NoThrow_undefined {A} u : NoThrow (S:=Mem Point Dist Bound) (A:=A) (undefined u).
Proof. by apply NoThrow_total. Qed.

Ltac no_throw_step extra :=
  lazymatch goal with
  | |- NoThrow (mret _) => apply NoThrow_ret
  | |- NoThrow (_ ≫= _) => apply NoThrow_bind; [|intros ?]
  | |- NoThrow (for_ _ _) => apply NoThrow_for; intros ?
  | |- NoThrow (if ?b then _ else _) => destruct b
  | |- NoThrow (match ?x with _ => _ end) => destruct x
  | |- NoThrow (vget _ _) => apply NoThrow_vget
  | |- NoThrow (derefN _) => apply NoThrow_derefN
  | |- NoThrow (derefD _) => apply NoThrow_derefD
  | |- NoThrow (deref_tree _) => apply NoThrow_deref_tree
  | |- NoThrow (delete_tree _) => apply NoThrow_delete_tree
  | |- NoThrow (new_tree _) => apply NoThrow_new_tree
  | |- NoThrow (gets _) => apply NoThrow_gets
  | |- NoThrow (modify _) => apply NoThrow_modify
  | |- NoThrow (undefined _) => apply NoThrow_undefined
  | |- _ => extra
  end.
Ltac no_throw := repeat no_throw_step fail.

Lemma NoThrow_assignN p v : NoThrow (assignN p v).
Proof. unfold assignN. no_throw. Qed.
Lemma NoThrow_assignD p v : NoThrow (assignD p v).
Proof. unfold assignD. no_throw. Qed.
Lemma NoThrow_with_rules np dp call : NoThrow (with_rules np dp call).
Proof.
  unfold with_rules.
  repeat no_throw_step ltac:(first [apply NoThrow_assignN | apply NoThrow_assignD]).
Qed.
Lemma NoThrow_clear_resizeN p n : NoThrow (clear_resizeN p n).
Proof. unfold clear_resizeN. repeat no_throw_step ltac:(apply NoThrow_assignN). Qed.
Lemma NoThrow_clear_resizeD p n : NoThrow (clear_resizeD p n).
Proof. unfold clear_resizeD. repeat no_throw_step ltac:(apply NoThrow_assignD). Qed.
Lemma NoThrow_deleteN p : NoThrow (deleteN p).
Proof. unfold deleteN. no_throw. Qed.
Lemma NoThrow_deleteD p : NoThrow (deleteD p).
Proof. unfold deleteD. no_throw. Qed.
Lemma NoThrow_map_neighbors np ofn q i sz : NoThrow (map_neighbors np ofn q i sz).
Proof. unfold map_neighbors, store_neighbor. no_throw. Qed.

Lemma NoThrow_new_neighbors : NoThrow new_neighbors.
Proof. unfold new_neighbors. no_throw. Qed.
Lemma NoThrow_new_distances : NoThrow new_distances.
Proof. unfold new_distances. no_throw. Qed.

Ltac no_throw_known :=
  idtac; lazymatch goal with
  | |- NoThrow new_neighbors => apply NoThrow_new_neighbors
  | |- NoThrow new_distances => apply NoThrow_new_distances
  | |- NoThrow (assignN _ _) => apply NoThrow_assignN
  | |- NoThrow (assignD _ _) => apply NoThrow_assignD
  | |- NoThrow (with_rules _ _ _) => apply NoThrow_with_rules
  | |- NoThrow (clear_resizeN _ _) => apply NoThrow_clear_resizeN
  | |- NoThrow (clear_resizeD _ _) => apply NoThrow_clear_resizeD
  | |- NoThrow (deleteN _) => apply NoThrow_deleteN
  | |- NoThrow (deleteD _) => apply NoThrow_deleteD
  | |- NoThrow (map_neighbors _ _ _ _ _) => apply NoThrow_map_neighbors
  end.
Ltac no_throw' := repeat no_throw_step no_throw_known.

Lemma NoThrow_remap_both np dp ofnQ ofnR n : NoThrow (remap_both np dp ofnQ ofnR n).
Proof.
  unfold remap_both, store_distances, size_distances, resize_neighbors. no_throw'.
Qed.
Lemma NoThrow_remap_queries np dp ofnQ n : NoThrow (remap_queries np dp ofnQ n).
Proof. unfold remap_queries, store_distances, store_neighbors. no_throw'. Qed.
Lemma NoThrow_remap_references np ofnR n : NoThrow (remap_references np ofnR n).
Proof. unfold remap_references, size_neighbors, resize_neighbors. no_throw'. Qed.
Lemma NoThrow_naive_loops np dp rules nq nr : NoThrow (naive_loops np dp rules nq nr).
Proof. unfold naive_loops. no_throw'. Qed.
Lemma NoThrow_single_loop np dp rules p n : NoThrow (single_loop np dp rules p n).
Proof. unfold single_loop. no_throw'. Qed.
Lemma NoThrow_BuildTree (data : list Point) ofn : NoThrow (BuildTree data ofn).
Proof. unfold BuildTree. no_throw'. Qed.

Ltac no_throw_calls :=
  idtac; lazymatch goal with
  | |- NoThrow (remap_both _ _ _ _ _) => apply NoThrow_remap_both
  | |- NoThrow (remap_queries _ _ _ _) => apply NoThrow_remap_queries
  | |- NoThrow (remap_references _ _ _) => apply NoThrow_remap_references
  | |- NoThrow (naive_loops _ _ _ _ _) => apply NoThrow_naive_loops
  | |- NoThrow (single_loop _ _ _ _ _) => apply NoThrow_single_loop
  | |- NoThrow (BuildTree _ _) => apply NoThrow_BuildTree
  | |- _ => no_throw_known
  end.
Ltac no_throw'' := repeat no_throw_step no_throw_calls.

Lemma NoThrow_Search rs Q range : NoThrow (Search rs Q range).
Proof.
  intros m e m'. rewrite Search_phases. revert e m'.
  generalize (writeOut (neighbor_ptr rs) (distance_ptr rs) (init (length Q)) m).
  change (NoThrow
    ('(ofnQ, Q') ← Search_traversal rs (neighbor_ptr rs) (distance_ptr rs) Q range;
     Search_mapping rs (neighbor_ptr rs) (distance_ptr rs) ofnQ (length Q') ;;
     mret Q')).
  unfold Search_traversal, Search_mapping. no_throw''.
Qed.

Lemma NoThrow_Search_self rs range : NoThrow (Search_self rs range).
Proof.
  intros m e m'. rewrite Search_self_phases. cbv zeta. revert e m'.
  generalize (writeOut
    (if RearrangesDataset && treeOwner rs then TempBuf else CallerBuf)
    (if RearrangesDataset && treeOwner rs then TempBuf else CallerBuf)
    (init (length (referenceSet rs))) m).
  match goal with |- ∀ m0 e m', ?c m0 ≠ _ => change (NoThrow c) end.
  unfold Search_self_traversal. no_throw''.
Qed.

(** X4: the usage error is the only exception of the three overloads,
    and it is thrown exactly in the misuse case.  [Search(queryTree, ...)]
    throws if and only if the query tree pointer is live and [singleMode] or
    [naive] is set, and then the memory is as before; with a dead query tree
    pointer the dereference in its first statement comes before the test.
    The other two overloads never throw. *)
Theorem usage_error_exactly :
  (∀ rs p range m e m',
     Search_tree rs p range m = Throws e m' ↔
     is_Some (p ≫= (trees m !!.)) ∧
     (singleMode rs = true ∨ naive rs = true) ∧ m' = m) ∧
  (∀ rs Q range m e m', Search rs Q range m ≠ Throws e m') ∧
  (∀ rs range m e m', Search_self rs range m ≠ Throws e m').
Proof.
  split; [|split; [intros; apply NoThrow_Search|intros; apply NoThrow_Search_self]].
  intros rs p range m e m'. destruct e. split.
  - intros H. destruct (p ≫= (trees m !!.)) as [qt|] eqn:Hq.
    2:{ unfold Search_tree, deref_tree in H. rewrite bind_eval, Hq in H. done. }
    split; [by eexists|].
    unfold Search_tree in H. rewrite bind_eval in H.
    unfold deref_tree at 1 in H. rewrite Hq in H.
    destruct (singleMode rs) eqn:Hs; [|destruct (naive rs) eqn:Hn].
    + injection H as <-. auto.
    + injection H as <-. auto.
    + exfalso. cbn [orb] in H.
      match type of H with ?c m = _ => assert (NoThrow c) as HNT end;
        [|by apply HNT in H].
      no_throw''.
  - intros ([qt Hq] & Hmode & ->). unfold Search_tree, deref_tree.
    rewrite bind_eval, Hq.
    by destruct Hmode as [-> | ->]; rewrite ?orb_true_r.
Qed.

End Outcomes.

(** ** The caller's buffers before the call *)

Section Frames.
Context {Point Dist : Type}.
Context `{!Scalar Dist, !MetricType Point Dist, !TreeType Point Dist}.
Implicit Types (m : Mem Point Dist Bound) (rs : RangeSearch Point).
Implicit Types (Q R : list Point) (range : Range Dist).

Lemma Commutes_ret {S A} (f : S → S) (a : A) : Commutes f (mret a).
Proof. by intros s. Qed.

Lemma Commutes_bind {S A B} (f : S → S) (c : M S A) (k : A → M S B) :
  Commutes f c → (∀ a, Commutes f (k a)) → Commutes f (c ≫= k).
Proof.
  intros Hc Hk s. rewrite !bind_eval, Hc.
  destruct (c s) as [a s1| |]; simpl; [apply Hk|done..].
Qed.

Lemma Commutes_for {S} (f : S → S) (l : list nat) (body : nat → M S unit) :
  (∀ i, Commutes f (body i)) → Commutes f (for_ l body).
Proof.
  intros Hbody. induction l as [|i l IH]; simpl; [apply Commutes_ret|].
  apply Commutes_bind; [apply Hbody|by intros _].
Qed.

Lemma Commutes_derefN f np dp : Untouched f np dp → Commutes f (derefN np).
Proof.
  intros Hf m. pose proof (untouched_readN _ _ _ Hf m) as H. clear Hf.
  destruct np.
  - injection H as H. unfold derefN. simpl. by rewrite H.
  - unfold derefN. simpl in *. rewrite H. by destruct (tmpNeighbors m).
Qed.

Lemma Commutes_derefD f np dp : Untouched f np dp → Commutes f (derefD dp).
Proof.
  intros Hf m. pose proof (untouched_readD _ _ _ Hf m) as H. clear Hf.
  destruct dp.
  - injection H as H. unfold derefD. simpl. by rewrite H.
  - unfold derefD. simpl in *. rewrite H. by destruct (tmpDistances m).
Qed.

Lemma derefN_same p m a m1 : derefN p m = Returned a m1 → m1 = m.
Proof.
  destruct p; simpl; [congruence|]. destruct (tmpNeighbors m); congruence.
Qed.

Lemma derefD_same p m a m1 : derefD p m = Returned a m1 → m1 = m.
Proof.
  destruct p; simpl; [congruence|]. destruct (tmpDistances m); congruence.
Qed.

Lemma Commutes_assignN f np dp v : Untouched f np dp → Commutes f (assignN np v).
Proof.
  intros Hf m. unfold assignN. rewrite !bind_eval, (Commutes_derefN f np dp Hf).
  pose proof (untouched_writeN _ _ _ Hf m v) as H. clear Hf.
  destruct (derefN np m) as [a s1| |] eqn:E; simpl; [|done..].
  apply derefN_same in E as ->.
  destruct np; unfold modify; simpl in *; by rewrite H.
Qed.

Lemma Commutes_assignD f np dp v : Untouched f np dp → Commutes f (assignD dp v).
Proof.
  intros Hf m. unfold assignD. rewrite !bind_eval, (Commutes_derefD f np dp Hf).
  pose proof (untouched_writeD _ _ _ Hf m v) as H. clear Hf.
  destruct (derefD dp m) as [a s1| |] eqn:E; simpl; [|done..].
  apply derefD_same in E as ->.
  destruct dp; unfold modify; simpl in *; by rewrite H.
Qed.

Lemma Commutes_with_rules f np dp call :
  Untouched f np dp → Commutes f (with_rules np dp call).
Proof.
  intros Hf. unfold with_rules.
  apply Commutes_bind; [by eapply Commutes_derefN|]. intros ns.
  apply Commutes_bind; [by eapply Commutes_derefD|]. intros ds.
  destruct (call (ns, ds)); [|by intros m].
  apply Commutes_bind; [by eapply Commutes_assignN|]. intros _.
  by eapply Commutes_assignD.
Qed.

Lemma Commutes_deref_tree f np dp p :
  Untouched f np dp → Commutes f (deref_tree p).
Proof.
  intros Hf m. unfold deref_tree. rewrite (untouched_trees _ _ _ Hf).
  by destruct (p ≫= (trees m !!.)).
Qed.

Lemma Commutes_new_tree f np dp t : Untouched f np dp → Commutes f (new_tree t).
Proof.
  intros Hf m. unfold new_tree. rewrite (untouched_trees _ _ _ Hf). simpl.
  by rewrite (untouched_set_trees _ _ _ Hf).
Qed.

Lemma Commutes_delete_tree f np dp a :
  Untouched f np dp → Commutes f (delete_tree a).
Proof.
  intros Hf m. unfold delete_tree. rewrite (untouched_trees _ _ _ Hf).
  destruct (trees m !! a); simpl; [|done].
  by rewrite (untouched_set_trees _ _ _ Hf).
Qed.

Lemma Commutes_BuildTree f np dp (data : list Point) ofn :
  Untouched f np dp → Commutes f (BuildTree data ofn).
Proof.
  intros Hf. unfold BuildTree. destruct RearrangesDataset;
    (apply Commutes_bind; [by eapply Commutes_new_tree|intros a; apply Commutes_ret]).
Qed.

Lemma Commutes_naive_loops f np dp rules nq nr :
  Untouched f np dp → Commutes f (naive_loops np dp rules nq nr).
Proof.
  intros Hf. unfold naive_loops.
  apply Commutes_for. intros i. apply Commutes_for. intros j.
  by apply Commutes_with_rules.
Qed.

Lemma Commutes_single_loop f np dp rules p n :
  Untouched f np dp → Commutes f (single_loop np dp rules p n).
Proof.
  intros Hf. unfold single_loop. apply Commutes_for. intros i.
  apply Commutes_bind; [by eapply Commutes_deref_tree|]. intros t.
  by apply Commutes_with_rules.
Qed.

Lemma Commutes_Search_traversal f np dp rs Q range :
  Untouched f np dp → Commutes f (Search_traversal rs np dp Q range).
Proof.
  intros Hf. unfold Search_traversal.
  destruct (naive rs); [|destruct (singleMode rs)].
  - apply Commutes_bind; [by apply Commutes_naive_loops|].
    intros _; apply Commutes_ret.
  - apply Commutes_bind; [by apply Commutes_single_loop|].
    intros _; apply Commutes_ret.
  - apply Commutes_bind; [by eapply Commutes_BuildTree|]. intros [[a ofn] Q'].
    apply Commutes_bind; [by eapply Commutes_deref_tree|]. intros qt.
    apply Commutes_bind; [by eapply Commutes_deref_tree|]. intros rt.
    apply Commutes_bind; [by apply Commutes_with_rules|]. intros _.
    apply Commutes_bind; [by eapply Commutes_delete_tree|]. intros _.
    apply Commutes_ret.
Qed.

Lemma Commutes_Search_self_traversal f p rs range :
  Untouched f p p → Commutes f (Search_self_traversal rs p p range).
Proof.
  intros Hf. unfold Search_self_traversal.
  destruct (naive rs); [|destruct (singleMode rs)].
  - by apply Commutes_naive_loops.
  - by apply Commutes_single_loop.
  - apply Commutes_bind; [by eapply Commutes_deref_tree|]. intros rt.
    by apply Commutes_with_rules.
Qed.

Lemma aside_untouched np dp N0 D0 : Untouched (aside np dp N0 D0) np dp.
Proof. by destruct np, dp; split; intros; destruct m. Qed.

Lemma writeOut_aside np dp out N0 D0 m :
  writeOut np dp out (set_neighbors N0 (set_distances D0 m)) =
  aside np dp N0 D0 (writeOut np dp out m).
Proof. by destruct np, dp. Qed.

Lemma undo_set_buffers N0 D0 m :
  set_neighbors (neighbors m) (set_distances (distances m)
    (set_neighbors N0 (set_distances D0 m))) = m.
Proof. by destruct m. Qed.

Lemma Search_mapping_aside rs ofnQ n N0 D0 m :
  Search_mapping rs (neighbor_ptr rs) (distance_ptr rs) ofnQ n
    (aside (neighbor_ptr rs) (distance_ptr rs) N0 D0 m) =
  Search_mapping rs (neighbor_ptr rs) (distance_ptr rs) ofnQ n m.
Proof.
  unfold Search_mapping, neighbor_ptr, distance_ptr.
  destruct RearrangesDataset; [|done]. simpl.
  destruct (singleMode rs), (naive rs), (treeOwner rs); reflexivity.
Qed.

Lemma Search_ignores_contents rs Q range m N0 D0 Q' m' :
  Search rs Q range m = Returned Q' m' →
  Search rs Q range (set_neighbors N0 (set_distances D0 m)) = Returned Q' m'.
Proof.
  rewrite !Search_phases, writeOut_aside.
  set (np := neighbor_ptr rs). set (dp := distance_ptr rs).
  generalize (writeOut np dp (init (length Q)) m). clear m. intros m H.
  apply bind_returned_inv in H as ([ofnQ Q2] & m1 & Htrav & H).
  rewrite bind_eval.
  rewrite (Commutes_Search_traversal _ np dp rs Q range (aside_untouched np dp N0 D0)), Htrav.
  simpl. rewrite bind_eval. unfold np, dp. rewrite Search_mapping_aside.
  by rewrite bind_eval in H.
Qed.

Lemma Search_tree_ignores_contents rs p range m N0 D0 m' :
  Search_tree rs p range m = Returned tt m' →
  Search_tree rs p range (set_neighbors N0 (set_distances D0 m)) = Returned tt m'.
Proof.
  intros H.
  assert (∃ qa qt, p = Some qa ∧ trees m !! qa = Some qt ∧
                   naive rs = false ∧ singleMode rs = false)
    as (qa & qt & -> & Hq & Hn & Hs).
  { unfold Search_tree in H. rewrite bind_eval in H. unfold deref_tree at 1 in H.
    destruct p as [qa|]; simpl in H; [|done].
    destruct (trees m !! qa) as [qt|] eqn:Hq; [|done].
    exists qa, qt. by destruct (singleMode rs), (naive rs). }
  rewrite (Search_tree_phases rs qa qt range) in H |- * by done.
  cbv zeta in *. rewrite writeOut_aside.
  set (np := if treeOwner rs && RearrangesDataset then TempBuf else CallerBuf) in *.
  revert H. generalize (writeOut np CallerBuf (init (length (Dataset qt))) m).
  clear m Hq. intros m H.
  pose proof (aside_untouched np CallerBuf N0 D0) as Hf.
  apply bind_returned_inv in H as (rt & m1 & Hrt & H).
  apply bind_returned_inv in H as ([] & m2 & Hrun & H).
  rewrite bind_eval, (Commutes_deref_tree _ _ _ _ Hf), Hrt. simpl.
  rewrite bind_eval, (Commutes_with_rules _ _ _ _ Hf), Hrun. simpl.
  rewrite <- H. unfold np. by destruct (treeOwner rs && RearrangesDataset).
Qed.

Lemma Search_self_ignores_contents rs range m N0 D0 m' :
  Search_self rs range m = Returned tt m' →
  Search_self rs range (set_neighbors N0 (set_distances D0 m)) = Returned tt m'.
Proof.
  rewrite !Search_self_phases. cbv zeta. rewrite writeOut_aside.
  set (p := if RearrangesDataset && treeOwner rs then TempBuf else CallerBuf).
  generalize (writeOut p p (init (length (referenceSet rs))) m).
  clear m. intros m H.
  pose proof (aside_untouched p p N0 D0) as Hf.
  apply bind_returned_inv in H as ([] & m1 & Hrun & H).
  rewrite bind_eval, (Commutes_Search_self_traversal _ _ _ _ Hf), Hrun. simpl.
  rewrite <- H. unfold p. rewrite (andb_comm (treeOwner rs)).
  by destruct (RearrangesDataset && treeOwner rs).
Qed.

(** X5: what the two output buffers hold at the call does not matter.
    For every object, tree type and input, each overload returns from a
    memory with other buffer contents exactly when it returns from the
    original one, and then with the same final memory. *)
Theorem earlier_contents_ignored rs m N0 D0 :
  (∀ Q range Q' m',
     Search rs Q range (set_neighbors N0 (set_distances D0 m)) = Returned Q' m' ↔
     Search rs Q range m = Returned Q' m') ∧
  (∀ p range m',
     Search_tree rs p range (set_neighbors N0 (set_distances D0 m)) = Returned tt m' ↔
     Search_tree rs p range m = Returned tt m') ∧
  (∀ range m',
     Search_self rs range (set_neighbors N0 (set_distances D0 m)) = Returned tt m' ↔
     Search_self rs range m = Returned tt m').
Proof.
  split; [|split].
  - intros Q range Q' m'. split; [|apply Search_ignores_contents].
    intros H. rewrite <- (undo_set_buffers N0 D0 m).
    by apply Search_ignores_contents.
  - intros p range m'. split; [|apply Search_tree_ignores_contents].
    intros H. rewrite <- (undo_set_buffers N0 D0 m).
    by apply Search_tree_ignores_contents.
  - intros range m'. split; [|apply Search_self_ignores_contents].
    intros H. rewrite <- (undo_set_buffers N0 D0 m).
    by apply Search_self_ignores_contents.
Qed.

End Frames.

(** ** Calls in sequence *)

Section Sequences.
Context {Point Dist : Type}.
Context `{!Scalar Dist, !MetricType Point Dist, !TreeType Point Dist}.
Implicit Types (m : Mem Point Dist Bound) (rs : RangeSearch Point).
Implicit Types (Q R : list Point) (range : Range Dist).

Lemma Search_frame rs Q range m Q' m' :
  tmpNeighbors m = None → tmpDistances m = None →
  Search rs Q range m = Returned Q' m' →
  trees m' = trees m ∧ tmpNeighbors m' = None ∧ tmpDistances m' = None.
Proof.
  intros HN HD H.
  pose proof (Moves_Search (trees m) (λ _, True) rs Q range I (λ _, I)
    ltac:(tauto) m (footprint_clean m HN HD)) as HM.
  rewrite H in HM. by apply clean_footprint.
Qed.

(** X7: construction from a raw reference set, a search and destruction
    in sequence, starting with no temporary outstanding.  Whenever the search returns, the destructor returns too,
    the heap of trees is the one before the construction, no temporary is
    left and the results are still in the two buffers. *)
Theorem construct_search_destroy R nv single Q range m rs R' m1 Q' m2 :
  tmpNeighbors m = None → tmpDistances m = None →
  RangeSearch_raw R nv single m = Returned (rs, R') m1 →
  Search rs Q range m1 = Returned Q' m2 →
  ∃ m3, RangeSearch_dtor rs m2 = Returned tt m3 ∧
        trees m3 = trees m ∧ tmpNeighbors m3 = None ∧ tmpDistances m3 = None ∧
        neighbors m3 = neighbors m2 ∧ distances m3 = distances m2.
Proof.
  intros HN HD Hctor Hsearch. destruct nv.
  - rewrite RangeSearch_raw_naive in Hctor. injection Hctor as <- <- <-.
    destruct (Search_frame _ _ _ _ _ _ HN HD Hsearch) as (Htr & HN2 & HD2).
    exists m2. by rewrite Htr.
  - rewrite RangeSearch_raw_tree in Hctor. injection Hctor as <- <- <-.
    destruct (Search_frame _ _ _ (set_trees _ m) _ _ HN HD Hsearch)
      as (Htr & HN2 & HD2).
    simpl in Htr. unfold RangeSearch_dtor, delete_tree. simpl.
    rewrite Htr, lookup_insert_eq. eexists. split; [done|]. simpl.
    by rewrite Htr, delete_fresh_insert.
Qed.

(** X9: which call hands a caller's matrix to a tree constructor by
    non-const reference: the constructor from a raw set when it is not
    naive and the tree type rearranges, and [Search(querySet, ...)] in
    dual-tree mode when the tree type rearranges; the matrix comes back as
    that constructor left it.  In every other case the matrix comes back as
    it was given, whatever the tree type does. *)
Theorem matrices_after_the_calls R nv single rs Q range m :
  (∃ rs' m', RangeSearch_raw R nv single m =
     Returned (rs', if negb nv && RearrangesDataset
                    then built_dataset (TreeCtorMapping R) else R) m') ∧
  (∀ Q' m', Search rs Q range m = Returned Q' m' →
     Q' = if negb (naive rs) && negb (singleMode rs) && RearrangesDataset
          then built_dataset (TreeCtorMapping Q) else Q).
Proof.
  split.
  - destruct nv.
    + rewrite RangeSearch_raw_naive. eauto.
    + rewrite RangeSearch_raw_tree. eauto.
  - intros Q' m'. rewrite Search_phases. intros H.
    apply bind_returned_inv in H as ([ofnQ Q2] & m1 & Htrav & H).
    apply bind_returned_inv in H as (? & m2 & _ & [= -> ->]).
    unfold Search_traversal in Htrav.
    destruct (naive rs); [|destruct (singleMode rs)]; simpl.
    + by apply bind_returned_inv in Htrav as (? & ? & _ & [= _ -> _]).
    + by apply bind_returned_inv in Htrav as (? & ? & _ & [= _ -> _]).
    + rewrite bind_eval, BuildTree_eval in Htrav. cbn beta iota in Htrav.
      apply bind_returned_inv in Htrav as (? & ? & _ & Htrav).
      apply bind_returned_inv in Htrav as (? & ? & _ & Htrav).
      apply bind_returned_inv in Htrav as (? & ? & _ & Htrav).
      by apply bind_returned_inv in Htrav as (? & ? & _ & [= _ <- _]).
Qed.

(** X10: an empty query set in naive or single-tree mode.  For every
    object the call returns with both buffers empty and the heap of trees
    as before, and the reference tree pointer is never dereferenced: it may
    be null or dead. *)
Theorem empty_query_set rs range m :
  naive rs = true ∨ singleMode rs = true →
  ∃ m', Search rs [] range m = Returned [] m' ∧
        neighbors m' = [] ∧ distances m' = [] ∧ trees m' = trees m.
Proof.
  intros Hmode. rewrite Search_phases.
  unfold Search_traversal, Search_mapping, neighbor_ptr, distance_ptr.
  destruct (naive rs) eqn:Hn.
  - rewrite andb_false_r. simpl.
    destruct RearrangesDataset, (treeOwner rs), (singleMode rs); simpl; eauto.
  - destruct Hmode as [? | ->]; [done|]. simpl. rewrite andb_false_r.
    destruct RearrangesDataset, (treeOwner rs); simpl; eauto.
Qed.

End Sequences.

(** ** The query-only mapping *)

Section QueryOnly.
Context {Point Dist : Type}.
Context `{!Scalar Dist, !MetricType Point Dist, !TreeType Point Dist}.
Implicit Types (m : Mem Point Dist Bound) (rs : RangeSearch Point).
Implicit Types (Q R : list Point) (range : Range Dist).

Lemma store_neighbors_eval q row old m :
  neighbors m !! q = Some old →
  store_neighbors q row m = Returned tt (set_neighbors (<[q := row]> (neighbors m)) m).
Proof. intros H. unfold store_neighbors, vget. rewrite !bind_eval; simpl. by rewrite H. Qed.

Lemma remap_queries_loop (ofnQ : list nat) (tD : list (list Dist)) n (l : list nat) m :
  tmpDistances m = Some tD → neighbors m = replicate n [] →
  length (distances m) = n →
  Forall (λ i, i < length tD ∧ i < n ∧ ∃ q, ofnQ !! i = Some q ∧ q < n) l →
  for_ l (λ i,
    queryMapping ← vget ofnQ i;
    tmp ← derefD TempBuf;
    col ← vget tmp i;
    store_distances queryMapping col ;;
    tmp' ← derefN CallerBuf;
    row ← vget tmp' i;
    store_neighbors queryMapping row) m =
  Returned tt (set_distances (scatter (ofnQ !!.) (tD !!.) l (distances m)) m).
Proof.
  intros HtD. revert m HtD.
  induction l as [|i l IH]; intros m HtD HN HlD Hl.
  - by destruct m.
  - apply Forall_cons in Hl as [(Hi1 & Hi2 & q & Hq & Hqn) Hl].
    destruct (lookup_lt_is_Some_2 tD i Hi1) as [ds Hds].
    destruct (lookup_lt_is_Some_2 (distances m) q) as [old Hold]; [lia|].
    simpl. rewrite bind_eval.
    rewrite (bind_returned _ _ _ _ _ (vget_some ofnQ i q m Hq)).
    rewrite (bind_returned _ _ _ _ _ (derefD_read TempBuf m tD HtD)).
    rewrite (bind_returned _ _ _ _ _ (vget_some tD i ds m Hds)).
    rewrite (bind_returned _ _ _ _ _ (store_distances_eval q ds old m Hold)).
    set (m1 := set_distances _ m).
    rewrite (bind_returned _ _ _ _ _ (derefN_read CallerBuf m1 _ eq_refl)).
    assert (neighbors m1 !! i = Some []) as Hrow.
    { simpl. rewrite HN. by apply lookup_replicate_2. }
    rewrite (bind_returned _ _ _ _ _ (vget_some _ i [] m1 Hrow)).
    assert (neighbors m1 !! q = Some []) as Hrowq.
    { simpl. rewrite HN. by apply lookup_replicate_2. }
    rewrite (store_neighbors_eval q [] [] m1 Hrowq).
    rewrite list_insert_id by done.
    rewrite IH; simpl.
    + by rewrite Hq, Hds.
    + done.
    + done.
    + by rewrite length_insert.
    + done.
Qed.

Lemma remap_queries_caller_run (ofnQ : list nat) (tD : list (list Dist)) n m :
  tmpDistances m = Some tD → length tD = n → length ofnQ = n →
  Forall (λ q, q < n) ofnQ →
  remap_queries CallerBuf TempBuf ofnQ n m =
  Undefined InvalidDelete
    {| trees := trees m;
       neighbors := replicate n [];
       distances := scatter (ofnQ !!.) (tD !!.) (seq 0 n) (replicate n []);
       tmpNeighbors := tmpNeighbors m;
       tmpDistances := Some tD |}.
Proof.
  intros HtD HlD HlQ HQ. unfold remap_queries.
  rewrite (bind_returned _ _ _ _ _ (clear_resizeN_write CallerBuf m _ n eq_refl)).
  rewrite (bind_returned _ _ _ _ _ (clear_resizeD_write CallerBuf _ _ n eq_refl)).
  rewrite bind_eval. simpl. rewrite length_replicate.
  rewrite bind_eval, (remap_queries_loop ofnQ tD n); try done.
  - rewrite bind_eval. simpl. unfold set_distances. simpl. by rewrite HtD.
  - simpl. by rewrite length_replicate.
  - apply Forall_forall. intros i [_ Hi]%elem_of_seq. simpl in Hi.
    destruct (lookup_lt_is_Some_2 ofnQ i) as [q Hq]; [lia|].
    split; [lia|]. split; [lia|]. exists q. split; [done|].
    eapply (proj1 (Forall_forall _ _) HQ). by eapply list_elem_of_lookup_2.
Qed.

(** X11: the query-only mapping, for every input: a dual-tree search of a
    raw query set on a borrowed tree of a type that rearranges clears the
    caller's [neighbors] after the traversal has filled it and ends in
    [delete] of that vector; [neighbors] is left with one empty list per
    query point, whatever is in range. *)
Theorem query_only_mapping_loses_neighbors tr R rs Q range m :
  RefView tr R rs → QueryOnlyMapping rs → BuiltOK Q → trees m = tr →
  ∃ m', Search rs Q range m = Undefined InvalidDelete m' ∧
        neighbors m' = replicate (length Q) [] ∧
        length (distances m') = length Q ∧ trees m' = trees m.
Proof.
  intros Hview (HR & Hn & Hs & Ho) [[HinQ HcoverQ] HB] Htr.
  destruct Hview as [|a t ofn single Ht Hok Hren|a t single Ht [Hin Hcover] Hren];
    [done..|].
  simpl in Hs. subst single. rewrite HR in HB. destruct HB as [Hframe HQ].
  destruct (Renamed_length _ _ _ HQ) as [Hl3 Hl4].
  destruct (internal_dual (Dataset t) (Dataset (builtTree Q)) range false
              (root (builtTree Q)) (root t) HinQ Hin)
    as (out & E & (HlN & HlD & _) & _).
  simpl in HlN, HlD.
  set (rs := {| oldFromNewReferences := []; referenceTree := Some a;
                referenceSet := Dataset t; treeOwner := false;
                naive := false; singleMode := false |}).
  rewrite Search_phases.
  assert (neighbor_ptr rs = CallerBuf) as ->.
  { unfold neighbor_ptr. simpl. by rewrite andb_false_r. }
  assert (distance_ptr rs = TempBuf) as ->.
  { unfold distance_ptr. simpl. by rewrite HR. }
  rewrite (bind_returned _ _ _ _ _ (traversal_dual_init rs _ _ Q range
    m out a t eq_refl eq_refl eq_refl ltac:(by rewrite Htr)
    (λ _, Hframe) E Hl3)).
  unfold Search_mapping. simpl. rewrite HR. rewrite bind_eval.
  rewrite (remap_queries_caller_run (builtMap Q) out.2 (length Q));
    [|done|lia|lia|by eapply Renamed_bound].
  eexists. split; [done|]. simpl.
  by rewrite length_scatter, length_replicate.
Qed.

End QueryOnly.

(** ** The mapping blocks and the other two overloads *)

Section Blocks.
Context {Point Dist : Type}.
Context `{!Scalar Dist, !MetricType Point Dist, !TreeType Point Dist}.
Implicit Types (m : Mem Point Dist Bound) (rs : RangeSearch Point).
Implicit Types (Q R : list Point) (range : Range Dist).

(** X12: the block that maps both sides.  With the two temporaries filled
    and [oldFromNewQueries] a permutation of the query positions, row [i]
    of the temporaries ends at position [oldFromNewQueries[i]] of the
    caller's buffers: its distances as they were and each neighbor [r]
    replaced by [oldFromNewReferences[r]], position by position.  Both
    temporaries are deleted and the heap of trees is not touched. *)
Theorem both_mappings_place_rows (ofnQ ofnR : list nat) tN tD n m :
  tmpNeighbors m = Some tN → tmpDistances m = Some tD →
  length tN = n → length tD = n → length ofnQ = n →
  NoDup ofnQ → Forall (λ q, q < n) ofnQ →
  Mappable ofnR tN tD →
  ∃ m', remap_both TempBuf TempBuf ofnQ ofnR n m = Returned tt m' ∧
    length (neighbors m') = n ∧ length (distances m') = n ∧
    (∀ i q ns ds, ofnQ !! i = Some q → tN !! i = Some ns → tD !! i = Some ds →
       neighbors m' !! q = Some (mapped ofnR ns) ∧ distances m' !! q = Some ds) ∧
    trees m' = trees m ∧ tmpNeighbors m' = None ∧ tmpDistances m' = None.
Proof.
  intros HtN HtD HlN HlD HlQ Hnd HQ Hmap.
  rewrite (remap_both_run ofnQ ofnR tN tD n m) by done.
  eexists. split; [done|]. simpl.
  rewrite !length_scatter, !length_replicate.
  split; [done|]. split; [done|]. split; [|done].
  intros i q ns ds Hq Hns Hds.
  assert (i < n) as Hi by (apply lookup_lt_Some in Hq; lia).
  assert (q < n) as Hqn.
  { eapply (proj1 (Forall_forall _ _) HQ). by eapply list_elem_of_lookup_2. }
  split; apply scatter_lookup with (i := i); try done;
    try (apply elem_of_seq; lia); try (by rewrite length_replicate);
    try (by rewrite Hns);
    intros i' _ Hi'; by eapply NoDup_lookup.
Qed.

(** X13: the block that maps reference indices only, with the temporary
    filled and every index in it within [oldFromNewReferences].  Row [i]
    of the temporary ends at position [i] of [neighbors], as long as
    before, with each index [r] replaced by [oldFromNewReferences[r]] at
    its position; [distances] is not touched and the temporary is
    deleted. *)
Theorem reference_mapping_renames (ofnR : list nat) tN n m :
  tmpNeighbors m = Some tN → length tN = n →
  Forall (Forall (λ r, r < length ofnR)) tN →
  ∃ m', remap_references TempBuf ofnR n m = Returned tt m' ∧
    length (neighbors m') = n ∧
    (∀ i ns, tN !! i = Some ns →
       ∃ row, neighbors m' !! i = Some row ∧ length row = length ns ∧
              ∀ k r, ns !! k = Some r → row !! k = ofnR !! r) ∧
    distances m' = distances m ∧ trees m' = trees m ∧
    tmpNeighbors m' = None ∧ tmpDistances m' = tmpDistances m.
Proof.
  intros HtN HlN Hrows.
  rewrite (remap_references_run ofnR tN n m) by done.
  eexists. split; [done|]. simpl. rewrite length_fmap.
  split; [done|]. split; [|done].
  intros i ns Hns. exists (mapped ofnR ns).
  rewrite list_lookup_fmap, Hns. split; [done|].
  unfold mapped. rewrite length_fmap. split; [done|].
  intros k r Hk. rewrite list_lookup_fmap, Hk. simpl.
  assert (r < length ofnR) as Hr.
  { eapply (proj1 (Forall_forall _ _)
      (proj1 (Forall_forall _ _) Hrows ns ltac:(by eapply list_elem_of_lookup_2))).
    by eapply list_elem_of_lookup_2. }
  destruct (lookup_lt_is_Some_2 ofnR r Hr) as [o Ho]. by rewrite Ho.
Qed.

(** X16: [Search(queryTree, ...)] in dual-tree mode, with well-formed
    trees and valid distance bounds, returns and reports exactly the pairs
    in range: the query points by their position in the query tree's
    dataset, the reference points by their position in the reference set
    the object was made from. *)
Theorem query_tree_search_reports_in_range tr R rs qa qt range m :
  RefView tr R rs → naive rs = false → singleMode rs = false →
  tr !! qa = Some qt → TreeOK qt → TreeBoundsOK tr rs qt → trees m = tr →
  ∃ m', Search_tree rs (Some qa) range m = Returned tt m' ∧
    ∀ i j d, Reported m' i j d ↔ Hit R (Dataset qt) range false i j d.
Proof.
  intros Hview Hn Hs Hq Hok Hb Htr.
  destruct (Search_tree_spec tr R rs qa qt range Hview Hn Hs Hq Hok)
    as (N & D & Hres & Hcomp & Hrun).
  destruct (Hrun m Htr) as (m' & E & _ & HN & HD). subst N D.
  exists m'. split; [done|]. intros i j d. split.
  - by apply Reported_Hit.
  - apply Hit_Reported; auto.
Qed.

(** X17: [Search(range, ...)], with a well-formed reference tree and
    valid distance bounds, returns in each of the three modes and reports
    exactly the pairs of two different points of the reference set whose
    distance is in range. *)
Theorem self_search_reports_in_range tr R rs range m :
  RefView tr R rs → SelfBoundsOK tr rs → trees m = tr →
  ∃ m', Search_self rs range m = Returned tt m' ∧
    ∀ i j d, Reported m' i j d ↔ Hit R R range true i j d.
Proof.
  intros Hview Hb Htr.
  destruct (Search_self_spec tr R rs range Hview) as (N & D & Hres & Hcomp & Hrun).
  destruct (Hrun m Htr) as (m' & E & _ & HN & HD). subst N D.
  exists m'. split; [done|]. intros i j d. split.
  - by apply Reported_Hit.
  - apply Hit_Reported; auto.
Qed.

End Blocks.

(** ** The brute-force loops *)

Section BruteForce.
Context {Point Dist : Type}.
Context `{!Scalar Dist, !MetricType Point Dist, !TreeType Point Dist}.
Implicit Types (m : Mem Point Dist Bound) (rs : RangeSearch Point).
Implicit Types (Q R : list Point) (range : Range Dist).
Implicit Types (out : list (list nat) * list (list Dist)).

Lemma BaseCases_row (rules : @Rules Point Dist) i q (l : list nat) out ns ds :
  r_querySet rules !! i = Some q →
  Forall (λ j, j < length (r_referenceSet rules)) l →
  out.1 !! i = Some ns → out.2 !! i = Some ds →
  BaseCases rules ((λ j, (i, j)) <$> l) out =
  Some (<[i := ns ++ (in_range_among (r_referenceSet rules) (r_range rules)
                        (r_sameSet rules) i q l).*1]> out.1,
        <[i := ds ++ (in_range_among (r_referenceSet rules) (r_range rules)
                        (r_sameSet rules) i q l).*2]> out.2).
Proof.
  intros Hq. revert out ns ds.
  induction l as [|j l IH]; intros [N D] ns ds Hl Hns Hds; simpl in *.
  - by rewrite !app_nil_r, !list_insert_id.
  - apply Forall_cons in Hl as [Hj Hl].
    destruct (lookup_lt_is_Some_2 _ j Hj) as [p Hp].
    unfold BaseCase. rewrite Hq, Hp. simpl.
    destruct (r_sameSet rules && bool_decide (i = j)).
    { by apply IH. }
    destruct (Contains (r_range rules) (Evaluate q p)).
    2:{ by apply IH. }
    rewrite Hns, Hds. simpl.
    rewrite (IH _ (ns ++ [j]) (ds ++ [Evaluate q p])); simpl; try done.
    + by rewrite !list_insert_insert_eq, <- !app_assoc.
    + apply list_lookup_insert_eq. by eapply lookup_lt_Some.
    + apply list_lookup_insert_eq. by eapply lookup_lt_Some.
Qed.

Lemma BaseCases_rows (rules : @Rules Point Dist) (l : list nat) out :
  NoDup l →
  (∀ i, i ∈ l → is_Some (r_querySet rules !! i) ∧
                out.1 !! i = Some [] ∧ out.2 !! i = Some []) →
  ∃ out', BaseCases rules
            (i ← l; (λ j, (i, j)) <$> seq 0 (length (r_referenceSet rules))) out
          = Some out' ∧
    length out'.1 = length out.1 ∧ length out'.2 = length out.2 ∧
    (∀ i q, i ∈ l → r_querySet rules !! i = Some q →
       out'.1 !! i = Some (brute_force (r_referenceSet rules) (r_range rules)
                             (r_sameSet rules) i q).*1 ∧
       out'.2 !! i = Some (brute_force (r_referenceSet rules) (r_range rules)
                             (r_sameSet rules) i q).*2) ∧
    (∀ i, i ∉ l → out'.1 !! i = out.1 !! i ∧ out'.2 !! i = out.2 !! i).
Proof.
  revert out. induction l as [|i l IH]; intros out Hnd Hl.
  - exists out. split; [done|]. split; [done|]. split; [done|].
    split; [|done]. by intros i q ?%elem_of_nil.
  - apply NoDup_cons in Hnd as [Hi Hnd].
    destruct (Hl i ltac:(by left)) as ([q Hq] & HN & HD).
    rewrite bind_cons, BaseCases_app.
    rewrite (BaseCases_row rules i q _ out [] [] Hq); try done.
    2:{ apply Forall_forall. by intros j [_ ?]%elem_of_seq. }
    simpl.
    match goal with
    | |- ∃ _, BaseCases _ _ ?o = _ ∧ _ =>
        destruct (IH o Hnd) as (out' & E & HlN & HlD & Hin & Hout)
    end.
    { intros i' Hi'. assert (i' ≠ i) by (by intros ->).
      destruct (Hl i' ltac:(by right)) as (? & ? & ?).
      simpl. by rewrite !list_lookup_insert_ne. }
    exists out'. split; [exact E|]. simpl in *.
    rewrite length_insert in HlN. rewrite length_insert in HlD.
    split; [done|]. split; [done|]. split.
    + intros i' q' [->|Hi']%elem_of_cons Hq'.
      * assert (q' = q) as -> by congruence.
        destruct (Hout i Hi) as [-> ->].
        rewrite !list_lookup_insert_eq;
          [done|by eapply lookup_lt_Some|by eapply lookup_lt_Some].
      * by apply Hin.
    + intros i' Hi'. apply not_elem_of_cons in Hi' as [Hne Hi'].
      destruct (Hout i' Hi') as [-> ->].
      by rewrite !list_lookup_insert_ne.
Qed.

Lemma BaseCases_naive_pairs R Q range same :
  BaseCases {| r_referenceSet := R; r_querySet := Q;
               r_range := range; r_sameSet := same |}
    (naive_pairs (length Q) (length R)) (init (length Q)) =
  Some (imap (λ i q, (brute_force R range same i q).*1) Q,
        imap (λ i q, (brute_force R range same i q).*2) Q).
Proof.
  set (rules := {| r_referenceSet := R; r_querySet := Q;
                   r_range := range; r_sameSet := same |}).
  destruct (BaseCases_rows rules (seq 0 (length Q)) (init (length Q)))
    as ([N D] & E & HlN & HlD & Hin & _).
  { apply NoDup_seq. }
  { intros i [_ Hi]%elem_of_seq. simpl in *.
    split; [by apply lookup_lt_is_Some_2|].
    split; by apply lookup_replicate_2. }
  unfold naive_pairs. simpl in *. rewrite E. f_equal.
  rewrite length_replicate in HlN. rewrite length_replicate in HlD.
  f_equal; apply list_eq; intros i; rewrite list_lookup_imap;
    destruct (Q !! i) as [q|] eqn:Hq; simpl.
  - apply (Hin i q); [|done]. apply elem_of_seq. apply lookup_lt_Some in Hq. lia.
  - apply lookup_ge_None. apply lookup_ge_None in Hq. lia.
  - apply (Hin i q); [|done]. apply elem_of_seq. apply lookup_lt_Some in Hq. lia.
  - apply lookup_ge_None. apply lookup_ge_None in Hq. lia.
Qed.

(** X15: naive mode, exactly, for an object that owns no tree (as the
    constructor makes every naive object).  The call always returns, and
    for each query point the two result vectors list the reference points
    in range by increasing index, with their distances; nothing else in
    memory changes. *)
Theorem naive_search_lists_in_order rs Q range m :
  naive rs = true → treeOwner rs = false →
  Search rs Q range m =
  Returned Q
    (set_distances
       (imap (λ i q, (brute_force (referenceSet rs) range false i q).*2) Q)
       (set_neighbors
          (imap (λ i q, (brute_force (referenceSet rs) range false i q).*1) Q) m)).
Proof.
  intros Hn Ho. rewrite Search_phases.
  assert (neighbor_ptr rs = CallerBuf) as ->.
  { unfold neighbor_ptr. by rewrite Ho, andb_false_r. }
  assert (distance_ptr rs = CallerBuf) as ->.
  { unfold distance_ptr. by rewrite Hn, !andb_false_r. }
  rewrite (bind_returned _ _ _ _ _ (traversal_naive_init rs _ _ Q range
    m _ Hn (BaseCases_naive_pairs (referenceSet rs) Q range false))).
  unfold Search_mapping. rewrite Hn, Ho, !andb_false_r. simpl.
  by destruct RearrangesDataset.
Qed.

End BruteForce.

(** ** One overload in terms of another *)

Section Composition.
Context {Point Dist : Type}.
Context `{!Scalar Dist, !MetricType Point Dist, !TreeType Point Dist}.
Implicit Types (m : Mem Point Dist Bound) (rs : RangeSearch Point).
Implicit Types (Q R : list Point) (range : Range Dist).

Lemma only_buffers_differ m m' :
  trees m' = trees m → tmpNeighbors m' = tmpNeighbors m →
  tmpDistances m' = tmpDistances m →
  m' = set_neighbors (neighbors m') (set_distances (distances m') m).
Proof. destruct m, m'; simpl. by intros -> -> ->. Qed.

(** X6: a search can be repeated.  After a call made with no temporary
    outstanding, called again with the same arguments on the memory it
    returned, [Search] returns that same memory: the results of the earlier
    call do not accumulate and nothing is leaked. *)
Theorem Search_repeated rs Q range m Q' m' :
  tmpNeighbors m = None → tmpDistances m = None →
  Search rs Q range m = Returned Q' m' →
  Search rs Q range m' = Returned Q' m'.
Proof.
  intros HN HD H.
  destruct (Search_frame _ _ _ _ _ _ HN HD H) as (Htr & HN' & HD').
  rewrite (only_buffers_differ m m') at 1 by congruence.
  by apply Search_ignores_contents.
Qed.

(** X14: for a tree type that does not rearrange and whose tree of the
    query set holds as many points as the set, the dual-tree
    [Search(querySet, ...)] is [Search(queryTree, ...)] on a tree built for
    the call and deleted after it: both end in the same outcome with the
    same memory. *)
Theorem dual_search_builds_then_searches rs Q range m :
  RearrangesDataset = false → naive rs = false → singleMode rs = false →
  length (Dataset (TreeCtor Q)) = length Q →
  Search rs Q range m =
  (queryTree ← new_tree (TreeCtor Q);
   Search_tree rs (Some queryTree) range ;;
   delete_tree queryTree ;;
   mret Q) m.
Proof.
  intros HR Hn Hs Hlen.
  set (a := fresh (dom (trees m))).
  set (m1 := set_trees (insert a (TreeCtor Q)) m).
  assert (trees m1 !! a = Some (TreeCtor Q)) as Ha by apply lookup_insert_eq.
  rewrite (bind_returned _ _ _ _ _ (eq_refl : new_tree (TreeCtor Q) m = Returned a m1)).
  rewrite (bind_eval (Search_tree _ _ _)).
  rewrite (Search_tree_phases rs a (TreeCtor Q) range m1 Ha Hn Hs). cbv zeta.
  rewrite Search_phases.
  unfold neighbor_ptr, distance_ptr, Search_traversal, Search_mapping.
  rewrite HR, Hn, Hs. cbn [andb].
  rewrite bind_eval, bind_eval, BuildTree_eval. cbn beta iota.
  unfold builtTree, builtMap. rewrite HR.
  set (m2 := set_trees _ (writeOut _ _ _ m)).
  assert (trees m2 !! a = Some (TreeCtor Q)) as Ha2 by apply lookup_insert_eq.
  rewrite (bind_returned _ _ _ _ _ (deref_tree_live a _ m2 Ha2)).
  rewrite Hlen, andb_false_r.
  change (fresh (dom (trees (writeOut CallerBuf CallerBuf (init (length Q)) m))))
    with a in *.
  change (writeOut CallerBuf CallerBuf (init (length Q)) m1) with m2.
  rewrite !bind_eval.
  destruct (deref_tree (referenceTree rs) m2) as [rt m3| |]; [|done..].
  rewrite !bind_eval.
  destruct (with_rules CallerBuf CallerBuf _ m3) as [[] m4| |]; [|done..].
  rewrite !bind_eval. cbn [mret M_ret]. cbn beta iota. rewrite bind_eval.
  by destruct (delete_tree a m4).
Qed.

End Composition.

(** ** A borrowed tree *)

Section Lifetimes.
Context {Point Dist : Type}.
Context `{!Scalar Dist, !MetricType Point Dist, !TreeType Point Dist}.
Implicit Types (m : Mem Point Dist Bound) (rs : RangeSearch Point).
Implicit Types (Q R : list Point) (range : Range Dist).

(** X8: the object made from a tree does not keep the tree alive.  Once
    the tree has been deleted, a single-tree search of any non-empty query
    set dereferences the dead pointer. *)
Theorem Search_after_tree_deleted a Q range m rs m1 m2 :
  RangeSearch_tree (Some a) true m = Returned rs m1 →
  delete_tree a m1 = Returned tt m2 →
  Q ≠ [] →
  ∃ m', Search rs Q range m2 = Undefined DanglingPointer m'.
Proof.
  intros Hctor Hdel HQ.
  unfold RangeSearch_tree, deref_tree in Hctor. rewrite bind_eval in Hctor.
  simpl in Hctor. destruct (trees m !! a) as [t|] eqn:Ht; [|done].
  injection Hctor as <- <-.
  unfold delete_tree in Hdel. rewrite Ht in Hdel. injection Hdel as <-.
  rewrite Search_phases.
  unfold neighbor_ptr, distance_ptr, Search_traversal. simpl.
  rewrite !andb_false_r. destruct Q as [|q Q]; [done|]. simpl.
  rewrite !bind_eval. unfold single_loop. simpl. rewrite !bind_eval.
  unfold deref_tree. simpl. rewrite lookup_delete_eq. eauto.
Qed.

End Lifetimes.

(** ** The caller's point sets *)

Section PointSets.
Context {Point Dist : Type}.
Context `{!Scalar Dist, !MetricType Point Dist, !TreeType Point Dist}.
Implicit Types (m : Mem Point Dist Bound) (rs : RangeSearch Point).
Implicit Types (Q R : list Point) (range : Range Dist).

(** The constructor from a raw set: the matrix it hands back, and the
    trees that were on the heap. *)
Lemma RangeSearch_raw_matrix R nv single m :
  ∃ rs' m', RangeSearch_raw R nv single m =
      Returned (rs', if negb nv && RearrangesDataset
                     then built_dataset (TreeCtorMapping R) else R) m' ∧
    ∀ a t, trees m !! a = Some t → trees m' !! a = Some t.
Proof.
  destruct nv.
  - rewrite RangeSearch_raw_naive. eauto.
  - rewrite RangeSearch_raw_tree. do 2 eexists. split; [done|].
    intros a t Ha. simpl. rewrite lookup_insert_ne; [done|].
    intros <-. by rewrite fresh_tree_free in Ha.
Qed.

(** The matrix a search of a raw query set hands back. *)
Lemma Search_matrix rs Q range m Q' m' :
  Search rs Q range m = Returned Q' m' →
  Q' = if negb (naive rs) && negb (singleMode rs) && RearrangesDataset
       then built_dataset (TreeCtorMapping Q) else Q.
Proof.
  rewrite Search_phases. intros H.
  apply bind_returned_inv in H as ([ofnQ Q2] & m1 & Htrav & H).
  apply bind_returned_inv in H as (? & m2 & _ & [= -> ->]).
  unfold Search_traversal in Htrav.
  destruct (naive rs); [|destruct (singleMode rs)]; simpl.
  - by apply bind_returned_inv in Htrav as (? & ? & _ & [= _ -> _]).
  - by apply bind_returned_inv in Htrav as (? & ? & _ & [= _ -> _]).
  - rewrite bind_eval, BuildTree_eval in Htrav. cbn beta iota in Htrav.
    apply bind_returned_inv in Htrav as (? & ? & _ & Htrav).
    apply bind_returned_inv in Htrav as (? & ? & _ & Htrav).
    apply bind_returned_inv in Htrav as (? & ? & _ & Htrav).
    by apply bind_returned_inv in Htrav as (? & ? & _ & [= _ <- _]).
Qed.

Lemma Search_tree_frame rs p range m m' :
  tmpNeighbors m = None → tmpDistances m = None →
  Search_tree rs p range m = Returned tt m' → trees m' = trees m.
Proof.
  intros HN HD H.
  destruct (singleMode rs || naive rs) eqn:Hmode.
  - unfold Search_tree, deref_tree in H. rewrite bind_eval in H.
    destruct (p ≫= (trees m !!.)); [|done]. by rewrite Hmode in H.
  - apply orb_false_elim in Hmode as [Hs Hn].
    pose proof (Moves_Search_tree (trees m) (λ _, True) rs p range Hs Hn I
      ltac:(by right) ltac:(by right) m (footprint_clean m HN HD)) as HM.
    rewrite H in HM. by apply clean_footprint in HM as (? & _).
Qed.

Lemma Search_self_frame rs range m m' :
  tmpNeighbors m = None → tmpDistances m = None →
  Search_self rs range m = Returned tt m' → trees m' = trees m.
Proof.
  intros HN HD H.
  pose proof (Moves_Search_self (trees m) (λ _, True) rs range I
    ltac:(tauto) m (footprint_clean m HN HD)) as HM.
  rewrite H in HM. by apply clean_footprint in HM as (? & _).
Qed.

(** C9: the code of [RangeSearch] writes to no point set itself, but it
    hands the caller's matrix, with its [const] cast away, to the tree
    constructor that takes it by non-const reference; this is the only way
    a point set can change.  The constructor from a raw reference set hands
    the reference matrix back as it was when [naive] is set or the tree
    type does not rearrange, and as the tree constructor left it otherwise;
    the trees that existed stay as they were.  A search of a raw query set
    hands the query matrix back as it was in naive and single-tree mode and
    for a tree type that does not rearrange, and as the tree constructor
    left it in dual-tree mode with a tree type that rearranges.  No
    overload of [Search], called with no temporary outstanding, changes a
    tree on the heap, hence the point set of the reference tree or of the
    caller's query tree. *)
Theorem point_sets_written_by_tree_constructor_only R nv single rs Q p range m :
  (∃ rs' m', RangeSearch_raw R nv single m =
       Returned (rs', if negb nv && RearrangesDataset
                      then built_dataset (TreeCtorMapping R) else R) m' ∧
     ∀ a t, trees m !! a = Some t → trees m' !! a = Some t) ∧
  (∀ Q' m', Search rs Q range m = Returned Q' m' →
     Q' = if negb (naive rs) && negb (singleMode rs) && RearrangesDataset
          then built_dataset (TreeCtorMapping Q) else Q) ∧
  (tmpNeighbors m = None → tmpDistances m = None →
     (∀ Q' m', Search rs Q range m = Returned Q' m' → trees m' = trees m) ∧
     (∀ m', Search_tree rs p range m = Returned tt m' → trees m' = trees m) ∧
     (∀ m', Search_self rs range m = Returned tt m' → trees m' = trees m)).
Proof.
  split; [apply RangeSearch_raw_matrix|].
  split; [intros Q' m'; apply Search_matrix|].
  intros HN HD. split; [|split].
  - intros Q' m' H. by destruct (Search_frame _ _ _ _ _ _ HN HD H).
  - intros m'. by apply Search_tree_frame.
  - intros m'. by apply Search_self_frame.
Qed.

End PointSets.

(** ** The instance on the integer line *)

Section LineFacts.
Import Line.

Lemma Zleb_transitive : DlebTransitive (Dist:=Z).
Proof.
  intros a b c H1%Z.leb_le H2%Z.leb_le. apply Z.leb_le. lia.
Qed.

Lemma references_built : @BuiltOK Z Z sorting_tree references.
Proof.
  unfold BuiltOK, TreeOK, Renamed. simpl.
  repeat split; compute_done.
Qed.

Lemma queries_built : @BuiltOK Z Z sorting_tree queries.
Proof.
  unfold BuiltOK, TreeOK, Renamed. simpl.
  repeat split; compute_done.
Qed.

Lemma owner_view : @RefView Z Z sorting_tree (trees mem1) references owner.
Proof.
  apply (@view_owned Z Z sorting_tree _ _ 0 reference_tree); [done| |].
  - apply references_built.
  - apply references_built.
Qed.

Lemma owner_not_query_only : ¬ @QueryOnlyMapping Z Z sorting_tree owner.
Proof. by intros (_ & _ & _ & ?). Qed.

Lemma owner_bounds : @BoundsOK Z Z _ _ sorting_tree (trees mem1) owner queries.
Proof.
  intros a t [= <-] Ht. assert (t = reference_tree) as ->.
  { unfold mem1 in Ht. simpl in Ht. rewrite lookup_singleton_eq in Ht. congruence. }
  split; [apply Zleb_transitive|]. by vm_compute.
Qed.

End LineFacts.

(** ** The properties on the integer line *)

Section LineExamples.
Import Line.

Lemma strategies_agree_witness :
  ∃ mN mS mD,
    construct_and_search (TreeType0 := sorting_tree)
      references true false queries range26 mem0 = Returned queries mN ∧
    construct_and_search (TreeType0 := sorting_tree)
      references false true queries range26 mem0 = Returned queries mS ∧
    construct_and_search (TreeType0 := sorting_tree)
      references false false queries range26 mem0 = Returned queries mD ∧
    ∀ i j d,
      (Reported mN i j d ↔ Reported mS i j d) ∧
      (Reported mN i j d ↔ Reported mD i j d) ∧
      (Reported mN i j d ↔ Hit references queries range26 false i j d).
Proof.
  apply (strategies_agree (TreeType0 := sorting_tree)
           references queries range26 false mem0).
  - apply references_built.
  - apply queries_built.
  - apply Zleb_transitive.
  - compute_done.
  - by vm_compute.
Defined.

Lemma Search_tree_usage_error_witness :
  Search_tree (TreeType0 := sorting_tree) naive_searcher (Some 0) range26 mem1
  = Throws invalid_argument mem1.
Proof.
  apply (Search_tree_usage_error (TreeType0 := sorting_tree)
           naive_searcher 0 reference_tree range26 mem1).
  - reflexivity.
  - right. reflexivity.
Defined.

Lemma destructor_ownership_witness :
  (∀ (rs : RangeSearch Z) a t (m1 : Mem Z Z (Z * Z)),
     referenceTree rs = Some a → treeOwner rs = true →
     trees m1 !! a = Some t →
     RangeSearch_dtor (TreeType0 := sorting_tree) rs m1 =
     Returned tt (set_trees (TreeType0 := sorting_tree) (delete a) m1)) ∧
  (∀ (rs : RangeSearch Z) (m1 : Mem Z Z (Z * Z)),
     referenceTree rs = None ∨ treeOwner rs = false →
     RangeSearch_dtor (TreeType0 := sorting_tree) rs m1 = Returned tt m1) ∧
  ∃ owner R' borrower a m1,
    RangeSearch_raw (TreeType0 := sorting_tree) references false false mem1
      = Returned (owner, R') m1 ∧
    RangeSearch_tree (TreeType0 := sorting_tree) (Some 0) false m1
      = Returned borrower m1 ∧
    referenceTree owner = Some a ∧ referenceTree borrower = Some 0 ∧ a ≠ 0 ∧
    RangeSearch_dtor (TreeType0 := sorting_tree) borrower m1 = Returned tt m1 ∧
    (∃ m2, RangeSearch_dtor (TreeType0 := sorting_tree) owner m1 = Returned tt m2 ∧
           trees m2 !! a = None ∧ trees m2 !! 0 = Some reference_tree ∧
           trees m2 = trees mem1 ∧
           RangeSearch_dtor (TreeType0 := sorting_tree) borrower m2 = Returned tt m2).
Proof.
  apply (destructor_ownership (TreeType0 := sorting_tree)
           references false false 0 reference_tree mem1).
  reflexivity.
Defined.

Lemma in_range_iff_listed_witness :
  ∃ m', Search (TreeType0 := sorting_tree) owner queries range26 mem1
        = Returned queries m' ∧
    ∀ i j q p, queries !! i = Some q → references !! j = Some p →
      let listed := ∃ ns, neighbors m' !! i = Some ns ∧ j ∈ ns in
      (listed ↔ Contains range26 (Evaluate q p) = true) ∧
      (Evaluate q p = lo range26 → Dleb (lo range26) (lo range26) = true →
       Dleb (lo range26) (hi range26) = true → listed) ∧
      (Evaluate q p = hi range26 → Dleb (hi range26) (hi range26) = true →
       Dleb (lo range26) (hi range26) = true → listed) ∧
      (Dltb (Evaluate q p) (lo range26) = true → ¬ listed) ∧
      (Dltb (hi range26) (Evaluate q p) = true → ¬ listed).
Proof.
  apply (in_range_iff_listed (TreeType0 := sorting_tree)
           (trees mem1) references owner queries range26 mem1).
  - apply owner_view.
  - reflexivity.
  - intros _ _. apply queries_built.
  - apply owner_not_query_only.
  - apply owner_bounds.
Defined.

Lemma empty_range_empty_results_witness :
  ∃ m', Search (TreeType0 := sorting_tree) owner queries range62 mem1
        = Returned queries m' ∧
        neighbors m' = replicate (length queries) [] ∧
        distances m' = replicate (length queries) [].
Proof.
  apply (empty_range_empty_results (TreeType0 := sorting_tree)
           (trees mem1) references owner queries range62 mem1).
  - apply owner_view.
  - reflexivity.
  - intros _ _. apply queries_built.
  - apply owner_not_query_only.
  - apply Zleb_transitive.
  - reflexivity.
Defined.

Lemma self_search_excludes_self_witness :
  (∃ m', Search_self (TreeType0 := sorting_tree) owner range05 mem1
         = Returned tt m' ∧
         length (neighbors m') = length references ∧
         ∀ i ns, neighbors m' !! i = Some ns → i ∉ ns) ∧
  (∃ m', Search (TreeType0 := sorting_tree) naive_searcher references range05 mem1
         = Returned references m' ∧
         ∀ i q, references !! i = Some q →
                Contains range05 (Evaluate q q) = true →
                ∃ ns, neighbors m' !! i = Some ns ∧ i ∈ ns).
Proof.
  apply (self_search_excludes_self (TreeType0 := sorting_tree)
           (trees mem1) references owner range05 mem1).
  - apply owner_view.
  - reflexivity.
Defined.

Lemma result_buffers_shape_witness :
  (∀ Q range Q' m',
     (naive owner = false → singleMode owner = false →
      BuiltOK (TreeType0 := sorting_tree) Q) →
     Search (TreeType0 := sorting_tree) owner Q range mem1 = Returned Q' m' →
     Result references Q range false (neighbors m', distances m') ∧
     ∀ N0 D0, ∃ m2,
       Search (TreeType0 := sorting_tree) owner Q range
         (set_neighbors (TreeType0 := sorting_tree) N0
            (set_distances (TreeType0 := sorting_tree) D0 mem1))
         = Returned Q' m2 ∧
       neighbors m2 = neighbors m' ∧ distances m2 = distances m') ∧
  (∀ qa qt range m',
     trees mem1 !! qa = Some qt → TreeOK (TreeType0 := sorting_tree) qt →
     Search_tree (TreeType0 := sorting_tree) owner (Some qa) range mem1
       = Returned tt m' →
     Result references (Dataset qt) range false (neighbors m', distances m') ∧
     ∀ N0 D0, ∃ m2,
       Search_tree (TreeType0 := sorting_tree) owner (Some qa) range
         (set_neighbors (TreeType0 := sorting_tree) N0
            (set_distances (TreeType0 := sorting_tree) D0 mem1))
         = Returned tt m2 ∧
       neighbors m2 = neighbors m' ∧ distances m2 = distances m') ∧
  (∀ range m',
     Search_self (TreeType0 := sorting_tree) owner range mem1 = Returned tt m' →
     Result references references range true (neighbors m', distances m') ∧
     ∀ N0 D0, ∃ m2,
       Search_self (TreeType0 := sorting_tree) owner range
         (set_neighbors (TreeType0 := sorting_tree) N0
            (set_distances (TreeType0 := sorting_tree) D0 mem1))
         = Returned tt m2 ∧
       neighbors m2 = neighbors m' ∧ distances m2 = distances m').
Proof.
  apply (result_buffers_shape (TreeType0 := sorting_tree)
           (trees mem1) references owner mem1).
  - apply owner_view.
  - reflexivity.
Defined.

(** C2: a dual-tree search of a raw query set on a borrowed reference
    tree.  With the tree type that rearranges, [neighborPtr] is the
    caller's buffer: the mapping clears it after the traversal, so every
    result list of [neighbors] is empty while [distances] is filled, and
    the call ends in [delete] of the caller's buffer.  With the tree type
    that does not rearrange, the same call returns the results. *)
Theorem borrowed_tree_dual_search_loses_neighbors :
  match Search (TreeType0 := sorting_tree) borrower queries range26 mem1 with
  | Undefined InvalidDelete m' =>
      neighbors m' = [[]; []] ∧
      distances m' = [[6; 3; 2]; [2; 3; 6]]%Z
  | _ => False
  end ∧
  match Search (TreeType0 := in_place_tree) borrower queries range26 mem1 with
  | Returned Q' m' =>
      Q' = queries ∧
      neighbors m' = [[2; 3; 4]; [1; 2; 3]] ∧
      distances m' = [[6; 3; 2]; [2; 3; 6]]%Z
  | _ => False
  end.
Proof. vm_compute. repeat split. Qed.

End LineExamples.

(** ** Further facts on the integer line *)

Section LineMoreFacts.
Import Line.

Lemma owner_view_beside_query_tree :
  @RefView Z Z sorting_tree (trees mem2) references owner.
Proof.
  apply (@view_owned Z Z sorting_tree _ _ 0 reference_tree); [done| |].
  - apply references_built.
  - apply references_built.
Qed.

Lemma borrower_view :
  @RefView Z Z sorting_tree (trees mem1) (Dataset reference_tree) borrower.
Proof.
  apply (@view_borrowed Z Z sorting_tree _ _ 0 reference_tree); [done| |done].
  apply references_built.
Qed.

Lemma query_tree_ok : @TreeOK Z Z sorting_tree query_tree.
Proof. apply queries_built. Qed.

Lemma query_tree_bounds :
  @TreeBoundsOK Z Z _ _ sorting_tree (trees mem2) owner query_tree.
Proof.
  intros a t [= <-] Ht. assert (t = reference_tree) as -> by (by injection Ht).
  split; [apply Zleb_transitive|]. by vm_compute.
Qed.

Lemma owner_self_bounds : @SelfBoundsOK Z Z _ _ sorting_tree (trees mem1) owner.
Proof.
  intros a t [= <-] Ht. assert (t = reference_tree) as -> by (by injection Ht).
  split; [apply Zleb_transitive|]. by vm_compute.
Qed.

Lemma mem3_mappable :
  @Mappable Z reference_mapping [[0; 2]; [1]] [[5; 6]; [7]]%Z.
Proof.
  intros [|[|i]] ns ds; simpl; intros [= <-] [= <-];
    (split; [done|]); repeat constructor.
Qed.

End LineMoreFacts.

(** ** The further properties on the integer line *)

Section LineMore.
Import Line.

Lemma Search_outcomes_witness :
  match Search (TreeType0 := sorting_tree) owner queries range26 mem1 with
  | Returned _ m' =>
      trees m' = trees mem1 ∧ tmpNeighbors m' = None ∧ tmpDistances m' = None
  | Throws _ _ => False
  | Undefined u _ =>
      u = OutOfBounds ∨
      (u = InvalidDelete ∧ QueryOnlyMapping (TreeType0 := sorting_tree) owner)
  end.
Proof.
  apply (Search_outcomes (TreeType0 := sorting_tree) owner queries range26 mem1).
  - reflexivity.
  - reflexivity.
  - right. by exists reference_tree.
Defined.

Lemma Search_tree_outcomes_witness :
  match Search_tree (TreeType0 := sorting_tree) owner (Some 1) range26 mem2 with
  | Returned _ m' =>
      singleMode owner = false ∧ naive owner = false ∧
      trees m' = trees mem2 ∧ tmpNeighbors m' = None ∧ tmpDistances m' = None
  | Throws _ m' => (singleMode owner = true ∨ naive owner = true) ∧ m' = mem2
  | Undefined u _ => u = OutOfBounds
  end.
Proof.
  apply (Search_tree_outcomes (TreeType0 := sorting_tree)
           owner (Some 1) range26 mem2).
  - reflexivity.
  - reflexivity.
  - by exists query_tree.
  - right. by exists reference_tree.
Defined.

Lemma Search_self_outcomes_witness :
  match Search_self (TreeType0 := sorting_tree) owner range05 mem1 with
  | Returned _ m' =>
      trees m' = trees mem1 ∧ tmpNeighbors m' = None ∧ tmpDistances m' = None
  | Throws _ _ => False
  | Undefined u _ => u = OutOfBounds
  end.
Proof.
  apply (Search_self_outcomes (TreeType0 := sorting_tree) owner range05 mem1).
  - reflexivity.
  - reflexivity.
  - right. by exists reference_tree.
Defined.

Lemma Search_repeated_witness :
  Search (TreeType0 := sorting_tree) owner queries range26 found
  = Returned queries found.
Proof.
  apply (Search_repeated (TreeType0 := sorting_tree)
           owner queries range26 mem1 queries found).
  - reflexivity.
  - reflexivity.
  - vm_compute. reflexivity.
Defined.

Lemma construct_search_destroy_witness :
  ∃ m3, RangeSearch_dtor (TreeType0 := sorting_tree) owner found = Returned tt m3 ∧
        trees m3 = trees mem0 ∧ tmpNeighbors m3 = None ∧ tmpDistances m3 = None ∧
        neighbors m3 = neighbors found ∧ distances m3 = distances found.
Proof.
  apply (construct_search_destroy (TreeType0 := sorting_tree)
           references false false queries range26 mem0
           owner references mem1 queries found).
  - reflexivity.
  - reflexivity.
  - vm_compute. reflexivity.
  - vm_compute. reflexivity.
Defined.

Lemma Search_after_tree_deleted_witness :
  ∃ m', Search (TreeType0 := sorting_tree) single_borrower queries range26 mem0
        = Undefined DanglingPointer m'.
Proof.
  apply (Search_after_tree_deleted (TreeType0 := sorting_tree)
           0 queries range26 mem1 single_borrower mem1 mem0).
  - reflexivity.
  - vm_compute. reflexivity.
  - discriminate.
Defined.

Lemma empty_query_set_witness :
  ∃ m', Search (TreeType0 := sorting_tree) naive_searcher [] range26 mem0
        = Returned [] m' ∧
        neighbors m' = [] ∧ distances m' = [] ∧ trees m' = trees mem0.
Proof.
  apply (empty_query_set (TreeType0 := sorting_tree) naive_searcher range26 mem0).
  left. reflexivity.
Defined.

Lemma query_only_mapping_loses_neighbors_witness :
  ∃ m', Search (TreeType0 := sorting_tree) borrower queries range26 mem1
        = Undefined InvalidDelete m' ∧
        neighbors m' = replicate (length queries) [] ∧
        length (distances m') = length queries ∧ trees m' = trees mem1.
Proof.
  apply (query_only_mapping_loses_neighbors (TreeType0 := sorting_tree)
           (trees mem1) (Dataset reference_tree) borrower queries range26 mem1).
  - apply borrower_view.
  - by repeat split.
  - apply queries_built.
  - reflexivity.
Defined.

Lemma both_mappings_place_rows_witness :
  ∃ m', remap_both (TreeType0 := sorting_tree) TempBuf TempBuf
          query_mapping reference_mapping 2 mem3 = Returned tt m' ∧
    length (neighbors m') = 2 ∧ length (distances m') = 2 ∧
    (∀ i q ns ds, query_mapping !! i = Some q →
       [[0; 2]; [1]] !! i = Some ns → [[5; 6]; [7]]%Z !! i = Some ds →
       neighbors m' !! q = Some (mapped reference_mapping ns) ∧
       distances m' !! q = Some ds) ∧
    trees m' = trees mem3 ∧ tmpNeighbors m' = None ∧ tmpDistances m' = None.
Proof.
  apply (both_mappings_place_rows (TreeType0 := sorting_tree)
           query_mapping reference_mapping [[0; 2]; [1]] [[5; 6]; [7]]%Z 2 mem3).
  - reflexivity.
  - reflexivity.
  - reflexivity.
  - reflexivity.
  - reflexivity.
  - compute_done.
  - compute_done.
  - apply mem3_mappable.
Defined.

Lemma reference_mapping_renames_witness :
  ∃ m', remap_references (TreeType0 := sorting_tree) TempBuf
          reference_mapping 2 mem3 = Returned tt m' ∧
    length (neighbors m') = 2 ∧
    (∀ i ns, [[0; 2]; [1]] !! i = Some ns →
       ∃ row, neighbors m' !! i = Some row ∧ length row = length ns ∧
              ∀ k r, ns !! k = Some r → row !! k = reference_mapping !! r) ∧
    distances m' = distances mem3 ∧ trees m' = trees mem3 ∧
    tmpNeighbors m' = None ∧ tmpDistances m' = tmpDistances mem3.
Proof.
  apply (reference_mapping_renames (TreeType0 := sorting_tree)
           reference_mapping [[0; 2]; [1]] 2 mem3).
  - reflexivity.
  - reflexivity.
  - compute_done.
Defined.

Lemma dual_search_builds_then_searches_witness :
  Search (TreeType0 := in_place_tree) borrower queries range26 mem1 =
  (queryTree ← new_tree (TreeType0 := in_place_tree)
                 (TreeCtor (TreeType := in_place_tree) queries);
   Search_tree (TreeType0 := in_place_tree) borrower (Some queryTree) range26 ;;
   delete_tree (TreeType0 := in_place_tree) queryTree ;;
   mret queries) mem1.
Proof.
  apply (dual_search_builds_then_searches (TreeType0 := in_place_tree)
           borrower queries range26 mem1).
  - reflexivity.
  - reflexivity.
  - reflexivity.
  - reflexivity.
Defined.

Lemma naive_search_lists_in_order_witness :
  Search (TreeType0 := sorting_tree) naive_searcher queries range26 mem0 =
  Returned queries
    (set_distances (TreeType0 := sorting_tree)
       (imap (λ i q, (brute_force (referenceSet naive_searcher)
                        range26 false i q).*2) queries)
       (set_neighbors (TreeType0 := sorting_tree)
          (imap (λ i q, (brute_force (referenceSet naive_searcher)
                           range26 false i q).*1) queries) mem0)).
Proof.
  apply (naive_search_lists_in_order (TreeType0 := sorting_tree)
           naive_searcher queries range26 mem0).
  - reflexivity.
  - reflexivity.
Defined.

Lemma query_tree_search_reports_in_range_witness :
  ∃ m', Search_tree (TreeType0 := sorting_tree) owner (Some 1) range26 mem2
        = Returned tt m' ∧
    ∀ i j d, Reported m' i j d ↔
             Hit references (Dataset query_tree) range26 false i j d.
Proof.
  apply (query_tree_search_reports_in_range (TreeType0 := sorting_tree)
           (trees mem2) references owner 1 query_tree range26 mem2).
  - apply owner_view_beside_query_tree.
  - reflexivity.
  - reflexivity.
  - reflexivity.
  - apply query_tree_ok.
  - apply query_tree_bounds.
  - reflexivity.
Defined.

Lemma self_search_reports_in_range_witness :
  ∃ m', Search_self (TreeType0 := sorting_tree) owner range05 mem1
        = Returned tt m' ∧
    ∀ i j d, Reported m' i j d ↔ Hit references references range05 true i j d.
Proof.
  apply (self_search_reports_in_range (TreeType0 := sorting_tree)
           (trees mem1) references owner range05 mem1).
  - apply owner_view.
  - apply owner_self_bounds.
  - reflexivity.
Defined.

(** C9 on the tree type that sorts the matrix it is given, with the
    reference tree and a query tree on the heap. *)
Lemma point_sets_written_by_tree_constructor_only_witness :
  (∃ rs' m', RangeSearch_raw (TreeType0 := reordering_tree)
               references false false mem2
             = Returned (rs', [0; 3; 4; 7; 12]%Z) m' ∧
     ∀ a t, trees mem2 !! a = Some t → trees m' !! a = Some t) ∧
  (∀ Q' m', Search (TreeType0 := reordering_tree) owner queries range26 mem2
            = Returned Q' m' → Q' = [1; 10]%Z) ∧
  (∀ Q' m', Search (TreeType0 := reordering_tree) owner queries range26 mem2
            = Returned Q' m' → trees m' = trees mem2) ∧
  (∀ m', Search_tree (TreeType0 := reordering_tree) owner (Some 1) range26 mem2
         = Returned tt m' → trees m' = trees mem2) ∧
  (∀ m', Search_self (TreeType0 := reordering_tree) owner range26 mem2
         = Returned tt m' → trees m' = trees mem2).
Proof.
  destruct (point_sets_written_by_tree_constructor_only
              (TreeType0 := reordering_tree)
              references false false owner queries (Some 1) range26 mem2)
    as (Hctor & Hsearch & Hheap).
  split; [exact Hctor|]. split; [exact Hsearch|].
  apply Hheap; reflexivity.
Defined.

(** C9, where the caller's point sets do change: with a tree type whose
    mapping constructor sorts the matrix it is given, the constructor from
    the raw reference set [7, 0, 3, 12, 4] leaves the caller's matrix as
    [0, 3, 4, 7, 12], and the dual-tree search of the query set [10, 1]
    returns with the caller's query matrix as [1, 10]. *)
Lemma reordering_tree_rewrites_point_sets :
  references = [7; 0; 3; 12; 4]%Z ∧ queries = [10; 1]%Z ∧
  RangeSearch_raw (TreeType0 := reordering_tree) references false false mem0
    = Returned (owner, [0; 3; 4; 7; 12]%Z) mem1 ∧
  ∃ m', Search (TreeType0 := reordering_tree) owner queries range26 mem1
        = Returned [1; 10]%Z m'.
Proof.
  split; [done|]. split; [done|]. split; [by vm_compute|].
  eexists. by vm_compute.
Qed.

End LineMore.
